(** * The migrator package of api-toolkit: model and properties

    A shallow embedding of [migrator.Runner] (New, Up, Down and their
    internals) over an explicit model of the database session, the
    filesystem roots and the clock.

    Conventions.
    - Go strings are byte strings: [string].
    - [int64] values are [Z]; the runner never does arithmetic on them.
    - A Go function returning [error] is a computation of type [M unit];
      [Fail e] is a non-nil error, [Panic msg] an unrecovered panic.
    - Every call on [*sql.DB] / [*sql.Tx] is one statement; the driver's
      answer to it (an error or success, and how long it took) is read
      from the [oracle] of the [World], so any statement may fail. *)

From Stdlib Require Import ZArith Ascii String List Sorted Lia.
From stdpp Require Import base gmap sets list strings pretty.

Local Open Scope Z_scope.

(** ** Data model *)

(** [fs.DirEntry] together with what [fs.ReadFile] yields for it
    ([None]: the file cannot be read). *)
Record DirEntry := mkEntry {
  e_Name : string;
  e_IsDir : bool;
  e_Data : option string
}.

(** An [fs.FS] root: [None] when [fs.ReadDir(root, ".")] fails. *)
Definition FS := option (list DirEntry).

Record Options := mkOptions {
  MigrationsDir : string;
  MigrationsDirs : list string;
  EmbeddedFSs : list FS;
  TableName : string;
  LockKey : Z;
  AllowDangerousDown : bool;
  Logger : bool   (* whether a log sink is set ([Logger != nil]) *)
}.

Record Migration := mkMigration {
  m_Version : Z;
  m_Name : string;
  m_Dir : string;
  m_File : string;
  m_SQL : string;
  m_Checksum : string
}.

(** [*sql.DB] is a handle; the session it talks to is the [World]. *)
Definition sqlDB := nat.

Record Runner := mkRunner {
  DB : sqlDB;
  Opts : Options;
  migrations : list Migration;
  loaded : bool
}.

Record appliedRow := mkRow {
  a_Version : Z;
  a_Name : string;
  a_Checksum : string;
  a_AppliedAt : Z;
  a_ExecMS : Z;
  a_Success : bool
}.

Inductive error :=
| DBError (msg : string)                    (* reported by the driver *)
| FSError (msg : string)                    (* reported by io/fs *)
| ErrDownDisabled
| ErrNoDown (version : Z) (name : string)
| ErrMigrationFailed (version : Z) (cause : error)   (* %w *)
| ErrRevertFailed (version : Z) (cause : error)      (* %w *)
| ErrNoRowDeleted (version : Z) (table : string)
| ErrNoSource
| ErrEmbedSub (cause : error)
| ErrReadDir (cause : error)
| ErrDuplicate (version : Z) (dir : string).

(** [errors.Unwrap], iterated: the innermost error of a [%w] chain. *)
Fixpoint root_cause (e : error) : error :=
  match e with
  | ErrMigrationFailed _ c | ErrRevertFailed _ c
  | ErrEmbedSub c | ErrReadDir c => root_cause c
  | _ => e
  end.

Inductive Result (A : Type) :=
| Ok (a : A)
| Fail (e : error)
| Panic (msg : string).
Arguments Ok {A} a.
Arguments Fail {A} e.
Arguments Panic {A} msg.

(** ** Package-level values and [New] *)

Definition defaultTable : string := "schema_migrations".
Definition defaultLock : Z := 913551337114213777.

Definition New (db : sqlDB) (opts : Options) : Runner :=
  let opts1 :=
    if String.eqb (TableName opts) "" then
      mkOptions (MigrationsDir opts) (MigrationsDirs opts) (EmbeddedFSs opts)
        defaultTable (LockKey opts) (AllowDangerousDown opts) (Logger opts)
    else opts in
  let opts2 :=
    if Z.eqb (LockKey opts1) 0 then
      mkOptions (MigrationsDir opts1) (MigrationsDirs opts1)
        (EmbeddedFSs opts1) (TableName opts1) defaultLock
        (AllowDangerousDown opts1) (Logger opts1)
    else opts1 in
  mkRunner db opts2 [] false.

(** ** Strings: [strings.TrimSpace], [filepath.Base], [fmt] verbs *)

Definition byte (n : nat) : ascii := ascii_of_nat n.

(** [%d] of an int64. *)
Definition fmt_d (z : Z) : string := pretty z.

(** The white-space runes of [unicode.IsSpace], as UTF-8 byte sequences:
    U+0009..U+000D, U+0020, U+0085, U+00A0, U+1680, U+2000..U+200A,
    U+2028, U+2029, U+202F, U+205F, U+3000. *)
Definition space_runes : list (list nat) :=
  ([ [9]; [10]; [11]; [12]; [13]; [32];
    [194; 133]; [194; 160]; [225; 154; 128];
    [226; 128; 128]; [226; 128; 129]; [226; 128; 130]; [226; 128; 131];
    [226; 128; 132]; [226; 128; 133]; [226; 128; 134]; [226; 128; 135];
    [226; 128; 136]; [226; 128; 137]; [226; 128; 138];
    [226; 128; 168]; [226; 128; 169]; [226; 128; 175];
    [226; 129; 159]; [227; 128; 128] ])%nat.

Fixpoint strip_prefix (p : list nat) (s : list ascii) : option (list ascii) :=
  match p, s with
  | [], _ => Some s
  | n :: p', c :: s' =>
      if Nat.eqb (nat_of_ascii c) n then strip_prefix p' s' else None
  | _ :: _, [] => None
  end.

(** Drops one leading white-space rune, if there is one. *)
Fixpoint drop_space (runes : list (list nat)) (s : list ascii)
  : option (list ascii) :=
  match runes with
  | [] => None
  | p :: rest =>
      match strip_prefix p s with
      | Some s' => Some s'
      | None => drop_space rest s
      end
  end.

Fixpoint trim_left (fuel : nat) (runes : list (list nat)) (s : list ascii)
  : list ascii :=
  match fuel with
  | O => s
  | S k =>
      match drop_space runes s with
      | Some s' => trim_left k runes s'
      | None => s
      end
  end.

Definition bytes_of (s : string) : list ascii := list_ascii_of_string s.

Definition TrimSpace (s : string) : string :=
  let b := bytes_of s in
  let l := trim_left (length b) space_runes b in
  let r := trim_left (length l) (map (@rev nat) space_runes) (rev l) in
  string_of_list_ascii (rev r).

Definition is_sep (c : ascii) : bool := Nat.eqb (nat_of_ascii c) 47.

Fixpoint drop_while {A} (p : A -> bool) (l : list A) : list A :=
  match l with
  | [] => []
  | x :: l' => if p x then drop_while p l' else l
  end.

Fixpoint take_while {A} (p : A -> bool) (l : list A) : list A :=
  match l with
  | [] => []
  | x :: l' => if p x then x :: take_while p l' else []
  end.

(** [filepath.Base] with [/] as the separator. *)
Definition Base (path : string) : string :=
  if String.eqb path "" then "."
  else
    let stripped := drop_while is_sep (rev (bytes_of path)) in
    let last_elem := rev (take_while (fun c => negb (is_sep c)) stripped) in
    match last_elem with
    | [] => "/"
    | _ => string_of_list_ascii last_elem
    end.

(** ** File names: [fileRe] and [parseFileName] *)

Definition is_digit (c : ascii) : bool :=
  let n := nat_of_ascii c in Nat.leb 48 n && Nat.leb n 57.

Definition is_name_char (c : ascii) : bool :=
  let n := nat_of_ascii c in
  (Nat.leb 97 n && Nat.leb n 122) || (Nat.leb 65 n && Nat.leb n 90)
  || (Nat.leb 48 n && Nat.leb n 57) || Nat.eqb n 95 || Nat.eqb n 45.

(** [fileRe.FindStringSubmatch]: the three groups of
    [^(\d{8,14})_([a-zA-Z0-9_\-]+)\.(up|down)\.sql$].  Neither the
    digits nor the name class contain the character that must follow
    them, so each group is the longest run of its class. *)
Definition fileRe (s : string) : option (string * string * string) :=
  let b := bytes_of s in
  let ver := take_while is_digit b in
  if Nat.leb 8 (length ver) && Nat.leb (length ver) 14 then
    match drop_while is_digit b with
    | c :: rest =>
        if Nat.eqb (nat_of_ascii c) 95 then
          let name := take_while is_name_char rest in
          let tail := string_of_list_ascii (drop_while is_name_char rest) in
          match name with
          | [] => None
          | _ =>
              if String.eqb tail ".up.sql" then
                Some (string_of_list_ascii ver, string_of_list_ascii name, "up"%string)
              else if String.eqb tail ".down.sql" then
                Some (string_of_list_ascii ver, string_of_list_ascii name, "down"%string)
              else None
          end
        else None
    | [] => None
    end
  else None.

(** [strconv.ParseInt(s, 10, 64)] on a string of at most 14 decimal
    digits, where it cannot overflow. *)
Definition ParseInt (s : string) : Z :=
  fold_left (fun acc c => 10 * acc + (Z.of_nat (nat_of_ascii c) - 48))
            (bytes_of s) 0.

Definition parseFileName (name : string) : option Migration :=
  match fileRe (Base name) with
  | None => None
  | Some (ver, nm, dir) =>
      Some (mkMigration (ParseInt ver) nm dir name "" "")
  end.

(** ** [sort.Slice]

    Insertion sort by the [less] function.  Elements that compare equal
    keep their order here; [sort.Slice] promises no order for them. *)

Fixpoint insert_by {A} (less : A -> A -> bool) (x : A) (l : list A) : list A :=
  match l with
  | [] => [x]
  | y :: l' => if less y x then y :: insert_by less x l' else x :: l
  end.

Definition sort_Slice {A} (less : A -> A -> bool) (l : list A) : list A :=
  fold_right (insert_by less) [] l.

(** ** The session: database, filesystem, clock *)

(** The columns of a tracking row other than its primary key. *)
Record RowData := mkData {
  d_Name : string;
  d_Checksum : string;
  d_AppliedAt : Z;
  d_ExecMS : Z;
  d_Success : bool
}.

Definition row_of (kv : Z * RowData) : appliedRow :=
  mkRow (fst kv) (d_Name (snd kv)) (d_Checksum (snd kv))
        (d_AppliedAt (snd kv)) (d_ExecMS (snd kv)) (d_Success (snd kv)).

(** A tracking table maps [version] (its primary key) to the other
    columns; the database maps table names to tables. *)
Abbreviation Table := (gmap Z RowData).
Abbreviation Tables := (gmap string (gmap Z RowData)).

Inductive Stmt :=
| SLock (key : Z)
| SUnlock (key : Z)
| SCreateTable (table : string)
| SSelect (table : string)
| SUpsert (table : string) (version : Z) (name checksum : string)
          (execMS : Z) (success : bool)
| SBegin
| SExec (sql : string)
| SDelete (table : string) (version : Z)
| SCommit
| SRollback.

(** One statement sent to the database and the error it came back with. *)
Record Event := mkEvent { ev_stmt : Stmt; ev_err : option error }.

(** The driver's answer to one statement: an error or success, and the
    time the statement took, in nanoseconds. *)
Record Resp := mkResp { r_err : option string; r_dur : Z }.

(** An open transaction: its private view of the tables and the scripts
    it has run. *)
Record Tx := mkTx { tx_tables : Tables; tx_sql : list string }.

Record World := mkWorld {
  oracle : list Resp;           (* answers to the statements still to come *)
  clock : Z;                    (* nanoseconds *)
  disk : gmap string (list DirEntry);   (* directories, for os.DirFS *)
  held : list Z;                (* advisory locks held by the session *)
  tables : Tables;
  schema : list string;         (* committed migration scripts, in order *)
  txn : option Tx;
  trace : list Event;           (* statements sent so far, oldest first *)
  logs : list string
}.

Definition set_tables (t : Tables) (w : World) : World :=
  mkWorld (oracle w) (clock w) (disk w) (held w) t (schema w) (txn w)
          (trace w) (logs w).
Definition set_held (h : list Z) (w : World) : World :=
  mkWorld (oracle w) (clock w) (disk w) h (tables w) (schema w) (txn w)
          (trace w) (logs w).
Definition set_txn (t : option Tx) (w : World) : World :=
  mkWorld (oracle w) (clock w) (disk w) (held w) (tables w) (schema w) t
          (trace w) (logs w).
Definition set_schema (s : list string) (w : World) : World :=
  mkWorld (oracle w) (clock w) (disk w) (held w) (tables w) s (txn w)
          (trace w) (logs w).
Definition add_event (e : Event) (w : World) : World :=
  mkWorld (oracle w) (clock w) (disk w) (held w) (tables w) (schema w) (txn w)
          (trace w ++ [e]) (logs w).
Definition add_log (msg : string) (w : World) : World :=
  mkWorld (oracle w) (clock w) (disk w) (held w) (tables w) (schema w) (txn w)
          (trace w) (logs w ++ [msg]).

(** Takes the next answer of the driver and lets its time pass.  When
    the oracle is exhausted the statement succeeds at once. *)
Definition tick (w : World) : Resp * World :=
  match oracle w with
  | [] => (mkResp None 0, w)
  | r :: rest =>
      (r, mkWorld rest (clock w + r_dur r) (disk w) (held w) (tables w)
                  (schema w) (txn w) (trace w) (logs w))
  end.

(** ** The monad of runner methods: state, errors and panics *)

Definition St : Type := Runner * World.
Definition M (A : Type) : Type := St -> Result A * St.

#[global] Instance M_ret : MRet M := fun A a s => (Ok a, s).
#[global] Instance M_bind : MBind M := fun A B k m s =>
  match m s with
  | (Ok a, s') => k a s'
  | (Fail e, s') => (Fail e, s')
  | (Panic p, s') => (Panic p, s')
  end.

(** [return err] *)
Definition fail {A} (e : error) : M A := fun s => (Fail e, s).
(** [v, err := f()]: the error is a value, not yet returned. *)
Definition attempt {A} (m : M A) : M (A + error) := fun s =>
  match m s with
  | (Ok a, s') => (Ok (inl a), s')
  | (Fail e, s') => (Ok (inr e), s')
  | (Panic p, s') => (Panic p, s')
  end.

(** [_ = f()] *)
Definition discard {A} (m : M A) : M unit :=
  _ ← attempt m; mret tt.

Definition get_opts : M Options := fun s => (Ok (Opts (fst s)), s).
Definition get_runner : M Runner := fun s => (Ok (fst s), s).
(** [time.Now()] *)
Definition now : M Z := fun s => (Ok (clock (snd s)), s).

(** [time.Duration.Milliseconds] *)
Definition Milliseconds (d : Z) : Z := Z.quot d 1000000.

(** One statement: the driver answers; on success [eff] is the effect
    of the statement on the session (it may itself be refused by the
    database).  The statement and its outcome are appended to the trace. *)
Definition stmt {A} (s : Stmt) (eff : World -> Result A * World) : M A :=
  fun st =>
    let (resp, w1) := tick (snd st) in
    match r_err resp with
    | Some msg =>
        (Fail (DBError msg),
         (fst st, add_event (mkEvent s (Some (DBError msg))) w1))
    | None =>
        match eff w1 with
        | (Ok a, w2) => (Ok a, (fst st, add_event (mkEvent s None) w2))
        | (Fail e, w2) => (Fail e, (fst st, add_event (mkEvent s (Some e)) w2))
        | (Panic p, w2) => (Panic p, (fst st, w2))
        end
    end.

Definition undefined_table (t : string) : error :=
  DBError ("relation " +:+ t +:+ " does not exist").
Definition ErrTxDone : error :=
  DBError "sql: transaction has already been committed or rolled back".

(** [pq]: quotes an identifier. *)
Fixpoint double_quotes (s : string) : string :=
  match s with
  | EmptyString => EmptyString
  | String c s' =>
      if Nat.eqb (nat_of_ascii c) 34
      then String c (String c (double_quotes s'))
      else String c (double_quotes s')
  end.
Definition pq (ident : string) : string :=
  String (byte 34) (double_quotes ident) +:+ String (byte 34) EmptyString.

Fixpoint remove_one (k : Z) (l : list Z) : list Z :=
  match l with
  | [] => []
  | x :: l' => if Z.eqb x k then l' else x :: remove_one k l'
  end.

(** [SELECT pg_advisory_lock($1)] *)
Definition db_lock (key : Z) : M unit :=
  stmt (SLock key) (fun w => (Ok tt, set_held (key :: held w) w)).

(** [SELECT pg_advisory_unlock($1)] *)
Definition db_unlock (key : Z) : M unit :=
  stmt (SUnlock key) (fun w => (Ok tt, set_held (remove_one key (held w)) w)).

(** [CREATE TABLE IF NOT EXISTS t (...)] *)
Definition db_create_table (t : string) : M unit :=
  stmt (SCreateTable t) (fun w =>
    match tables w !! t with
    | Some _ => (Ok tt, w)
    | None => (Ok tt, set_tables (<[t := ∅]> (tables w)) w)
    end).

Definition applied_less (a b : appliedRow) : bool :=
  if Z.eqb (a_AppliedAt a) (a_AppliedAt b)
  then Z.ltb (a_Version a) (a_Version b)
  else Z.ltb (a_AppliedAt a) (a_AppliedAt b).

(** [SELECT ... FROM t ORDER BY applied_at ASC, version ASC] *)
Definition select_rows (tbl : Table) : list appliedRow :=
  sort_Slice applied_less (row_of <$> map_to_list tbl).

Definition db_select (t : string) : M (list appliedRow) :=
  stmt (SSelect t) (fun w =>
    match tables w !! t with
    | Some tbl => (Ok (select_rows tbl), w)
    | None => (Fail (undefined_table t), w)
    end).

(** [INSERT INTO t ... VALUES ($1, $2, $3, NOW(), $4, $5)
     ON CONFLICT (version) DO UPDATE SET ...], outside any transaction. *)
Definition db_upsert (t : string) (version : Z) (name checksum : string)
    (execMS : Z) (success : bool) : M unit :=
  at_ ← now;
  stmt (SUpsert t version name checksum execMS success) (fun w =>
    match tables w !! t with
    | Some tbl =>
        (Ok tt,
         set_tables
           (<[t := <[version := mkData name checksum at_ execMS success]> tbl]>
              (tables w)) w)
    | None => (Fail (undefined_table t), w)
    end).

(** [DB.BeginTx] *)
Definition db_begin : M unit :=
  stmt SBegin (fun w => (Ok tt, set_txn (Some (mkTx (tables w) [])) w)).

(** [tx.ExecContext(ctx, sql)] for a migration script. *)
Definition tx_exec (sql : string) : M unit :=
  stmt (SExec sql) (fun w =>
    match txn w with
    | Some tx =>
        (Ok tt, set_txn (Some (mkTx (tx_tables tx) (tx_sql tx ++ [sql]))) w)
    | None => (Fail ErrTxDone, w)
    end).

(** [tx.ExecContext(ctx, "DELETE FROM t WHERE version = $1", v)] and the
    [RowsAffected] of its result. *)
Definition tx_delete (t : string) (version : Z) : M Z :=
  stmt (SDelete t version) (fun w =>
    match txn w with
    | Some tx =>
        match tx_tables tx !! t with
        | Some tbl =>
            (Ok (match tbl !! version with Some _ => 1 | None => 0 end),
             set_txn (Some (mkTx (<[t := delete version tbl]> (tx_tables tx))
                                 (tx_sql tx))) w)
        | None => (Fail (undefined_table t), w)
        end
    | None => (Fail ErrTxDone, w)
    end).

(** [tx.Commit]: on success the transaction's view and scripts become
    the session's; on failure they are lost. *)
Definition tx_commit : M unit := fun st =>
  let (resp, w1) := tick (snd st) in
  match r_err resp, txn w1 with
  | Some msg, _ =>
      (Fail (DBError msg),
       (fst st, add_event (mkEvent SCommit (Some (DBError msg)))
                          (set_txn None w1)))
  | None, Some tx =>
      (Ok tt,
       (fst st, add_event (mkEvent SCommit None)
                  (set_txn None
                     (set_schema (schema w1 ++ tx_sql tx)
                        (set_tables (tx_tables tx) w1)))))
  | None, None =>
      (Fail ErrTxDone, (fst st, add_event (mkEvent SCommit (Some ErrTxDone)) w1))
  end.

(** [tx.Rollback]: whatever the driver answers, the transaction is over
    and its effects are dropped. *)
Definition tx_rollback : M unit := fun st =>
  let (resp, w1) := tick (snd st) in
  match r_err resp with
  | Some msg =>
      (Fail (DBError msg),
       (fst st, add_event (mkEvent SRollback (Some (DBError msg)))
                          (set_txn None w1)))
  | None =>
      (Ok tt, (fst st, add_event (mkEvent SRollback None) (set_txn None w1)))
  end.

(** ** Runner internals *)

(** [r.log]: formats and writes to the sink when one is set. *)
Definition log (msg : string) : M unit := fun s =>
  if Logger (Opts (fst s)) then (Ok tt, (fst s, add_log msg (snd s)))
  else (Ok tt, s).

Definition ensureTable : M unit :=
  o ← get_opts; db_create_table (pq (TableName o)).

Definition loadApplied : M (list appliedRow) :=
  o ← get_opts; db_select (pq (TableName o)).

Definition loadAppliedSuccess : M (list appliedRow) :=
  all ← loadApplied;
  mret (List.filter a_Success all).

(** The [appliedSet] map of [pendingUp]. *)
Definition appliedSet (applied : list appliedRow) : gmap Z appliedRow :=
  fold_left (fun set a => if a_Success a then <[a_Version a := a]> set else set)
            applied ∅.

Definition mismatch_msg (m : Migration) (a : appliedRow) : string :=
  "checksum mismatch at " +:+ fmt_d (m_Version m) +:+ ": have "
    +:+ a_Checksum a +:+ " want " +:+ m_Checksum m.

(** The loop of [pendingUp] over [r.migrations]; [pending] is the slice
    built so far. *)
Fixpoint pendingUp_loop (set : gmap Z appliedRow) (ms : list Migration)
    (pending : list Migration) : Result (list Migration) :=
  match ms with
  | [] => Ok pending
  | m :: rest =>
      if negb (String.eqb (m_Dir m) "up") then pendingUp_loop set rest pending
      else
        match set !! m_Version m with
        | Some a =>
            if negb (String.eqb (a_Checksum a) (m_Checksum m))
            then Panic (mismatch_msg m a)
            else pendingUp_loop set rest pending
        | None => pendingUp_loop set rest (pending ++ [m])
        end
  end.

Definition version_less (a b : Migration) : bool :=
  Z.ltb (m_Version a) (m_Version b).

Definition pendingUp_pure (ms : list Migration) (applied : list appliedRow)
  : Result (list Migration) :=
  match pendingUp_loop (appliedSet applied) ms [] with
  | Ok pending => Ok (sort_Slice version_less pending)
  | other => other
  end.

Definition pendingUp (applied : list appliedRow) : M (list Migration) :=
  fun s => (pendingUp_pure (migrations (fst s)) applied, s).

Definition record (m : Migration) (execMS : Z) (ok : bool) : M unit :=
  o ← get_opts;
  db_upsert (pq (TableName o)) (m_Version m) (m_Name m) (m_Checksum m)
            execMS ok.

Definition applyOne (m : Migration) : M unit :=
  _ ← log ("applying " +:+ fmt_d (m_Version m) +:+ " " +:+ m_Name m);
  _ ← db_begin;
  start ← now;
  err ← attempt (tx_exec (m_SQL m));
  stop ← now;
  let execMS := Milliseconds (stop - start) in
  match err with
  | inr e =>
      _ ← discard tx_rollback;
      _ ← discard (record m execMS false);
      fail (ErrMigrationFailed (m_Version m) e)
  | inl _ =>
      cerr ← attempt tx_commit;
      match cerr with
      | inr e =>
          _ ← discard (record m execMS false);
          fail e
      | inl _ => record m execMS true
      end
  end.

(** The end of [revertOne], from the row count [aff] of the DELETE on:
    [if aff != 1 { _ = tx.Rollback(); return ... }; return tx.Commit()]. *)
Definition revert_finish (tableName : string) (m : Migration) (aff : Z)
  : M unit :=
  if negb (Z.eqb aff 1) then
    _ ← discard tx_rollback;
    fail (ErrNoRowDeleted (m_Version m) tableName)
  else tx_commit.

Definition revertOne (m : Migration) : M unit :=
  _ ← log ("reverting " +:+ fmt_d (m_Version m) +:+ " " +:+ m_Name m);
  _ ← db_begin;
  _ ← (if negb (String.eqb (TrimSpace (m_SQL m)) "") then
         err ← attempt (tx_exec (m_SQL m));
         match err with
         | inr e =>
             _ ← discard tx_rollback;
             fail (ErrRevertFailed (m_Version m) e)
         | inl _ => mret tt
         end
       else mret tt);
  o ← get_opts;
  res ← attempt (tx_delete (pq (TableName o)) (m_Version m));
  match res with
  | inr e => _ ← discard tx_rollback; fail e
  | inl aff => revert_finish (TableName o) m aff
  end.

(** [withLock]: the deferred unlock runs however [fn] ends, and its own
    error is dropped. *)
Definition release (x : Result unit * St) : Result unit * St :=
  let (res, s2) := x in
  let (_, s3) := db_unlock (LockKey (Opts (fst s2))) s2 in
  (res, s3).

Definition withLock (fn : M unit) : M unit := fun s =>
  match db_lock (LockKey (Opts (fst s))) s with
  | (Ok _, s1) => release (fn s1)
  | (Fail e, s1) => (Fail e, s1)
  | (Panic p, s1) => (Panic p, s1)
  end.

Definition find (ms : list Migration) (version : Z) (dir : string)
  : option Migration :=
  List.find (fun m => Z.eqb (m_Version m) version && String.eqb (m_Dir m) dir)
            ms.

(** *** Loading the migration files *)

(** [fs.ReadFile(root, name)] *)
Definition ReadFile (root : FS) (name : string) : Result string :=
  match root with
  | None => Fail (FSError ("open " +:+ name))
  | Some ents =>
      match List.find (fun e => String.eqb (e_Name e) name) ents with
      | Some e =>
          match e_Data e with
          | Some data => Ok data
          | None => Fail (FSError ("read " +:+ name))
          end
      | None => Fail (FSError ("open " +:+ name +:+ ": file does not exist"))
      end
  end.

(** Deduplicates the directories, keeping their order and dropping [""]. *)
Fixpoint uniq_dirs (dirs : list string) (seen : gset string) : list string :=
  match dirs with
  | [] => []
  | d :: rest =>
      if String.eqb d "" then uniq_dirs rest seen
      else if bool_decide (d ∈ seen) then uniq_dirs rest seen
      else d :: uniq_dirs rest ({[d]} ∪ seen)
  end.

(** [fs.Sub(efs, ".")], which returns [efs] itself. *)
Definition fs_Sub_dot (efs : FS) : Result FS := Ok efs.

Fixpoint embedded_roots (efss : list FS) : Result (list FS) :=
  match efss with
  | [] => Ok []
  | efs :: rest =>
      match fs_Sub_dot efs with
      | Ok sub =>
          match embedded_roots rest with
          | Ok subs => Ok (sub :: subs)
          | other => other
          end
      | Fail e => Fail (ErrEmbedSub e)
      | Panic p => Panic p
      end
  end.

(** The [fileRef]s of all roots: every entry that is not a directory. *)
Fixpoint aggregate (roots : list FS) : Result (list (FS * string)) :=
  match roots with
  | [] => Ok []
  | root :: rest =>
      match root with
      | None => Fail (ErrReadDir (FSError "readdir"))
      | Some ents =>
          match aggregate rest with
          | Ok more =>
              Ok (map (fun e => (root, e_Name e))
                      (List.filter (fun e => negb (e_IsDir e)) ents) ++ more)
          | other => other
          end
      end
  end.

(** The roots [loadMigrations] reads from: the directories, without
    repetitions, then the embedded filesystems. *)
Definition load_roots (o : Options) (dsk : gmap string (list DirEntry))
  : Result (list FS) :=
  let dirs :=
    (if negb (String.eqb (MigrationsDir o) "") then [MigrationsDir o] else [])
    ++ MigrationsDirs o in
  let uniqDirs := uniq_dirs dirs ∅ in
  match embedded_roots (EmbeddedFSs o) with
  | Ok subs => Ok (map (fun d => dsk !! d) uniqDirs ++ subs)
  | Fail e => Fail e
  | Panic p => Panic p
  end.

Definition mig_key (m : Migration) : string :=
  fmt_d (m_Version m) +:+ ":" +:+ m_Dir m.

Definition mig_less (a b : Migration) : bool :=
  if Z.eqb (m_Version a) (m_Version b)
  then String.ltb (m_Dir a) (m_Dir b)
  else Z.ltb (m_Version a) (m_Version b).

Section Load.

(** [checksum]: the hexadecimal SHA-256 of the script. *)
Variable checksum : string -> string.

(** The parse-and-collect loop; [migs] is [r.migrations] as appended to
    so far, which the runner keeps also when the loop returns an error. *)
Fixpoint collect (all : list (FS * string)) (seenMig : gset string)
    (migs : list Migration) : option error * list Migration :=
  match all with
  | [] => (None, migs)
  | (root, name) :: rest =>
      match parseFileName name with
      | None => collect rest seenMig migs
      | Some m =>
          let key := mig_key m in
          if bool_decide (key ∈ seenMig) then
            (Some (ErrDuplicate (m_Version m) (m_Dir m)), migs)
          else
            match ReadFile root name with
            | Ok b =>
                let sql := TrimSpace b in
                let m' := mkMigration (m_Version m) (m_Name m) (m_Dir m)
                                      (m_File m) sql (checksum sql) in
                collect rest ({[key]} ∪ seenMig) (migs ++ [m'])
            | Fail e => (Some e, migs)
            | Panic _ => (Some (FSError "read"), migs)
            end
      end
  end.

Definition with_migrations (r : Runner) (ms : list Migration) (l : bool)
  : Runner := mkRunner (DB r) (Opts r) ms l.

Definition loadMigrations_pure (r : Runner)
    (dsk : gmap string (list DirEntry)) : option error * Runner :=
  if loaded r then (None, r)
  else
    match load_roots (Opts r) dsk with
    | Fail e => (Some e, r)
    | Panic _ => (Some (FSError "sub"), r)
    | Ok [] => (Some ErrNoSource, r)
    | Ok roots =>
        match aggregate roots with
        | Fail e => (Some e, r)
        | Panic _ => (Some (FSError "readdir"), r)
        | Ok all =>
            match collect all ∅ (migrations r) with
            | (Some e, migs) => (Some e, with_migrations r migs false)
            | (None, migs) =>
                (None, with_migrations r (sort_Slice mig_less migs) true)
            end
        end
    end.

Definition loadMigrations : M unit := fun s =>
  match loadMigrations_pure (fst s) (disk (snd s)) with
  | (None, r') => (Ok tt, (r', snd s))
  | (Some e, r') => (Fail e, (r', snd s))
  end.

(** ** [Up] and [Down] *)

Fixpoint applyAll (pending : list Migration) : M unit :=
  match pending with
  | [] => mret tt
  | m :: rest => _ ← applyOne m; applyAll rest
  end.

Definition Up_body : M unit :=
  _ ← ensureTable;
  _ ← loadMigrations;
  applied ← loadApplied;
  pending ← pendingUp applied;
  match pending with
  | [] => log "migrations up-to-date"
  | _ => applyAll pending
  end.

Definition Up (r : Runner) (w : World) : Result unit * St :=
  withLock Up_body (r, w).

Definition Down_body : M unit :=
  _ ← ensureTable;
  _ ← loadMigrations;
  appliedOK ← loadAppliedSuccess;
  match last appliedOK with
  | None => log "no successful migrations to revert"
  | Some latest =>
      r ← get_runner;
      match find (migrations r) (a_Version latest) "down" with
      | None => fail (ErrNoDown (a_Version latest) (a_Name latest))
      | Some down => revertOne down
      end
  end.

Definition Down (r : Runner) (w : World) : Result unit * St :=
  if negb (AllowDangerousDown (Opts r)) then (Fail ErrDownDisabled, (r, w))
  else withLock Down_body (r, w).

End Load.

(** ** Vocabulary of the statements below *)

Definition ev_ok (s : Stmt) : Event := mkEvent s None.
Definition ev_fail (s : Stmt) (e : error) : Event := mkEvent s (Some e).

(** The driver accepts the next [n] statements. *)
Fixpoint answers (n : nat) (o : list Resp) : bool :=
  match n, o with
  | O, _ => true
  | S _, [] => true
  | S k, r :: rest =>
      match r_err r with
      | None => answers k rest
      | Some _ => false
      end
  end.

(** The quoted name of the runner's tracking table and its lock key. *)
Definition table_of (r : Runner) : string := pq (TableName (Opts r)).
Definition key_of (r : Runner) : Z := LockKey (Opts r).

(** What [revertOne] sends for the script of [m], and what a commit adds
    to the schema: nothing when the trimmed body is empty. *)
Definition exec_events (m : Migration) : list Event :=
  if String.eqb (TrimSpace (m_SQL m)) "" then []
  else [ev_ok (SExec (m_SQL m))].
Definition exec_scripts (m : Migration) : list string :=
  if String.eqb (TrimSpace (m_SQL m)) "" then [] else [m_SQL m].

(** The session once the lock is held, the table ensured and its rows
    read: what [Up] and [Down] start their work from. *)
Definition after_reads (r : Runner) (w : World) : World :=
  snd (snd ((_ ← db_lock (key_of r);
             _ ← db_create_table (table_of r);
             db_select (table_of r)) (r, w))).

(** The rows of table [t], none when the table does not exist yet. *)
Definition rows_at (tb : Tables) (t : string) : Table :=
  match tb !! t with
  | Some tbl => tbl
  | None => ∅
  end.

(** [applied_at] and [version] of [a] come before or equal those of [b]
    in the order of [loadApplied]. *)
Definition applied_le (at_a va at_b vb : Z) : Prop :=
  at_a < at_b \/ (at_a = at_b /\ va <= vb).

(** What [Up] does with the rows read. *)
Definition Up_tail (applied : list appliedRow) : M unit :=
  pending ← pendingUp applied;
  match pending with
  | [] => log "migrations up-to-date"
  | _ => applyAll pending
  end.

(** What [Down] does with the [success=true] rows read. *)
Definition Down_tail (appliedOK : list appliedRow) : M unit :=
  match last appliedOK with
  | None => log "no successful migrations to revert"
  | Some latest =>
      r ← get_runner;
      match find (migrations r) (a_Version latest) "down" with
      | None => fail (ErrNoDown (a_Version latest) (a_Name latest))
      | Some down => revertOne down
      end
  end.

(** The statement [record] sends for [m]. *)
Definition record_stmt (r : Runner) (m : Migration) (execMS : Z) (ok : bool)
  : Stmt :=
  SUpsert (table_of r) (m_Version m) (m_Name m) (m_Checksum m) execMS ok.

(** [tb'] is [tb] with the row of [m] written by [record] at time [at_]. *)
Definition recorded (r : Runner) (m : Migration) (at_ execMS : Z) (ok : bool)
    (tb tb' : Tables) : Prop :=
  exists tbl,
    tb !! table_of r = Some tbl
    /\ tb' = <[table_of r :=
               <[m_Version m :=
                   mkData (m_Name m) (m_Checksum m) at_ execMS ok]> tbl]> tb.

(** What a [record] whose error is dropped leaves behind: the row when
    the upsert was accepted ([ue = None]), the tables as they were when
    it was not. *)
Definition best_effort (r : Runner) (m : Migration) (execMS : Z)
    (ue : option error) (tb tb' : Tables) : Prop :=
  match ue with
  | None => exists at_, recorded r m at_ execMS false tb tb'
  | Some _ => tb' = tb
  end.

(** The registry invariant of the data model: no two loaded scripts
    share version and direction. *)
Definition registry_ok (ms : list Migration) : Prop :=
  NoDup (mig_key <$> ms).

(** [tbl'] is [tbl] after the scripts [ms] were applied and recorded:
    rows of other versions are as before, and every version of [ms] has
    a [success=true] row with the checksum of a script of [ms] of that
    version. *)
Definition applied_to (ms : list Migration) (tbl tbl' : Table) : Prop :=
  (forall v, (forall m, m ∈ ms -> m_Version m <> v) -> tbl' !! v = tbl !! v)
  /\ (forall m, m ∈ ms ->
        exists d m', tbl' !! m_Version m = Some d /\ d_Success d = true
                     /\ m' ∈ ms /\ m_Version m' = m_Version m
                     /\ d_Checksum d = m_Checksum m').

(** The statements whose error the runner drops: [_ = tx.Rollback()],
    [_ = r.record(ctx, m, execMS, false)] and the deferred unlock. *)
Definition discarded (s : Stmt) : bool :=
  match s with
  | SRollback | SUnlock _ => true
  | SUpsert _ _ _ _ _ false => true
  | _ => false
  end.

(** The error of [ev], if it has one, was dropped by design or is what
    the call returned, possibly wrapped. *)
Definition explained {A} (res : Result A) (ev : Event) : Prop :=
  match ev_err ev with
  | None => True
  | Some e =>
      discarded (ev_stmt ev) = true
      \/ exists e', res = Fail e' /\ root_cause e' = e
  end.

Definition surfaced {A} (res : Result A) (tr : list Event) : Prop :=
  Forall (explained res) tr.

(** The plain reading of "no error is swallowed": every failed
    statement's error is what the call returned, possibly wrapped. *)
Definition returned {A} (res : Result A) (ev : Event) : Prop :=
  match ev_err ev with
  | None => True
  | Some e => exists e', res = Fail e' /\ root_cause e' = e
  end.

(** Every file of [all] that matches the file-name grammar can be read. *)
Definition readable (all : list (FS * string)) : bool :=
  forallb (fun fr =>
             match parseFileName (snd fr) with
             | None => true
             | Some _ =>
                 match ReadFile (fst fr) (snd fr) with
                 | Ok _ => true
                 | _ => false
                 end
             end) all.

(** The key of the file named [name], when it matches the grammar. *)
Definition key_of_file (name : string) : option string :=
  mig_key <$> parseFileName name.


(** ** Concrete sessions

    A directory of three Up scripts and one Down script, a second
    directory that repeats a version, and the tracking tables the
    statements below are evaluated on.  [toy_checksum] stands in for
    SHA-256: the runner only compares checksums. *)

Definition toy_checksum (s : string) : string := "sha:" +:+ s.

Definition sql_users : string := "CREATE TABLE users (id int);".
Definition sql_users_down : string := "DROP TABLE users;".
Definition sql_posts : string := "CREATE TABLE posts (id int);".
Definition sql_tags : string := "CREATE TABLE tags (id int);".

Definition file (name data : string) : DirEntry := mkEntry name false (Some data).

Definition ex_dir : list DirEntry :=
  [ file "20240101_users.down.sql" sql_users_down;
    file "20240101_users.up.sql" sql_users;
    file "20240102_posts.up.sql" sql_posts;
    file "20240103_tags.up.sql" sql_tags;
    mkEntry "archive" true None;
    file "README.md" "notes" ].

Definition ex_dir_b : list DirEntry :=
  [ file "20240101_accounts.up.sql" "CREATE TABLE accounts (id int);" ].

Definition ex_disk : gmap string (list DirEntry) :=
  {[ "migrations"%string := ex_dir; "extra"%string := ex_dir_b ]}.

Definition ex_opts (down : bool) : Options :=
  mkOptions "migrations" [] [] "" 0 down false.

Definition ex_opts_two_dirs : Options :=
  mkOptions "" ["migrations"%string; "extra"%string] [] "" 0 false false.

Definition ex_runner (down : bool) : Runner := New 0%nat (ex_opts down).

Definition ex_table_name : string := pq defaultTable.

Definition ex_world (o : list Resp) (tb : Tables) : World :=
  mkWorld o 0 ex_disk [] tb [] None [] [].

Definition ok_in (ms : Z) : Resp := mkResp None (ms * 1000000).
Definition fails_in (msg : string) (ms : Z) : Resp :=
  mkResp (Some msg) (ms * 1000000).

Definition mig_users : Migration :=
  mkMigration 20240101 "users" "up" "20240101_users.up.sql"
              sql_users (toy_checksum sql_users).
Definition mig_users_down : Migration :=
  mkMigration 20240101 "users" "down" "20240101_users.down.sql"
              sql_users_down (toy_checksum sql_users_down).
Definition mig_posts : Migration :=
  mkMigration 20240102 "posts" "up" "20240102_posts.up.sql"
              sql_posts (toy_checksum sql_posts).
Definition mig_tags : Migration :=
  mkMigration 20240103 "tags" "up" "20240103_tags.up.sql"
              sql_tags (toy_checksum sql_tags).

(** The registry [loadMigrations] builds from [ex_dir]. *)
Definition ex_registry : list Migration :=
  [mig_users_down; mig_users; mig_posts; mig_tags].

Definition ex_loaded (down : bool) : Runner :=
  mkRunner 0%nat (Opts (ex_runner down)) ex_registry true.

(** [users] was applied from an earlier text of its script. *)
Definition row_users_old : RowData :=
  mkData "users" (toy_checksum "CREATE TABLE users ();") 5 1 true.
Definition ex_tables_drift : Tables :=
  {[ ex_table_name := {[ 20240101 := row_users_old ]} ]}.

(** [posts] was applied first, [users] added and applied later. *)
Definition row_posts_first : RowData :=
  mkData "posts" (toy_checksum sql_posts) 10 1 true.
Definition row_users_later : RowData :=
  mkData "users" (toy_checksum sql_users) 20 1 true.
Definition ex_table_out_of_order : Table :=
  {[ 20240102 := row_posts_first; 20240101 := row_users_later ]}.
Definition ex_tables_out_of_order : Tables :=
  {[ ex_table_name := ex_table_out_of_order ]}.

(** The driver's answers when the second of the three scripts fails:
    lock, create, select; begin, script, commit, upsert for [users];
    begin and the refused script for [posts]. *)
Definition ex_second_fails : list Resp :=
  [ ok_in 1; ok_in 1; ok_in 1;
    ok_in 1; ok_in 7; ok_in 1; ok_in 1;
    ok_in 1; fails_in "syntax error" 3 ].

(** The same, and the connection is lost right after: the upsert of the
    [success=false] row is refused as well. *)
Definition ex_second_fails_twice : list Resp :=
  ex_second_fails ++ [ ok_in 1; fails_in "connection lost" 1 ].

(** The session after [users], the first pending script, was applied. *)
Definition ex_after_users : World :=
  snd (snd (applyAll [mig_users]
              (ex_loaded false,
               after_reads (ex_runner false) (ex_world ex_second_fails ∅)))).

(** The session after a first [Up] that applied all three scripts. *)
Definition ex_after_up : World :=
  snd (snd (Up toy_checksum (ex_runner false) (ex_world [] ∅))).

(** A table whose only row records a failed attempt. *)
Definition row_users_failed : RowData :=
  mkData "users" (toy_checksum sql_users) 5 1 false.
Definition ex_tables_failed : Tables :=
  {[ ex_table_name := {[ 20240101 := row_users_failed ]} ]}.

(** The files [Up] collects from the two directories. *)
Definition ex_all : list (FS * string) :=
  match aggregate [Some ex_dir; Some ex_dir_b] with
  | Ok all => all
  | _ => []
  end.

(** The directory while [20240102_posts.up.sql] cannot be read, and a
    runner that tried to load from it and then loads again once the file
    is readable. *)
Definition ex_dir_unreadable : list DirEntry :=
  [ file "20240101_users.up.sql" sql_users;
    mkEntry "20240102_posts.up.sql" false None ].
Definition ex_dir_repaired : list DirEntry :=
  [ file "20240101_users.up.sql" sql_users;
    file "20240102_posts.up.sql" sql_posts ].
Definition ex_after_failed_load : Runner :=
  snd (loadMigrations_pure toy_checksum (ex_runner false)
         {[ "migrations"%string := ex_dir_unreadable ]}).
Definition ex_after_second_load : Runner :=
  snd (loadMigrations_pure toy_checksum ex_after_failed_load
         {[ "migrations"%string := ex_dir_repaired ]}).

(** In the spec's words: the greatest version among the [success=true]
    rows (0 when there is none). *)
Definition greatest_success_version (tbl : Table) : Z :=
  map_fold (fun v d acc => if d_Success d then Z.max v acc else acc) 0 tbl.

(** [x] may stand before [y] in a slice sorted by [less]: [y] is not
    less than [x]. *)
Definition not_after {A} (less : A -> A -> bool) (x y : A) : Prop :=
  less y x = false.

Definition is_up (m : Migration) : bool := String.eqb (m_Dir m) "up".

(** A script waits to be applied: it is an Up script whose version has
    no [success=true] row. *)
Definition waiting (set : gmap Z appliedRow) (m : Migration) : bool :=
  is_up m && match set !! m_Version m with Some _ => false | None => true end.

(** The recorded checksum of [m]'s version differs from [m]'s. *)
Definition drifted (set : gmap Z appliedRow) (m : Migration) : Prop :=
  is_up m = true /\
  exists a, set !! m_Version m = Some a /\ a_Checksum a <> m_Checksum m.

(** ** Vocabulary of the further properties *)

(** The file name the grammar accepts for the digits [ver], the name
    [nm] and the direction [dir]. *)
Definition file_name (ver nm dir : string) : string :=
  ver +:+ "_" +:+ nm +:+ "." +:+ dir +:+ ".sql".

(** Every byte of [s] is in the class [p]. *)
Definition all_bytes (p : ascii -> bool) (s : string) : Prop :=
  Forall (fun c => p c = true) (bytes_of s).

Definition has_direction (m : Migration) : Prop :=
  m_Dir m = "up"%string \/ m_Dir m = "down"%string.


(** What the loop of [loadMigrations] makes of one file: the parsed
    file name, the trimmed content and its checksum; nothing when the
    name is not of the grammar or the file cannot be read. *)
Definition script_of (checksum : string -> string) (fr : FS * string)
  : option Migration :=
  match parseFileName (snd fr), ReadFile (fst fr) (snd fr) with
  | Some m, Ok b =>
      Some (mkMigration (m_Version m) (m_Name m) (m_Dir m) (m_File m)
              (TrimSpace b) (checksum (TrimSpace b)))
  | _, _ => None
  end.


(** A file the loop passes: its name is not of the grammar, or it was
    read. *)
Definition collected (checksum : string -> string) (fr : FS * string)
  : Prop :=
  parseFileName (snd fr) = None \/ is_Some (script_of checksum fr).

(** Why the loop stopped at [fr] with [e], after the files [pre]: one of
    them has the version and direction of [fr], or [fr] cannot be
    read. *)
Definition stopped_at (pre : list (FS * string)) (fr : FS * string)
    (e : error) : Prop :=
  exists m,
    parseFileName (snd fr) = Some m
    /\ ((e = ErrDuplicate (m_Version m) (m_Dir m)
         /\ exists fr' m', fr' ∈ pre /\ parseFileName (snd fr') = Some m'
                           /\ mig_key m' = mig_key m)
        \/ ReadFile (fst fr) (snd fr) = Fail e).

(** [d1] comes up in [l] before any [d2] does. *)
Definition first_before {A} (d1 d2 : A) (l : list A) : Prop :=
  exists pre post, l = pre ++ d1 :: post /\ (d1 ∉ pre) /\ (d2 ∉ pre).

(** [f] leaves the advisory locks and the runner's options alone. *)
Definition lock_frame {A} (f : M A) : Prop :=
  forall s, held (snd (snd (f s))) = held (snd s)
            /\ Opts (fst (snd (f s))) = Opts (fst s).

(** After [out] the locks are as [w] had them, unless the unlock itself
    was refused: then the runner's key is still held. *)
Definition lock_restored (r : Runner) (w : World) (out : Result unit * St)
  : Prop :=
  held (snd (snd out)) = held w
  \/ exists e,
       last (trace (snd (snd out))) = Some (ev_fail (SUnlock (key_of r)) e)
       /\ held (snd (snd out)) = key_of r :: held w.

(** What [applyOne] sends for a script that goes through. *)
Definition apply_events (r : Runner) (m : Migration) (execMS : Z)
  : list Event :=
  [ev_ok SBegin; ev_ok (SExec (m_SQL m)); ev_ok SCommit;
   ev_ok (record_stmt r m execMS true)].

(** [m] is a loaded Up script of [r] whose version has no
    [success=true] row in [tbl]. *)
Definition pending_in (r : Runner) (tbl : Table) (m : Migration) : Prop :=
  m ∈ migrations r /\ m_Dir m = "up"%string
  /\ forall d, tbl !! m_Version m = Some d -> d_Success d = false.

(** What [applyOne] may send for [m]. *)
Definition apply_sends (r : Runner) (m : Migration) (ev : Event) : Prop :=
  match ev_stmt ev with
  | SBegin | SCommit | SRollback => True
  | SExec sql => sql = m_SQL m
  | SUpsert t v name sum _ _ =>
      t = table_of r /\ v = m_Version m /\ name = m_Name m
      /\ sum = m_Checksum m
  | _ => False
  end.

(** What [Up] may send: the lock and unlock of its key, CREATE TABLE and
    SELECT on its tracking table, and, for a script that was pending by
    the rows [tbl], what [applyOne] sends.  No DELETE. *)
Definition up_sends (r r' : Runner) (tbl : Table) (ev : Event) : Prop :=
  match ev_stmt ev with
  | SLock k | SUnlock k => k = key_of r
  | SCreateTable t | SSelect t => t = table_of r
  | _ => exists m, pending_in r' tbl m /\ apply_sends r m ev
  end.

(** ** [Status] *)

Section Report.

Variable checksum : string -> string.
(** [t.Format(time.RFC3339)] *)
Variable RFC3339 : Z -> string.

Definition newline : string := String (byte 10) EmptyString.
(** [%t] *)
Definition fmt_t (b : bool) : string := if b then "true" else "false".

Definition applied_line (a : appliedRow) : string :=
  "  " +:+ fmt_d (a_Version a) +:+ " " +:+ a_Name a +:+ " at "
    +:+ RFC3339 (a_AppliedAt a) +:+ " ok=" +:+ fmt_t (a_Success a)
    +:+ newline.

(** The inner loop of [Status]: ["*"] when some pending script has the
    version of [m]. *)
Definition status_flag (next : list Migration) (m : Migration) : string :=
  if existsb (fun n => Z.eqb (m_Version n) (m_Version m)) next
  then "*" else " ".

Definition up_line (next : list Migration) (m : Migration) : string :=
  "  " +:+ status_flag next m +:+ " " +:+ fmt_d (m_Version m) +:+ " "
    +:+ m_Name m +:+ newline.

(** What the [strings.Builder] of [Status] holds at the end. *)
Definition status_text (tableName : string) (applied : list appliedRow)
    (up next : list Migration) : string :=
  "table: " +:+ tableName +:+ newline
    +:+ match applied with
        | [] => "applied: none" +:+ newline
        | _ => "applied:" +:+ newline
                 +:+ String.concat "" (map applied_line applied)
        end
    +:+ "available up:" +:+ newline
    +:+ String.concat "" (map (up_line next) up).

Definition Status : M string :=
  _ ← ensureTable;
  _ ← loadMigrations checksum;
  applied ← loadApplied;
  r ← get_runner;
  let up := List.filter is_up (migrations r) in
  next ← pendingUp applied;
  mret (status_text (TableName (Opts r)) applied up next).

End Report.

(** The statements [Status] may send. *)
Definition is_read (t : string) (ev : Event) : Prop :=
  ev_stmt ev = SCreateTable t \/ ev_stmt ev = SSelect t.

(** ** More concrete sessions *)

(** Stands in for the RFC 3339 text of a time. *)
Definition toy_time (t : Z) : string := "t" +:+ fmt_d t.

(** A path to a migration file and what [parseFileName] makes of it. *)
Definition ex_path : string := "db/migrations/20240101_users.up.sql".
Definition ex_parsed : Migration :=
  mkMigration 20240101 "users" "up" ex_path "" "".

(** A runner without any source, and one whose directory is missing. *)
Definition ex_runner_no_source : Runner :=
  New 0%nat (mkOptions "" [""%string] [] "" 0 false false).
Definition ex_runner_missing_dir : Runner :=
  New 0%nat (mkOptions "missing" [] [] "" 0 false false).

(** The session in which [posts] was applied before [users], and the
    one with the drifted row of [users]. *)
Definition ex_world_applied : World := ex_world [] ex_tables_out_of_order.
Definition ex_world_drift : World := ex_world [] ex_tables_drift.

(** A directory whose second file cannot be read, and the same
    directory once it can, the first script having been edited
    meanwhile (it was never applied). *)
Definition sql_seed : string := "INSERT INTO settings VALUES (1);".
Definition sql_seed_edited : string := "INSERT INTO settings VALUES (2);".
Definition ex_dir_first : list DirEntry :=
  [ file "20240101_seed.up.sql" sql_seed;
    mkEntry "20240102_posts.up.sql" false None ].
Definition ex_dir_fixed : list DirEntry :=
  [ file "20240101_seed.up.sql" sql_seed_edited;
    file "20240102_posts.up.sql" sql_posts ].

(** The session [w] after the directories changed to [dsk]. *)
Definition with_disk (dsk : gmap string (list DirEntry)) (w : World) : World :=
  mkWorld (oracle w) (clock w) dsk (held w) (tables w) (schema w) (txn w)
          (trace w) (logs w).

(** A first [Up] that fails while loading, the files being repaired,
    a second [Up] on the same runner, and a third. *)
Definition ex_first_up : Result unit * St :=
  Up toy_checksum (ex_runner false)
     (mkWorld [] 0 {[ "migrations"%string := ex_dir_first ]} [] ∅ [] None
              [] []).
Definition ex_second_up : Result unit * St :=
  Up toy_checksum (fst (snd ex_first_up))
     (with_disk {[ "migrations"%string := ex_dir_fixed ]}
                (snd (snd ex_first_up))).
Definition ex_third_up : Result unit * St :=
  Up toy_checksum (fst (snd ex_second_up)) (snd (snd ex_second_up)).

(** The lock is refused. *)
Definition ex_lock_refused : list Resp := [ fails_in "lock timeout" 1 ].

(** Lock, create, select; begin, script, commit for [users]; then the
    upsert of its row is refused. *)
Definition ex_record_fails : list Resp :=
  [ ok_in 1; ok_in 1; ok_in 1;
    ok_in 1; ok_in 7; ok_in 1; fails_in "connection lost" 1 ].

(** * Properties *)

(** Unfolds the runner methods and the session primitives, leaving the
    data (tables, strings, the oracle) folded. *)
Ltac reduce :=
  cbn [fst snd negb oracle clock disk held tables schema txn trace logs
       tx_tables tx_sql r_err r_dur Z.eqb Pos.eqb
       DB Opts migrations loaded with_migrations].

Ltac run :=
  cbv beta iota zeta delta
    [Up Down Up_body Down_body loadMigrations
     withLock release ensureTable loadApplied loadAppliedSuccess
     pendingUp record applyOne revertOne revert_finish log applyAll
     mbind M_bind mret M_ret fail attempt discard
     get_opts get_runner now stmt tick
     db_lock db_unlock db_create_table db_select db_upsert db_begin
     tx_exec tx_delete tx_commit tx_rollback
     set_tables set_held set_txn set_schema add_event add_log
     table_of key_of];
  reduce.

(** Splits on whatever the run is waiting for: the driver's next answer,
    a lookup, a test.  Only a scrutinee that contains no other pending
    case analysis is split, and a known value is used instead. *)
Ltac split_step :=
  match goal with
  | |- context [match ?x with _ => _ end] =>
      lazymatch x with
      | context [match _ with _ => _ end] => fail
      | _ => idtac
      end;
      first
        [ match goal with H : x = _ |- _ => rewrite H end
        | lazymatch x with
          | r_err ?r => is_var r; destruct r as [[?|] ?]
          | _ => first [is_var x; destruct x | destruct x eqn:?]
          end ]
  end;
  try match goal with
      | H : answers _ _ = true |- _ => cbn [answers r_err] in H
      end;
  try discriminate; reduce.

Ltac split_run := repeat split_step.

(** The same, trying [tac] before each split. *)
Ltac split_run_using tac :=
  repeat first [progress tac; reduce | split_step].

(** Closes [explained] and [surfaced] goals over an explicit trace. *)
Ltac explained_one :=
  unfold explained; cbn;
  try match goal with
      | |- match ?x with _ => _ end => destruct x
      end;
  first [ exact I
        | left; reflexivity
        | right; eexists; split; [reflexivity|]; cbn;
          first [assumption | reflexivity] ].

Ltac surfaced_list :=
  unfold surfaced;
  repeat (apply Forall_cons; split; [explained_one|]);
  apply List.Forall_nil.

(** Closes a goal that is a disjunction of cases, each an existential
    conjunction of equations and assumptions. *)
Ltac close_case :=
  solve [ repeat (first [eexists | split]);
          first [reflexivity | eassumption] ].

Ltac pick_case :=
  repeat match goal with
         | |- _ \/ _ => first [left; close_case | right]
         end;
  close_case.



(** ** Sorting *)

Lemma insert_by_perm {A} (less : A -> A -> bool) (x : A) (l : list A) :
  insert_by less x l ≡ₚ x :: l.
Proof.
  induction l as [|y l IH]; simpl; [done|].
  destruct (less y x); [|done].
  rewrite IH. apply Permutation_swap.
Qed.

Lemma sort_Slice_perm {A} (less : A -> A -> bool) (l : list A) :
  sort_Slice less l ≡ₚ l.
Proof.
  induction l as [|x l IH]; simpl; [done|].
  rewrite insert_by_perm. by rewrite IH.
Qed.

Lemma elem_of_sort_Slice {A} (less : A -> A -> bool) (l : list A) (x : A) :
  x ∈ sort_Slice less l <-> x ∈ l.
Proof. by rewrite sort_Slice_perm. Qed.

Section Sorted.

Context {A : Type} (less : A -> A -> bool).

Hypothesis less_asym : forall x y, less x y = true -> less y x = false.
Hypothesis not_after_trans :
  forall x y z, not_after less x y -> not_after less y z -> not_after less x z.

Lemma insert_by_sorted (x : A) (l : list A) :
  StronglySorted (not_after less) l -> StronglySorted (not_after less) (insert_by less x l).
Proof.
  induction 1 as [|y l Hs IH Hall]; simpl.
  - repeat constructor.
  - destruct (less y x) eqn:Hyx.
    + constructor; [exact IH|].
      apply Forall_forall. intros z Hz.
      rewrite insert_by_perm in Hz.
      apply elem_of_cons in Hz as [->|Hz].
      * apply less_asym, Hyx.
      * rewrite Forall_forall in Hall. apply Hall, Hz.
    + constructor; [by constructor|].
      constructor; [exact Hyx|].
      eapply Forall_impl; [exact Hall|].
      intros z Hz. simpl in Hz. eapply not_after_trans; [exact Hyx|exact Hz].
Qed.

Lemma sort_Slice_sorted (l : list A) :
  StronglySorted (not_after less) (sort_Slice less l).
Proof.
  induction l as [|x l IH]; simpl; [constructor|].
  by apply insert_by_sorted.
Qed.

Lemma filter_sorted (p : A -> bool) (l : list A) :
  StronglySorted (not_after less) l -> StronglySorted (not_after less) (List.filter p l).
Proof.
  induction 1 as [|y l Hs IH Hall]; simpl; [constructor|].
  destruct (p y); [|exact IH].
  constructor; [exact IH|].
  apply Forall_forall. intros z Hz.
  apply list_elem_of_In, filter_In in Hz as [Hz _].
  rewrite Forall_forall in Hall. by apply Hall, list_elem_of_In.
Qed.

Lemma last_sorted_max (l : list A) (x : A) :
  (forall y, less y y = false) ->
  StronglySorted (not_after less) l -> last l = Some x ->
  forall y, y ∈ l -> not_after less y x.
Proof.
  intros Hirr Hs. induction Hs as [|z l Hs IH Hall]; intros Hlast y Hy.
  - inversion Hy.
  - destruct l as [|z' l'].
    + simpl in Hlast. injection Hlast as <-.
      apply list_elem_of_singleton in Hy as ->. apply Hirr.
    + change (last (z :: z' :: l')) with (last (z' :: l')) in Hlast.
      apply elem_of_cons in Hy as [->|Hy].
      * rewrite Forall_forall in Hall. apply Hall.
        apply last_Some_elem_of in Hlast. exact Hlast.
      * by apply IH.
Qed.

End Sorted.

(** ** Reading the tracking table *)

Lemma elem_of_select_rows (tbl : Table) (a : appliedRow) :
  a ∈ select_rows tbl <->
  exists d, tbl !! a_Version a = Some d /\ a = row_of (a_Version a, d).
Proof.
  unfold select_rows. rewrite elem_of_sort_Slice, list_elem_of_fmap. split.
  - intros [[v d] [-> Hin]]. apply elem_of_map_to_list in Hin.
    exists d. simpl. split; [exact Hin|reflexivity].
  - intros [d [Hd Ha]]. exists (a_Version a, d). split; [exact Ha|].
    by apply elem_of_map_to_list.
Qed.

Lemma select_rows_versions (tbl : Table) :
  NoDup (a_Version <$> select_rows tbl).
Proof.
  unfold select_rows. rewrite sort_Slice_perm, <- list_fmap_compose.
  apply (NoDup_fst_map_to_list tbl).
Qed.

Lemma appliedSet_snoc (l : list appliedRow) (x : appliedRow) :
  appliedSet (l ++ [x])
  = if a_Success x then <[a_Version x := x]> (appliedSet l) else appliedSet l.
Proof. unfold appliedSet. by rewrite fold_left_app. Qed.

Lemma appliedSet_lookup (l : list appliedRow) (v : Z) (a : appliedRow) :
  NoDup (a_Version <$> l) ->
  appliedSet l !! v = Some a <->
  a ∈ l /\ a_Version a = v /\ a_Success a = true.
Proof.
  induction l as [|x l IH] using rev_ind; intros Hnd.
  - unfold appliedSet. simpl. rewrite lookup_empty. split; [done|].
    intros [H _]. inversion H.
  - rewrite fmap_app in Hnd. apply NoDup_app in Hnd as (Hnd & Hfresh & _).
    specialize (IH Hnd). rewrite appliedSet_snoc, elem_of_app, list_elem_of_singleton.
    assert (Hx : forall b, b ∈ l -> a_Version b <> a_Version x).
    { intros b Hb Heq. apply (Hfresh (a_Version b)).
      - by apply list_elem_of_fmap_2.
      - rewrite Heq. simpl. apply list_elem_of_singleton. reflexivity. }
    destruct (a_Success x) eqn:Hsx.
    + destruct (decide (a_Version x = v)) as [<-|Hne].
      * rewrite lookup_insert_eq. split.
        -- intros [= <-]. auto.
        -- intros [[Hin| ->] [Hv _]]; [|done]. by apply Hx in Hin.
      * rewrite lookup_insert_ne by done. rewrite IH. split.
        -- intros (? & ? & ?). auto.
        -- intros [[Hin| ->] [Hv Hs]]; [auto|done].
    + rewrite IH. split.
      * intros (? & ? & ?). auto.
      * intros [[Hin| ->] [Hv Hs]]; [auto|congruence].
Qed.

(** The set [pendingUp] builds from what [loadApplied] read is exactly
    the [success=true] rows of the table. *)
Lemma appliedSet_select (tbl : Table) (v : Z) (a : appliedRow) :
  appliedSet (select_rows tbl) !! v = Some a <->
  exists d, tbl !! v = Some d /\ d_Success d = true /\ a = row_of (v, d).
Proof.
  rewrite appliedSet_lookup by apply select_rows_versions.
  rewrite elem_of_select_rows. split.
  - intros [[d [Hd Ha]] [<- Hs]]. exists d. repeat split; [done| |done].
    rewrite Ha in Hs. exact Hs.
  - intros [d (Hd & Hs & ->)]. simpl. repeat split; [|done].
    exists d. done.
Qed.

(** ** [pendingUp] *)

Lemma pendingUp_loop_Ok set ms acc pending :
  pendingUp_loop set ms acc = Ok pending ->
  pending = acc ++ List.filter (waiting set) ms
  /\ forall m, m ∈ ms -> ~ drifted set m.
Proof.
  revert acc. induction ms as [|m ms IH]; intros acc H; simpl in H.
  - injection H as <-. simpl. rewrite app_nil_r. split; [done|].
    intros m Hm. inversion Hm.
  - simpl. unfold waiting at 1, is_up.
    destruct (String.eqb (m_Dir m) "up") eqn:Hup; simpl in *.
    + destruct (set !! m_Version m) as [a|] eqn:Hset.
      * destruct (String.eqb (a_Checksum a) (m_Checksum m)) eqn:Hck;
          simpl in H; [|discriminate].
        apply IH in H as [-> Hno]. split; [done|].
        intros m' [->|Hm']%elem_of_cons; [|by apply Hno].
        intros [_ [a' [Ha' Hne]]]. rewrite Hset in Ha'. injection Ha' as <-.
        by apply String.eqb_eq in Hck.
      * apply IH in H as [-> Hno]. rewrite <- app_assoc. split; [done|].
        intros m' [->|Hm']%elem_of_cons; [|by apply Hno].
        intros [_ [a' [Ha' _]]]. congruence.
    + apply IH in H as [-> Hno]. split; [done|].
      intros m' [->|Hm']%elem_of_cons; [|by apply Hno].
      intros [Hu _]. unfold is_up in Hu. congruence.
Qed.

Lemma pendingUp_loop_no_Fail set ms acc e :
  pendingUp_loop set ms acc <> Fail e.
Proof.
  revert acc. induction ms as [|m ms IH]; intros acc; simpl; [done|].
  repeat case_match; try done; apply IH.
Qed.

Lemma pendingUp_loop_Panic set ms acc msg :
  pendingUp_loop set ms acc = Panic msg ->
  exists m a, m ∈ ms /\ is_up m = true /\ set !! m_Version m = Some a
    /\ a_Checksum a <> m_Checksum m /\ msg = mismatch_msg m a.
Proof.
  revert acc. induction ms as [|m ms IH]; intros acc H; simpl in H; [done|].
  destruct (String.eqb (m_Dir m) "up") eqn:Hup; simpl in H.
  - destruct (set !! m_Version m) as [a|] eqn:Hset.
    + destruct (String.eqb (a_Checksum a) (m_Checksum m)) eqn:Hck; simpl in H.
      * apply IH in H as (m' & a' & Hin & ?). exists m', a'.
        split; [by apply elem_of_cons; right|done].
      * injection H as <-. exists m, a. apply String.eqb_neq in Hck.
        split; [by apply elem_of_cons; left|done].
    + apply IH in H as (m' & a' & Hin & ?). exists m', a'.
      split; [by apply elem_of_cons; right|done].
  - apply IH in H as (m' & a' & Hin & ?). exists m', a'.
    split; [by apply elem_of_cons; right|done].
Qed.

(** A drifted script makes the loop panic, whatever else is loaded. *)
Lemma pendingUp_loop_drift set ms acc m :
  m ∈ ms -> drifted set m ->
  exists msg, pendingUp_loop set ms acc = Panic msg.
Proof.
  intros Hin Hd.
  destruct (pendingUp_loop set ms acc) as [p|e|msg] eqn:E.
  - apply pendingUp_loop_Ok in E as [_ Hno]. by destruct (Hno m Hin).
  - by destruct (pendingUp_loop_no_Fail set ms acc e).
  - by exists msg.
Qed.

Lemma filter_success_nil (tbl : Table) :
  (forall v d, tbl !! v = Some d -> d_Success d = false) ->
  List.filter a_Success (select_rows tbl) = [].
Proof.
  intros H. destruct (List.filter a_Success (select_rows tbl)) as [|a l] eqn:E;
    [done|].
  assert (Ha : In a (List.filter a_Success (select_rows tbl)))
    by (rewrite E; left; reflexivity).
  apply filter_In in Ha as [Hin Hs]. apply list_elem_of_In in Hin.
  apply elem_of_select_rows in Hin as [d [Hd Ha]].
  apply H in Hd. rewrite Ha in Hs. simpl in Hs. congruence.
Qed.

Lemma select_rows_empty : select_rows ∅ = [].
Proof. unfold select_rows. by rewrite map_to_list_empty. Qed.

Lemma pendingUp_pure_drift (ms : list Migration) (tbl : Table)
    (m : Migration) (d : RowData) :
  m ∈ ms -> m_Dir m = "up"%string ->
  tbl !! m_Version m = Some d -> d_Success d = true ->
  d_Checksum d <> m_Checksum m ->
  exists m0 d0,
    pendingUp_pure ms (select_rows tbl)
      = Panic (mismatch_msg m0 (row_of (m_Version m0, d0)))
    /\ m0 ∈ ms /\ m_Dir m0 = "up"%string
    /\ tbl !! m_Version m0 = Some d0 /\ d_Success d0 = true
    /\ d_Checksum d0 <> m_Checksum m0.
Proof.
  intros Hin Hup Hd Hs Hne. unfold pendingUp_pure.
  destruct (pendingUp_loop_drift (appliedSet (select_rows tbl)) ms [] m Hin)
    as [msg Hp].
  { split; [unfold is_up; by apply String.eqb_eq|].
    exists (row_of (m_Version m, d)). split; [|done].
    apply appliedSet_select. eauto. }
  rewrite Hp. apply pendingUp_loop_Panic in Hp
    as (m0 & a0 & Hin0 & Hup0 & Hset & Hne0 & ->).
  apply appliedSet_select in Hset as (d0 & Hd0 & Hs0 & ->).
  exists m0, d0. repeat split; try done.
  by apply String.eqb_eq.
Qed.

(** ** The order of [loadApplied] *)

Lemma applied_less_irrefl (a : appliedRow) : applied_less a a = false.
Proof. unfold applied_less. rewrite Z.eqb_refl. apply Z.ltb_irrefl. Qed.

Lemma applied_less_false (a b : appliedRow) :
  applied_less b a = false <->
  applied_le (a_AppliedAt a) (a_Version a) (a_AppliedAt b) (a_Version b).
Proof.
  unfold applied_less, applied_le.
  destruct (Z.eqb_spec (a_AppliedAt b) (a_AppliedAt a)) as [E|E].
  - rewrite Z.ltb_ge. lia.
  - rewrite Z.ltb_ge. lia.
Qed.

Lemma applied_less_asym (a b : appliedRow) :
  applied_less a b = true -> applied_less b a = false.
Proof.
  intros H. apply applied_less_false. unfold applied_less, applied_le in *.
  destruct (Z.eqb_spec (a_AppliedAt a) (a_AppliedAt b)) as [E|E];
    apply Z.ltb_lt in H; lia.
Qed.

Lemma applied_not_after_trans (a b c : appliedRow) :
  not_after applied_less a b -> not_after applied_less b c ->
  not_after applied_less a c.
Proof.
  unfold not_after. rewrite !applied_less_false. unfold applied_le. lia.
Qed.

Lemma last_is_Some {A} (l : list A) : l <> [] -> exists x, last l = Some x.
Proof.
  destruct (last l) as [x|] eqn:E; [eauto|].
  apply last_None in E. done.
Qed.

(** The row [Down] picks: a [success=true] row after which, in the order
    (applied_at, version), no other [success=true] row comes. *)
Lemma latest_success (tbl : Table) :
  (exists v d, tbl !! v = Some d /\ d_Success d = true) ->
  exists v d,
    last (List.filter a_Success (select_rows tbl)) = Some (row_of (v, d))
    /\ tbl !! v = Some d /\ d_Success d = true
    /\ forall v' d', tbl !! v' = Some d' -> d_Success d' = true ->
         applied_le (d_AppliedAt d') v' (d_AppliedAt d) v.
Proof.
  intros (v0 & d0 & Hd0 & Hs0).
  assert (Hin0 : row_of (v0, d0) ∈ List.filter a_Success (select_rows tbl)).
  { apply list_elem_of_In, filter_In. split; [|exact Hs0].
    apply list_elem_of_In, elem_of_select_rows. exists d0. done. }
  destruct (last_is_Some (List.filter a_Success (select_rows tbl))) as [a Hlast].
  { intros E. rewrite E in Hin0. inversion Hin0. }
  pose proof (last_Some_elem_of _ _ Hlast) as Hin.
  apply list_elem_of_In, filter_In in Hin as [Hin Hs].
  apply list_elem_of_In, elem_of_select_rows in Hin as [d [Hd Ha]].
  exists (a_Version a), d. rewrite <- Ha. split; [exact Hlast|].
  split; [exact Hd|]. split; [by rewrite Ha in Hs|].
  intros v' d' Hd' Hs'.
  assert (Hin' : row_of (v', d') ∈ List.filter a_Success (select_rows tbl)).
  { apply list_elem_of_In, filter_In. split; [|exact Hs'].
    apply list_elem_of_In, elem_of_select_rows. exists d'. done. }
  pose proof (last_sorted_max applied_less _ a applied_less_irrefl
                (filter_sorted applied_less a_Success _
                   (sort_Slice_sorted applied_less applied_less_asym
                      applied_not_after_trans _))
                Hlast _ Hin') as Hmax.
  unfold not_after in Hmax. apply applied_less_false in Hmax.
  rewrite Ha in Hmax. exact Hmax.
Qed.

Lemma find_Some (ms : list Migration) (v : Z) (dir : string) (m : Migration) :
  find ms v dir = Some m -> m ∈ ms /\ m_Version m = v /\ m_Dir m = dir.
Proof.
  unfold find. intros H. apply find_some in H as [Hin Hb].
  apply andb_true_iff in Hb as [Hv Hd].
  apply Z.eqb_eq in Hv. apply String.eqb_eq in Hd.
  split; [by apply list_elem_of_In|done].
Qed.

Lemma pendingUp_loop_applied set ms acc :
  (forall m, m ∈ ms -> is_up m = true ->
     exists a, set !! m_Version m = Some a /\ a_Checksum a = m_Checksum m) ->
  pendingUp_loop set ms acc = Ok acc.
Proof.
  induction ms as [|m ms IH]; intros H; simpl; [done|].
  assert (IH' : pendingUp_loop set ms acc = Ok acc).
  { apply IH. intros m' Hm'. apply H. by apply elem_of_cons; right. }
  destruct (String.eqb (m_Dir m) "up") eqn:Hup; simpl; [|exact IH'].
  destruct (H m) as (a & -> & Hck); [by apply elem_of_cons; left|exact Hup|].
  rewrite Hck, String.eqb_refl. exact IH'.
Qed.

Lemma registry_ok_up_versions (ms : list Migration) (m1 m2 : Migration) :
  registry_ok ms -> m1 ∈ ms -> m2 ∈ ms ->
  m_Version m1 = m_Version m2 -> m_Dir m1 = m_Dir m2 -> m1 = m2.
Proof.
  unfold registry_ok. intros Hnd H1 H2 Hv Hd.
  assert (Hk : mig_key m1 = mig_key m2) by (unfold mig_key; congruence).
  clear Hv Hd. induction ms as [|m ms IH]; [inversion H1|].
  simpl in Hnd. apply NoDup_cons in Hnd as [Hfresh Hnd].
  apply elem_of_cons in H1 as [->|H1]; apply elem_of_cons in H2 as [->|H2].
  - reflexivity.
  - destruct Hfresh. rewrite Hk. by apply list_elem_of_fmap_2.
  - destruct Hfresh. rewrite <- Hk. by apply list_elem_of_fmap_2.
  - by apply IH.
Qed.

Lemma applied_to_nil (tbl : Table) : applied_to [] tbl tbl.
Proof. split; [done|]. intros m Hm. inversion Hm. Qed.

Lemma applied_to_cons (m : Migration) (rest : list Migration)
    (tbl tbl' : Table) (at_ ms : Z) :
  applied_to rest
    (<[m_Version m := mkData (m_Name m) (m_Checksum m) at_ ms true]> tbl) tbl' ->
  applied_to (m :: rest) tbl tbl'.
Proof.
  intros [Hother Hrows]. split.
  - intros v Hv. rewrite Hother.
    + apply lookup_insert_ne. apply Hv. by apply elem_of_cons; left.
    + intros m' Hm'. apply Hv. by apply elem_of_cons; right.
  - assert (Hrest : forall m0, m0 ∈ rest ->
              exists d m', tbl' !! m_Version m0 = Some d /\ d_Success d = true
                /\ m' ∈ m :: rest /\ m_Version m' = m_Version m0
                /\ d_Checksum d = m_Checksum m').
    { intros m0 Hm0. destruct (Hrows m0 Hm0) as (d & m' & ? & ? & ? & ? & ?).
      exists d, m'. repeat split; try done. by apply elem_of_cons; right. }
    intros m0 [->|Hm0]%elem_of_cons; [|by apply Hrest].
    destruct (decide (Exists (fun m' => m_Version m' = m_Version m) rest))
      as [Hex|Hno].
    + apply Exists_exists in Hex as (m2 & Hm2 & Hv2).
      destruct (Hrest m2 Hm2) as (d & m' & Hd & ? & ? & ? & ?).
      exists d, m'. rewrite <- Hv2. repeat split; done.
    + rewrite Hother.
      * rewrite lookup_insert_eq. eexists _, m. repeat split; try done.
        by apply elem_of_cons; left.
      * intros m' Hm' Hv'. apply Hno, Exists_exists. eauto.
Qed.

(** ** Aggregating the roots *)

Lemma aggregate_app (l l' : list FS) (all : list (FS * string)) :
  aggregate (l ++ l') = Ok all ->
  exists a b, aggregate l = Ok a /\ aggregate l' = Ok b /\ all = a ++ b.
Proof.
  revert all. induction l as [|root l IH]; intros all H; simpl in *.
  - exists [], all. done.
  - destruct root as [ents|]; [|discriminate].
    destruct (aggregate (l ++ l')) as [more| |] eqn:E; try discriminate.
    injection H as <-. destruct (IH more eq_refl) as (a & b & -> & Hb & ->).
    eexists _, b. split; [reflexivity|]. split; [exact Hb|].
    by rewrite app_assoc.
Qed.

Lemma aggregate_cons_elem (ents : list DirEntry) (rest : list FS)
    (all : list (FS * string)) (e : DirEntry) :
  aggregate (Some ents :: rest) = Ok all ->
  e ∈ ents -> e_IsDir e = false ->
  exists l1 l2 more,
    aggregate rest = Ok more
    /\ all = l1 ++ (Some ents, e_Name e) :: l2 ++ more.
Proof.
  simpl. intros H Hin Hdir.
  destruct (aggregate rest) as [more| |]; try discriminate. injection H as <-.
  match goal with
  | |- context [map ?f ?l ++ more] =>
      assert (Hf : (Some ents, e_Name e) ∈ map f l)
  end.
  { apply list_elem_of_In, in_map_iff. exists e. split; [done|].
    apply filter_In. split; [by apply list_elem_of_In|by rewrite Hdir]. }
  apply list_elem_of_split in Hf as (l1 & l2 & Hf).
  exists l1, l2, more. split; [done|]. by rewrite Hf, <- app_assoc.
Qed.

Section Properties.

Variable checksum : string -> string.

(** C9. A runner built by [New] has the table name ["schema_migrations"]
    when the configured one is empty and the lock key 913551337114213777
    when the configured one is 0, and keeps the configured values
    otherwise; so its table name is never empty and its lock key never 0. *)
Theorem New_defaults (db : sqlDB) (opts : Options) :
  TableName (Opts (New db opts))
    = (if String.eqb (TableName opts) "" then "schema_migrations"%string
       else TableName opts)
  /\ LockKey (Opts (New db opts))
    = (if Z.eqb (LockKey opts) 0 then 913551337114213777 else LockKey opts)
  /\ TableName (Opts (New db opts)) <> ""%string
  /\ LockKey (Opts (New db opts)) <> 0.
Proof.
  unfold New, defaultTable, defaultLock.
  destruct (String.eqb (TableName opts) "") eqn:Ht;
    destruct (Z.eqb (LockKey opts) 0) eqn:Hk; simpl; rewrite ?Hk; simpl;
    repeat split; try discriminate; try reflexivity.
  all: try (apply String.eqb_neq; exact Ht).
  all: try (apply Z.eqb_neq; exact Hk).
Qed.

(** C6. While [AllowDangerousDown] is off, [Down] returns the fixed
    "down is disabled" error and leaves the runner and the whole session
    as they were: no statement is sent, so no lock is taken, no table is
    created and no row changes. *)
Theorem Down_disabled (r : Runner) (w : World) :
  AllowDangerousDown (Opts r) = false ->
  Down checksum r w = (Fail ErrDownDisabled, (r, w)).
Proof.
  intros H. unfold Down. rewrite H. reflexivity.
Qed.


Lemma loadMigrations_pure_Opts (r : Runner) dsk :
  Opts (snd (loadMigrations_pure checksum r dsk)) = Opts r.
Proof.
  unfold loadMigrations_pure. repeat case_match; reflexivity.
Qed.

(** C10. With reverting enabled and no [success=true] row in the
    tracking table, [Down] returns nil once the lock, the table and the
    rows were obtained and the scripts loaded: it sends the lock, the
    CREATE TABLE IF NOT EXISTS, the SELECT and the unlock, and nothing
    else; no script runs and no row is deleted. *)
Theorem Down_nothing_to_revert (r r1 : Runner) (w : World) :
  AllowDangerousDown (Opts r) = true ->
  loadMigrations_pure checksum r (disk w) = (None, r1) ->
  answers 3 (oracle w) = true ->
  (forall tbl v d, tables w !! table_of r = Some tbl ->
                   tbl !! v = Some d -> d_Success d = false) ->
  exists w' ul,
    Down checksum r w = (Ok tt, (r1, w'))
    /\ trace w' = trace w ++ [ev_ok (SLock (key_of r));
                              ev_ok (SCreateTable (table_of r));
                              ev_ok (SSelect (table_of r));
                              mkEvent (SUnlock (key_of r)) ul]
    /\ schema w' = schema w
    /\ tables w' = match tables w !! table_of r with
                   | Some _ => tables w
                   | None => <[table_of r := ∅]> (tables w)
                   end.
Proof.
  intros Hen Hload Hans Hrows.
  pose proof (loadMigrations_pure_Opts r (disk w)) as Hopts.
  rewrite Hload in Hopts. destruct r1 as [db1 o1 ms1 l1]. simpl in Hopts. subst o1.
  destruct w as [o c dk h tb sc tx tr lg]. cbn [oracle disk tables] in *.
  unfold table_of in Hrows.
  run. rewrite Hen. reduce.
  split_run_using
    ltac:(first [ rewrite lookup_insert_eq
                | rewrite select_rows_empty
                | rewrite filter_success_nil by eauto ]; cbn [List.filter last]).
  all: eexists _, _; split; [reflexivity|]; reduce;
       rewrite <- ?app_assoc; repeat split; reflexivity.
Qed.

(** C1 (as the code has it). When a version has a [success=true] row
    whose checksum differs from that of the loaded Up script of that
    version, [Up] never returns nil, applies no script and writes no
    row.  Once the lock, the table and the rows were obtained it ends in
    a panic carrying the "checksum mismatch" message of a drifted
    script, after the deferred unlock; a statement that fails before
    that point makes it return that statement's error instead. *)
Theorem Up_drift_panics (r r1 : Runner) (w : World) (tbl : Table)
    (m : Migration) (d : RowData) :
  loadMigrations_pure checksum r (disk w) = (None, r1) ->
  m ∈ migrations r1 -> m_Dir m = "up"%string ->
  tables w !! table_of r = Some tbl ->
  tbl !! m_Version m = Some d -> d_Success d = true ->
  d_Checksum d <> m_Checksum m ->
  exists res r' w',
    Up checksum r w = (res, (r', w'))
    /\ res <> Ok tt
    /\ tables w' = tables w /\ schema w' = schema w
    /\ (answers 3 (oracle w) = true ->
        exists m0 d0 ul,
          res = Panic (mismatch_msg m0 (row_of (m_Version m0, d0)))
          /\ r' = r1
          /\ m0 ∈ migrations r1 /\ m_Dir m0 = "up"%string
          /\ tbl !! m_Version m0 = Some d0 /\ d_Success d0 = true
          /\ d_Checksum d0 <> m_Checksum m0
          /\ trace w' = trace w ++ [ev_ok (SLock (key_of r));
                                    ev_ok (SCreateTable (table_of r));
                                    ev_ok (SSelect (table_of r));
                                    mkEvent (SUnlock (key_of r)) ul]).
Proof.
  intros Hload Hin Hup Htb Hd Hs Hne.
  destruct (pendingUp_pure_drift (migrations r1) tbl m d Hin Hup Hd Hs Hne)
    as (m0 & d0 & Hp & Hin0 & Hup0 & Hd0 & Hs0 & Hne0).
  pose proof (loadMigrations_pure_Opts r (disk w)) as Hopts.
  rewrite Hload in Hopts. destruct r1 as [db1 o1 ms1 l1]. simpl in Hopts. subst o1.
  destruct w as [o c dk h tb sc tx tr lg]. cbn [oracle disk tables migrations] in *.
  unfold table_of in Htb.
  run. split_run.
  all: eexists _, _, _; split; [reflexivity|]; reduce.
  all: split; [discriminate|]; split; [reflexivity|]; split; [reflexivity|].
  all: intros Hans; cbn [answers r_err] in Hans; try discriminate.
  all: exists m0, d0; eexists; rewrite <- ?app_assoc; repeat split; try done.
Qed.

(** ** What [Up] and [Down] do before their own work *)

(** Both take the lock, ensure the table, load the scripts and read the
    rows; when the driver accepts these three statements and loading
    succeeds, what follows ([K]) runs on the rows read, and the unlock
    comes last. *)
Lemma locked_reads (K : list appliedRow -> M unit) (r r1 : Runner) (w : World) :
  loadMigrations_pure checksum r (disk w) = (None, r1) ->
  answers 3 (oracle w) = true ->
  withLock (_ ← ensureTable; _ ← loadMigrations checksum;
            applied ← loadApplied; K applied) (r, w)
  = release (K (select_rows (rows_at (tables w) (table_of r)))
               (r1, after_reads r w)).
Proof.
  intros Hload Hans.
  pose proof (loadMigrations_pure_Opts r (disk w)) as Hopts.
  rewrite Hload in Hopts. destruct r1 as [db1 o1 ms1 l1]. simpl in Hopts. subst o1.
  destruct w as [o c dk h tb sc tx tr lg]. cbn [oracle disk tables] in *.
  unfold after_reads, rows_at.
  cbv beta iota zeta delta
    [withLock ensureTable loadApplied loadMigrations
     mbind M_bind mret M_ret get_opts stmt tick
     db_lock db_create_table db_select
     set_tables set_held add_event table_of key_of].
  reduce.
  split_run_using ltac:(rewrite lookup_insert_eq).
  all: try reflexivity.
  all: try (rewrite lookup_insert_eq in *; congruence).
Qed.

Lemma after_reads_frame (r : Runner) (w : World) :
  answers 3 (oracle w) = true ->
  let w3 := after_reads r w in
  trace w3 = trace w ++ [ev_ok (SLock (key_of r));
                         ev_ok (SCreateTable (table_of r));
                         ev_ok (SSelect (table_of r))]
  /\ schema w3 = schema w
  /\ tables w3 = <[table_of r := rows_at (tables w) (table_of r)]> (tables w)
  /\ oracle w3 = drop 3 (oracle w)
  /\ disk w3 = disk w
  /\ logs w3 = logs w.
Proof.
  intros Hans. destruct w as [o c dk h tb sc tx tr lg].
  cbn [oracle disk tables] in *. unfold after_reads, rows_at.
  run. split_run_using ltac:(rewrite lookup_insert_eq).
  all: rewrite <- ?app_assoc; repeat split; try reflexivity.
  all: try (symmetry; by apply insert_id).
  all: try (rewrite lookup_insert_eq in *; congruence).
Qed.

Lemma withLock_ext (f g : M unit) (s : St) :
  (forall s', f s' = g s') -> withLock f s = withLock g s.
Proof.
  intros H. unfold withLock. destruct (db_lock _ s) as [[[]|e|p] s1]; try done.
  by rewrite H.
Qed.

Lemma release_frame (res : Result unit) (r : Runner) (w : World) :
  exists w' ul,
    release (res, (r, w)) = (res, (r, w'))
    /\ trace w' = trace w ++ [mkEvent (SUnlock (key_of r)) ul]
    /\ tables w' = tables w /\ schema w' = schema w.
Proof.
  destruct w as [o c dk h tb sc tx tr lg]. run. split_run.
  all: eexists _, _; repeat split.
Qed.

Lemma Up_run (r r1 : Runner) (w : World) :
  loadMigrations_pure checksum r (disk w) = (None, r1) ->
  answers 3 (oracle w) = true ->
  Up checksum r w
  = release (Up_tail (select_rows (rows_at (tables w) (table_of r)))
                     (r1, after_reads r w)).
Proof.
  intros Hload Hans. unfold Up.
  exact (locked_reads Up_tail r r1 w Hload Hans).
Qed.

Lemma Down_run (r r1 : Runner) (w : World) :
  AllowDangerousDown (Opts r) = true ->
  loadMigrations_pure checksum r (disk w) = (None, r1) ->
  answers 3 (oracle w) = true ->
  Down checksum r w
  = release (Down_tail
               (List.filter a_Success
                  (select_rows (rows_at (tables w) (table_of r))))
               (r1, after_reads r w)).
Proof.
  intros Hen Hload Hans. unfold Down. rewrite Hen. simpl.
  rewrite <- (locked_reads (fun a => Down_tail (List.filter a_Success a))
                r r1 w Hload Hans).
  apply withLock_ext. intros s.
  unfold Down_body, Down_tail, loadAppliedSuccess, mbind, M_bind, mret, M_ret.
  destruct (ensureTable s) as [[[]|e|p] s1]; try done.
  destruct (loadMigrations checksum s1) as [[[]|e|p] s2]; try done.
  destruct (loadApplied s2) as [[a|e|p] s3]; done.
Qed.

Lemma rows_at_Some (tb : Tables) (t : string) (tbl : Table) :
  tb !! t = Some tbl -> rows_at tb t = tbl.
Proof. unfold rows_at. by intros ->. Qed.

(** C2 (as the code has it). With reverting enabled and a
    [success=true] row present, [Down] picks the [success=true] row that
    comes last in the order (applied_at, version): the one applied most
    recently, the greater version deciding between equal times.  The
    Down script is looked up by that row's version.  When none is
    loaded, [Down] returns "no down migration" for that version and
    name, with tables and schema untouched and no statement sent between
    the SELECT and the unlock; otherwise it reverts with that script. *)
Theorem Down_reverts_latest_applied (r r1 : Runner) (w : World) (tbl : Table) :
  AllowDangerousDown (Opts r) = true ->
  loadMigrations_pure checksum r (disk w) = (None, r1) ->
  answers 3 (oracle w) = true ->
  tables w !! table_of r = Some tbl ->
  (exists v d, tbl !! v = Some d /\ d_Success d = true) ->
  exists v d,
    tbl !! v = Some d /\ d_Success d = true
    /\ (forall v' d', tbl !! v' = Some d' -> d_Success d' = true ->
          applied_le (d_AppliedAt d') v' (d_AppliedAt d) v)
    /\ match find (migrations r1) v "down" with
       | None =>
           exists w' ul,
             Down checksum r w = (Fail (ErrNoDown v (d_Name d)), (r1, w'))
             /\ tables w' = tables w /\ schema w' = schema w
             /\ trace w' = trace w ++ [ev_ok (SLock (key_of r));
                                       ev_ok (SCreateTable (table_of r));
                                       ev_ok (SSelect (table_of r));
                                       mkEvent (SUnlock (key_of r)) ul]
       | Some down =>
           m_Version down = v /\ m_Dir down = "down"%string
           /\ Down checksum r w
              = release (revertOne down (r1, after_reads r w))
       end.
Proof.
  intros Hen Hload Hans Htb Hex.
  destruct (latest_success tbl Hex) as (v & d & Hlast & Hd & Hs & Hmax).
  exists v, d. do 3 (split; [done|]).
  rewrite (Down_run r r1 w Hen Hload Hans), (rows_at_Some _ _ _ Htb).
  pose proof (loadMigrations_pure_Opts r (disk w)) as Hopts.
  rewrite Hload in Hopts. simpl in Hopts.
  destruct (after_reads_frame r w Hans) as (Htr & Hsc & Htbs & _).
  rewrite (rows_at_Some _ _ _ Htb), (insert_id _ _ _ Htb) in Htbs.
  assert (Htail : Down_tail (List.filter a_Success (select_rows tbl))
                    (r1, after_reads r w)
                  = match find (migrations r1) v "down" with
                    | None => (Fail (ErrNoDown v (d_Name d)),
                               (r1, after_reads r w))
                    | Some down => revertOne down (r1, after_reads r w)
                    end).
  { unfold Down_tail. rewrite Hlast.
    cbv beta iota delta [mbind M_bind get_runner fail fst].
    cbn [a_Version a_Name row_of fst snd d_Name].
    by destruct (find (migrations r1) v "down"). }
  rewrite Htail.
  destruct (find (migrations r1) v "down") as [down|] eqn:Hfind.
  - apply find_Some in Hfind as (_ & Hv & Hdir). done.
  - destruct (release_frame (Fail (ErrNoDown v (d_Name d))) r1 (after_reads r w))
      as (w' & ul & Hrel & Htr' & Htb' & Hsc').
    exists w', ul.
    split; [exact Hrel|]. split; [congruence|]. split; [congruence|].
    rewrite Htr', Htr, <- app_assoc. unfold key_of. rewrite Hopts. reflexivity.
Qed.

(** ** [applyOne] *)

(** Every way [applyOne] can go: the statements it sends, what it
    returns, and what it leaves in the tables and the schema. *)
Lemma applyOne_shape (m : Migration) (r : Runner) (w : World) :
  exists tr res w' ms,
    applyOne m (r, w) = (res, (r, w')) /\ trace w' = trace w ++ tr /\
    ( (exists e, tr = [ev_fail SBegin e] /\ res = Fail e
          /\ tables w' = tables w /\ schema w' = schema w
          /\ root_cause e = e)
    \/ (exists e rb ue,
          tr = [ev_ok SBegin; ev_fail (SExec (m_SQL m)) e;
                mkEvent SRollback rb; mkEvent (record_stmt r m ms false) ue]
          /\ res = Fail (ErrMigrationFailed (m_Version m) e)
          /\ schema w' = schema w
          /\ best_effort r m ms ue (tables w) (tables w')
          /\ root_cause e = e)
    \/ (exists e ue,
          tr = [ev_ok SBegin; ev_ok (SExec (m_SQL m)); ev_fail SCommit e;
                mkEvent (record_stmt r m ms false) ue]
          /\ res = Fail e
          /\ schema w' = schema w
          /\ best_effort r m ms ue (tables w) (tables w')
          /\ root_cause e = e)
    \/ (exists e,
          tr = [ev_ok SBegin; ev_ok (SExec (m_SQL m)); ev_ok SCommit;
                ev_fail (record_stmt r m ms true) e]
          /\ res = Fail e
          /\ schema w' = schema w ++ [m_SQL m]
          /\ tables w' = tables w
          /\ root_cause e = e)
    \/ (exists at_,
          tr = [ev_ok SBegin; ev_ok (SExec (m_SQL m)); ev_ok SCommit;
                ev_ok (record_stmt r m ms true)]
          /\ res = Ok tt
          /\ schema w' = schema w ++ [m_SQL m]
          /\ recorded r m at_ ms true (tables w) (tables w')) ).
Proof.
  destruct w as [o c dk h tb sc tx tr lg]. unfold best_effort, recorded, record_stmt.
  run. split_run.
  all: eexists _, _, _, _; split; [reflexivity|];
       split; [cbn; rewrite <- ?app_assoc; reflexivity|]; cbn.
  all: pick_case.
  Unshelve. all: exact 0.
Qed.

(** When the driver accepts the BEGIN and refuses the script. *)
Lemma applyOne_exec_fails (m : Migration) (r : Runner) (w : World)
    (d0 d1 : Z) (msg : string) (rest : list Resp) :
  oracle w = mkResp None d0 :: mkResp (Some msg) d1 :: rest ->
  exists w' rb ue,
    applyOne m (r, w)
      = (Fail (ErrMigrationFailed (m_Version m) (DBError msg)), (r, w'))
    /\ trace w' = trace w ++
         [ev_ok SBegin; ev_fail (SExec (m_SQL m)) (DBError msg);
          mkEvent SRollback rb;
          mkEvent (record_stmt r m (Milliseconds d1) false) ue]
    /\ schema w' = schema w
    /\ best_effort r m (Milliseconds d1) ue (tables w) (tables w').
Proof.
  destruct w as [o c dk h tb sc tx tr lg]. cbn [oracle tables schema trace].
  intros ->. unfold best_effort, recorded, record_stmt.
  run. split_run. all: rewrite !Z.add_simpl_l.
  all: eexists _, _, _; split; [reflexivity|];
       split; [cbn; rewrite <- ?app_assoc; reflexivity|]; cbn.
  all: split; [reflexivity|]; first [reflexivity | eauto].
Qed.

Lemma applyAll_app (pre rest : list Migration) (s : St) :
  applyAll (pre ++ rest) s = (_ ← applyAll pre; applyAll rest) s.
Proof.
  revert s. induction pre as [|m pre IH]; intros s; simpl.
  - reflexivity.
  - unfold mbind, M_bind in *. destruct (applyOne m s) as [[[]|e|p] s1]; try done.
Qed.

(** C4 (as the code has it). [Up] has a pending batch [pre ++ m :: post],
    the scripts of [pre] went through, and the driver now accepts the
    BEGIN for [m] and refuses its script.  Then [Up] sends a ROLLBACK and
    the upsert of a [success=false] row for [m] carrying the time the
    script took, in milliseconds, then the unlock, and returns
    "migration failed" wrapping the script's error.  Nothing of [post] is
    sent.  The schema is as [pre] left it; the row of [m] is in the table
    when the upsert was accepted, and when the upsert is refused too its
    error is dropped and the table stays as [pre] left it. *)
Theorem Up_fails_fast (r r1 : Runner) (w w1 : World)
    (pre post : list Migration) (m : Migration)
    (d0 d1 : Z) (msg : string) (rest : list Resp) :
  loadMigrations_pure checksum r (disk w) = (None, r1) ->
  answers 3 (oracle w) = true ->
  pendingUp_pure (migrations r1)
    (select_rows (rows_at (tables w) (table_of r))) = Ok (pre ++ m :: post) ->
  applyAll pre (r1, after_reads r w) = (Ok tt, (r1, w1)) ->
  oracle w1 = mkResp None d0 :: mkResp (Some msg) d1 :: rest ->
  exists w' rb ue ul,
    Up checksum r w
      = (Fail (ErrMigrationFailed (m_Version m) (DBError msg)), (r1, w'))
    /\ trace w' = trace w1 ++
         [ev_ok SBegin; ev_fail (SExec (m_SQL m)) (DBError msg);
          mkEvent SRollback rb;
          mkEvent (record_stmt r1 m (Milliseconds d1) false) ue;
          mkEvent (SUnlock (key_of r1)) ul]
    /\ schema w' = schema w1
    /\ best_effort r1 m (Milliseconds d1) ue (tables w1) (tables w').
Proof.
  intros Hload Hans Hpend Hpre Horacle.
  rewrite (Up_run r r1 w Hload Hans).
  destruct (applyOne_exec_fails m r1 w1 d0 d1 msg rest Horacle)
    as (w2 & rb & ue & Hm & Htr & Hsc & Htb).
  destruct (release_frame
              (Fail (ErrMigrationFailed (m_Version m) (DBError msg))) r1 w2)
    as (w' & ul & Hrel & Htr' & Htb' & Hsc').
  exists w', rb, ue, ul.
  assert (Htail : Up_tail (select_rows (rows_at (tables w) (table_of r)))
                    (r1, after_reads r w)
                  = (Fail (ErrMigrationFailed (m_Version m) (DBError msg)),
                     (r1, w2))).
  { unfold Up_tail, pendingUp.
    cbv beta iota delta [mbind M_bind fst]. rewrite Hpend.
    assert (Hall : applyAll (pre ++ m :: post) (r1, after_reads r w)
              = (Fail (ErrMigrationFailed (m_Version m) (DBError msg)),
                 (r1, w2))).
    { rewrite applyAll_app. cbv beta iota delta [mbind M_bind].
      rewrite Hpre. simpl. cbv beta iota delta [mbind M_bind].
      by rewrite Hm. }
    destruct (pre ++ m :: post) eqn:E; [by destruct pre|exact Hall]. }
  rewrite Htail. split; [exact Hrel|].
  split; [by rewrite Htr', Htr, <- app_assoc|].
  split; [congruence|].
  unfold best_effort in *. destruct ue; [congruence|].
  destruct Htb as [at_ Hrec]. exists at_. by rewrite Htb'.
Qed.

(** ** [applyAll] when every script goes through *)

Lemma applyAll_runner (ms : list Migration) (r : Runner) (w : World) :
  fst (snd (applyAll ms (r, w))) = r.
Proof.
  revert w. induction ms as [|m ms IH]; intros w; simpl; [done|].
  destruct (applyOne_shape m r w) as (tr & res & w1 & ms' & Heq & _).
  unfold mbind, M_bind. rewrite Heq. destruct res; try done.
Qed.

Lemma applyAll_Ok (ms : list Migration) (r r' : Runner) (w w' : World)
    (tbl : Table) :
  applyAll ms (r, w) = (Ok tt, (r', w')) ->
  tables w !! table_of r = Some tbl ->
  exists tbl',
    tables w' = <[table_of r := tbl']> (tables w)
    /\ applied_to ms tbl tbl'.
Proof.
  revert w tbl. induction ms as [|m ms IH]; intros w tbl H Htb; simpl in H.
  - injection H as <- <-. exists tbl. split; [|apply applied_to_nil].
    symmetry. by apply insert_id.
  - destruct (applyOne_shape m r w)
      as (tr & res & w1 & ms' & Heq & _ & Hcases).
    unfold mbind, M_bind in H. rewrite Heq in H.
    destruct Hcases as [(e & _ & -> & _)|[(e & rb & ue & _ & -> & _)|
      [(e & ue & _ & -> & _)|[(e & _ & -> & _)|
      (at_ & _ & -> & _ & (tbl0 & Htb0 & Hw1))]]]]; try discriminate.
    rewrite Htb in Htb0. injection Htb0 as <-.
    apply (IH w1 (<[m_Version m := mkData (m_Name m) (m_Checksum m)
                                     at_ ms' true]> tbl)) in H
      as (tbl' & Hw' & Happ).
    + exists tbl'. split; [|by eapply applied_to_cons].
      rewrite Hw', Hw1. apply insert_insert_eq.
    + rewrite Hw1. apply lookup_insert_eq.
Qed.

(** ** [Up] twice *)

Lemma release_result (x : Result unit * St) : fst (release x) = fst x.
Proof.
  destruct x as [res [r w]].
  destruct (release_frame res r w) as (w' & ul & H & _).
  exact (f_equal fst H).
Qed.

Lemma locked_reads_inv (K : list appliedRow -> M unit) (r r' : Runner)
    (w w' : World) :
  withLock (_ ← ensureTable; _ ← loadMigrations checksum;
            applied ← loadApplied; K applied) (r, w) = (Ok tt, (r', w')) ->
  exists r1 w3,
    loadMigrations_pure checksum r (disk w) = (None, r1)
    /\ tables w3 = <[table_of r := rows_at (tables w) (table_of r)]> (tables w)
    /\ release (K (select_rows (rows_at (tables w) (table_of r))) (r1, w3))
       = (Ok tt, (r', w')).
Proof.
  pose proof (loadMigrations_pure_Opts r (disk w)) as Hopts.
  destruct w as [o c dk h tb sc tx tr lg]. cbn [oracle disk tables] in *.
  unfold rows_at.
  cbv beta iota zeta delta
    [withLock ensureTable loadApplied loadMigrations
     mbind M_bind mret M_ret get_opts stmt tick
     db_lock db_create_table db_select
     set_tables set_held add_event table_of key_of].
  reduce.
  split_run_using ltac:(rewrite lookup_insert_eq).
  all: try (intros; discriminate).
  all: try (intros H; apply (f_equal fst) in H; rewrite release_result in H;
            discriminate).
  all: cbn [snd] in Hopts; rewrite ?Hopts in *.
  all: rewrite ?lookup_insert_eq in *.
  all: simplify_eq.
  all: intros H; eexists _, _; split; [reflexivity|]; split; [|exact H]; reduce.
  all: try reflexivity.
  all: symmetry; by apply insert_id.
Qed.

Lemma loadMigrations_pure_loaded (r r1 : Runner) dsk :
  loadMigrations_pure checksum r dsk = (None, r1) ->
  loaded r1 = true /\ Opts r1 = Opts r.
Proof.
  intros H. pose proof (loadMigrations_pure_Opts r dsk) as Ho.
  rewrite H in Ho. split; [|exact Ho].
  unfold loadMigrations_pure in H.
  destruct (loaded r) eqn:Hl; [by injection H as <-|].
  repeat case_match; simplify_eq; reflexivity.
Qed.

Lemma loadMigrations_pure_cached (r : Runner) dsk :
  loaded r = true -> loadMigrations_pure checksum r dsk = (None, r).
Proof. intros H. unfold loadMigrations_pure. by rewrite H. Qed.

Lemma log_run (msg : string) (r : Runner) (w : World) :
  exists w', log msg (r, w) = (Ok tt, (r, w'))
    /\ tables w' = tables w /\ schema w' = schema w /\ trace w' = trace w.
Proof.
  unfold log. simpl. destruct (Logger (Opts r)); eexists; repeat split.
Qed.

Lemma Up_tail_Ok (rows : list appliedRow) (r r' : Runner) (w w' : World)
    (tbl : Table) :
  Up_tail rows (r, w) = (Ok tt, (r', w')) ->
  tables w !! table_of r = Some tbl ->
  r' = r /\
  exists pending tbl',
    pendingUp_pure (migrations r) rows = Ok pending
    /\ tables w' = <[table_of r := tbl']> (tables w)
    /\ applied_to pending tbl tbl'.
Proof.
  intros H Htb. unfold Up_tail, pendingUp in H.
  cbv beta iota delta [mbind M_bind fst] in H.
  destruct (pendingUp_pure (migrations r) rows) as [pending|e|p] eqn:Hp;
    try discriminate.
  destruct pending as [|m pending].
  - destruct (log_run "migrations up-to-date" r w) as (w1 & Hlog & Ht & _).
    rewrite Hlog in H. injection H as <- <-. split; [done|].
    exists [], tbl. split; [done|]. split; [|apply applied_to_nil].
    rewrite Ht. symmetry. by apply insert_id.
  - pose proof (applyAll_runner (m :: pending) r w) as Hr.
    rewrite H in Hr. simpl in Hr. subst r'. split; [done|].
    destruct (applyAll_Ok _ _ _ _ _ tbl H Htb) as (tbl' & ? & ?).
    exists (m :: pending), tbl'. done.
Qed.

(** After a batch went through, no loaded Up script is pending or
    drifted any more. *)
Lemma nothing_pending_after (ms pending : list Migration) (tbl tbl' : Table) :
  registry_ok ms ->
  pendingUp_pure ms (select_rows tbl) = Ok pending ->
  applied_to pending tbl tbl' ->
  pendingUp_pure ms (select_rows tbl') = Ok [].
Proof.
  intros Hreg Hp [Hother Hrows]. unfold pendingUp_pure in *.
  destruct (pendingUp_loop (appliedSet (select_rows tbl)) ms []) as [p0|e|p]
    eqn:Hloop; try discriminate.
  injection Hp as <-.
  apply pendingUp_loop_Ok in Hloop as [Hp0 Hnodrift]. simpl in Hp0.
  rewrite (pendingUp_loop_applied _ ms []); [reflexivity|].
  intros m Hm Hup.
  destruct (appliedSet (select_rows tbl) !! m_Version m) as [a|] eqn:Hset.
  - (* recorded before the batch: the row is untouched *)
    assert (Hck : a_Checksum a = m_Checksum m).
    { destruct (decide (a_Checksum a = m_Checksum m)) as [|Hne]; [done|].
      destruct (Hnodrift m Hm). split; [done|]. eauto. }
    apply appliedSet_select in Hset as (d & Hd & Hs & ->).
    exists (row_of (m_Version m, d)). split; [|exact Hck].
    apply appliedSet_select. exists d. split; [|done].
    rewrite Hother; [done|].
    intros m' Hm' Hv. apply elem_of_sort_Slice in Hm'. rewrite Hp0 in Hm'.
    apply list_elem_of_In, filter_In in Hm' as [_ Hw].
    unfold waiting in Hw. rewrite Hv in Hw.
    assert (appliedSet (select_rows tbl) !! m_Version m
            = Some (row_of (m_Version m, d))) as E
      by (apply appliedSet_select; eauto).
    rewrite E in Hw. by rewrite andb_false_r in Hw.
  - (* pending: the batch recorded it *)
    assert (Hin : m ∈ sort_Slice version_less p0).
    { apply elem_of_sort_Slice. rewrite Hp0.
      apply list_elem_of_In, filter_In. split; [by apply list_elem_of_In|].
      unfold waiting. by rewrite Hup, Hset. }
    destruct (Hrows m Hin) as (d & m' & Hd & Hs & Hm' & Hv & Hck).
    apply elem_of_sort_Slice in Hm'. rewrite Hp0 in Hm'.
    apply list_elem_of_In, filter_In in Hm' as [Hm'in Hw].
    apply list_elem_of_In in Hm'in.
    unfold waiting in Hw. apply andb_true_iff in Hw as [Hup' _].
    assert (m' = m) as ->.
    { apply (registry_ok_up_versions ms); try done.
      unfold is_up in *. apply String.eqb_eq in Hup, Hup'. congruence. }
    exists (row_of (m_Version m, d)). split; [|exact Hck].
    apply appliedSet_select. eauto.
Qed.

(** X21. After an [Up] that returned nil, a second [Up] on the same
    runner finds no pending script, provided the runner holds at most
    one script per version and direction (as it does unless an earlier
    load on it stopped midway) and the lock, CREATE TABLE and SELECT of
    the second call are accepted: it then returns nil, having run no
    script and written no row. *)
Theorem Up_idempotent (r r' : Runner) (w w' : World) :
  Up checksum r w = (Ok tt, (r', w')) ->
  registry_ok (migrations r') ->
  answers 3 (oracle w') = true ->
  exists w'' ul,
    pendingUp_pure (migrations r')
      (select_rows (rows_at (tables w') (table_of r'))) = Ok []
    /\ Up checksum r' w' = (Ok tt, (r', w''))
    /\ tables w'' = tables w' /\ schema w'' = schema w'
    /\ trace w'' = trace w' ++ [ev_ok (SLock (key_of r'));
                                ev_ok (SCreateTable (table_of r'));
                                ev_ok (SSelect (table_of r'));
                                mkEvent (SUnlock (key_of r')) ul].
Proof.
  intros Hup Hreg Hans. unfold Up in Hup.
  apply (locked_reads_inv Up_tail) in Hup as (r1 & w3 & Hload & Htb3 & Hrel).
  apply loadMigrations_pure_loaded in Hload as [Hloaded Hopts].
  set (rows := select_rows (rows_at (tables w) (table_of r))) in *.
  destruct (Up_tail rows (r1, w3)) as [res [r2 w4]] eqn:Htail.
  destruct (release_frame res r2 w4) as (w5 & ul0 & Hrel' & _ & Htb5 & _).
  pose proof (eq_trans (eq_sym Hrel') Hrel) as E. injection E as -> -> ->.
  assert (Ht : table_of r1 = table_of r) by (unfold table_of; by rewrite Hopts).
  assert (Htbl3 : tables w3 !! table_of r1
                  = Some (rows_at (tables w) (table_of r))).
  { rewrite Htb3, Ht. apply lookup_insert_eq. }
  destruct (Up_tail_Ok rows r1 r' w3 w4 _ Htail Htbl3)
    as (-> & pending & tbl' & Hp & Htb4 & Happ).
  assert (Htbl' : tables w' !! table_of r1 = Some tbl').
  { rewrite Htb5, Htb4. apply lookup_insert_eq. }
  assert (Hnone : pendingUp_pure (migrations r1) (select_rows tbl') = Ok []).
  { eapply nothing_pending_after; eauto. }
  rewrite (Up_run r1 r1 w' (loadMigrations_pure_cached r1 _ Hloaded) Hans).
  rewrite (rows_at_Some _ _ _ Htbl').
  destruct (after_reads_frame r1 w' Hans) as (Htr & Hsc & Htbs & _).
  rewrite (rows_at_Some _ _ _ Htbl'), (insert_id _ _ _ Htbl') in Htbs.
  destruct (log_run "migrations up-to-date" r1 (after_reads r1 w'))
    as (wl & Hlog & Htl & Hsl & Htrl).
  assert (Htail2 : Up_tail (select_rows tbl') (r1, after_reads r1 w')
                   = (Ok tt, (r1, wl))).
  { unfold Up_tail, pendingUp. cbv beta iota delta [mbind M_bind fst].
    by rewrite Hnone. }
  rewrite Htail2.
  destruct (release_frame (Ok tt) r1 wl) as (w'' & ul & Hr & Htr'' & Htb'' & Hsc'').
  exists w'', ul. split; [exact Hnone|]. split; [exact Hr|].
  split; [congruence|]. split; [congruence|].
  by rewrite Htr'', Htrl, Htr, <- app_assoc.
Qed.

(** ** Which errors reach the caller *)

Lemma applyOne_surfaced (m : Migration) (r : Runner) (w : World) :
  exists tr res w',
    applyOne m (r, w) = (res, (r, w')) /\ trace w' = trace w ++ tr
    /\ surfaced res tr
    /\ (res = Ok tt -> forall B (res' : Result B), surfaced res' tr).
Proof.
  destruct (applyOne_shape m r w) as (tr & res & w' & ms & Heq & Htr & Hcases).
  exists tr, res, w'. split; [exact Heq|]. split; [exact Htr|].
  destruct Hcases as [(e & -> & -> & _ & _ & Hrc)|[(e & rb & ue & -> & -> & _ & _ & Hrc)|
      [(e & ue & -> & -> & _ & _ & Hrc)|[(e & -> & -> & _ & _ & Hrc)|
      (at_ & -> & -> & _)]]]].
  all: split; [|try discriminate].
  all: try (intros _ B res'); surfaced_list.
Qed.

Lemma applyAll_surfaced (ms : list Migration) (r : Runner) (w : World) :
  exists tr res w',
    applyAll ms (r, w) = (res, (r, w')) /\ trace w' = trace w ++ tr
    /\ surfaced res tr.
Proof.
  revert w. induction ms as [|m ms IH]; intros w; simpl.
  - exists [], (Ok tt), w. rewrite app_nil_r. repeat split. constructor.
  - destruct (applyOne_surfaced m r w) as (tr1 & res1 & w1 & Heq & Htr1 & Hs1 & Hok).
    unfold mbind, M_bind. rewrite Heq. destruct res1 as [[]|e|p].
    + destruct (IH w1) as (tr2 & res & w' & Heq2 & Htr2 & Hs2).
      exists (tr1 ++ tr2), res, w'. split; [exact Heq2|].
      split; [by rewrite Htr2, Htr1, app_assoc|].
      apply Forall_app. split; [by apply Hok|exact Hs2].
    + exists tr1, (Fail e), w1. done.
    + exists tr1, (Panic p), w1. done.
Qed.

Lemma Up_tail_surfaced (rows : list appliedRow) (r : Runner) (w : World) :
  exists tr res w',
    Up_tail rows (r, w) = (res, (r, w')) /\ trace w' = trace w ++ tr
    /\ surfaced res tr.
Proof.
  unfold Up_tail, pendingUp. cbv beta iota delta [mbind M_bind fst].
  destruct (pendingUp_pure (migrations r) rows) as [pending|e|p].
  - destruct pending as [|m pending].
    + destruct (log_run "migrations up-to-date" r w) as (w' & Hlog & _ & _ & Htr).
      exists [], (Ok tt), w'. rewrite app_nil_r. repeat split; try done.
      constructor.
    + apply applyAll_surfaced.
  - exists [], (Fail e), w. rewrite app_nil_r. repeat split. constructor.
  - exists [], (Panic p), w. rewrite app_nil_r. repeat split. constructor.
Qed.

(** How the part of [Up] and [Down] before their own work can end: the
    lock is refused; a later step fails and the unlock follows; or the
    work ([K]) starts on the rows read. *)
Lemma locked_reads_cases (K : list appliedRow -> M unit) (r : Runner)
    (w : World) :
  let run := withLock (_ ← ensureTable; _ ← loadMigrations checksum;
                       applied ← loadApplied; K applied) (r, w) in
  (exists e w1,
      run = (Fail e, (r, w1))
      /\ trace w1 = trace w ++ [ev_fail (SLock (key_of r)) e]
      /\ root_cause e = e)
  \/ (exists e r1 w1 pre,
      run = release (Fail e, (r1, w1))
      /\ trace w1 = trace w ++ pre
      /\ surfaced (Fail e : Result unit) pre)
  \/ (exists r1 w3 rows,
      run = release (K rows (r1, w3))
      /\ trace w3 = trace w ++ [ev_ok (SLock (key_of r));
                                ev_ok (SCreateTable (table_of r));
                                ev_ok (SSelect (table_of r))]).
Proof.
  pose proof (loadMigrations_pure_Opts r (disk w)) as Hopts.
  destruct w as [o c dk h tb sc tx tr lg]. cbn [oracle disk tables] in *.
  cbv beta iota zeta delta
    [withLock ensureTable loadApplied loadMigrations
     mbind M_bind mret M_ret get_opts stmt tick
     db_lock db_create_table db_select
     set_tables set_held add_event table_of key_of].
  reduce.
  split_run_using ltac:(rewrite lookup_insert_eq).
  all: cbn [snd] in Hopts; rewrite ?Hopts in *.
  all: first
    [ left; eexists _, _; split; [reflexivity|]; reduce;
      split; reflexivity
    | right; right; eexists _, _, _; split; [reflexivity|]; reduce;
      rewrite <- ?app_assoc; reflexivity
    | right; left; eexists _, _, _, _; split; [reflexivity|]; reduce;
      rewrite <- ?app_assoc; split; [reflexivity|]; surfaced_list ].
Qed.

Lemma revertOne_surfaced (m : Migration) (r : Runner) (w : World) :
  exists tr res w',
    revertOne m (r, w) = (res, (r, w')) /\ trace w' = trace w ++ tr
    /\ surfaced res tr.
Proof.
  destruct w as [o c dk h tb sc tx tr lg]. run. split_run.
  all: eexists _, _, _; split; [reflexivity|];
       split; [cbn; rewrite <- ?app_assoc; reflexivity|].
  all: surfaced_list.
Qed.

Lemma Down_tail_surfaced (rows : list appliedRow) (r : Runner) (w : World) :
  exists tr res w',
    Down_tail rows (r, w) = (res, (r, w')) /\ trace w' = trace w ++ tr
    /\ surfaced res tr.
Proof.
  unfold Down_tail. destruct (last rows) as [latest|].
  - cbv beta iota delta [mbind M_bind get_runner fst].
    destruct (find (migrations r) (a_Version latest) "down") as [down|].
    + apply revertOne_surfaced.
    + exists [], (Fail (ErrNoDown (a_Version latest) (a_Name latest))), w.
      rewrite app_nil_r. repeat split. constructor.
  - destruct (log_run "no successful migrations to revert" r w)
      as (w' & Hlog & _ & _ & Htr).
    exists [], (Ok tt), w'. rewrite app_nil_r. repeat split; try done.
    constructor.
Qed.

(** [Down], once enabled, is [withLock] around the same reads as [Up]. *)
Lemma Down_enabled (r : Runner) (w : World) :
  AllowDangerousDown (Opts r) = true ->
  Down checksum r w
  = withLock (_ ← ensureTable; _ ← loadMigrations checksum;
              applied ← loadApplied;
              Down_tail (List.filter a_Success applied)) (r, w).
Proof.
  intros Hen. unfold Down. rewrite Hen. simpl.
  apply withLock_ext. intros s.
  unfold Down_body, Down_tail, loadAppliedSuccess, mbind, M_bind, mret, M_ret.
  destruct (ensureTable s) as [[[]|e|p] s1]; try done.
  destruct (loadMigrations checksum s1) as [[[]|e|p] s2]; try done.
  destruct (loadApplied s2) as [[a|e|p] s3]; done.
Qed.

(** What follows the reads runs only when loading succeeded: a load
    error is what the call returns. *)
Lemma locked_load_fails (K : list appliedRow -> M unit) (r r1 : Runner)
    (w : World) (e : error) :
  loadMigrations_pure checksum r (disk w) = (Some e, r1) ->
  answers 2 (oracle w) = true ->
  fst (withLock (_ ← ensureTable; _ ← loadMigrations checksum;
                 applied ← loadApplied; K applied) (r, w)) = Fail e.
Proof.
  intros Hload Hans.
  destruct w as [o c dk h tb sc tx tr lg]. cbn [oracle disk tables] in *.
  cbv beta iota zeta delta
    [withLock ensureTable loadApplied loadMigrations
     mbind M_bind mret M_ret get_opts stmt tick
     db_lock db_create_table db_select
     set_tables set_held add_event table_of key_of].
  reduce.
  split_run.
  all: rewrite release_result; reflexivity.
Qed.

Lemma locked_surfaced (K : list appliedRow -> M unit) (r : Runner)
    (w : World) :
  (forall rows r1 w3, exists tr res w',
      K rows (r1, w3) = (res, (r1, w')) /\ trace w' = trace w3 ++ tr
      /\ surfaced res tr) ->
  exists tr res r' w',
    withLock (_ ← ensureTable; _ ← loadMigrations checksum;
              applied ← loadApplied; K applied) (r, w) = (res, (r', w'))
    /\ trace w' = trace w ++ tr
    /\ surfaced res tr.
Proof.
  intros HK.
  destruct (locked_reads_cases K r w)
    as [(e & w1 & Hup & Htr & Hrc)|[(e & r1 & w1 & pre & Hup & Htr & Hs)|
        (r1 & w3 & rows & Hup & Htr)]].
  - exists [ev_fail (SLock (key_of r)) e], (Fail e), r, w1.
    split; [exact Hup|]. split; [done|]. surfaced_list.
  - destruct (release_frame (Fail e) r1 w1) as (w' & ul & Hrel & Htr' & _).
    exists (pre ++ [mkEvent (SUnlock (key_of r1)) ul]), (Fail e), r1, w'.
    split; [exact (eq_trans Hup Hrel)|].
    split; [by rewrite Htr', Htr, <- app_assoc|].
    apply Forall_app. split; [exact Hs|]. surfaced_list.
  - destruct (HK rows r1 w3) as (tr2 & res & w4 & Heq & Htr4 & Hs).
    destruct (release_frame res r1 w4) as (w' & ul & Hrel & Htr' & _).
    eexists _, res, r1, w'.
    split; [exact (eq_trans Hup (eq_trans (f_equal release Heq) Hrel))|].
    split; [by rewrite Htr', Htr4, Htr, <- !app_assoc|].
    apply Forall_app. split; [surfaced_list|].
    apply Forall_app. split; [exact Hs|]. surfaced_list.
Qed.

(** C8 (as the code has it). Whatever the driver answers, in [Up] and in
    [Down] the error of every statement sent is either returned to the
    caller, wrapped or as it is, or it is the error of a ROLLBACK, of
    the upsert of a [success=false] row, or of the unlock, which the
    runner drops.  And an error of loading the scripts, once the lock
    and CREATE TABLE were accepted so that loading is reached, is what
    the call returns. *)
Theorem run_surfaces_errors (r : Runner) (w : World) :
  (exists tr res r' w',
     Up checksum r w = (res, (r', w'))
     /\ trace w' = trace w ++ tr
     /\ surfaced res tr)
  /\ (exists tr res r' w',
     Down checksum r w = (res, (r', w'))
     /\ trace w' = trace w ++ tr
     /\ surfaced res tr)
  /\ (forall e r1,
     loadMigrations_pure checksum r (disk w) = (Some e, r1) ->
     answers 2 (oracle w) = true ->
     fst (Up checksum r w) = Fail e
     /\ (AllowDangerousDown (Opts r) = true ->
         fst (Down checksum r w) = Fail e)).
Proof.
  split; [|split].
  - apply (locked_surfaced Up_tail). intros rows r1 w3.
    apply Up_tail_surfaced.
  - destruct (AllowDangerousDown (Opts r)) eqn:Hen.
    + rewrite (Down_enabled r w Hen).
      apply (locked_surfaced (fun a => Down_tail (List.filter a_Success a))).
      intros rows r1 w3. apply Down_tail_surfaced.
    + exists [], (Fail ErrDownDisabled), r, w. unfold Down. rewrite Hen.
      rewrite app_nil_r. repeat split. constructor.
  - intros e r1 Hload Hans. split.
    + exact (locked_load_fails Up_tail r r1 w e Hload Hans).
    + intros Hen. rewrite (Down_enabled r w Hen).
      exact (locked_load_fails _ r r1 w e Hload Hans).
Qed.

(** ** Duplicates *)

(** A file whose key was already seen, or two files with one key, make
    the collecting loop stop with a duplicate error. *)
Lemma collect_duplicate (all : list (FS * string)) (seen : gset string)
    (migs : list Migration) :
  readable all = true ->
  (exists l1 x l2 k,
      all = l1 ++ x :: l2 /\ key_of_file (snd x) = Some k /\ k ∈ seen)
  \/ (exists l1 x l2 y l3 k,
      all = l1 ++ x :: l2 ++ y :: l3
      /\ key_of_file (snd x) = Some k /\ key_of_file (snd y) = Some k) ->
  exists v d migs',
    collect checksum all seen migs = (Some (ErrDuplicate v d), migs').
Proof.
  revert seen migs. unfold key_of_file.
  induction all as [|[root name] all IH]; intros seen migs Hread Hdup.
  - destruct Hdup as [(l1 & x & l2 & k & H & _)|(l1 & x & l2 & y & l3 & k & H & _)];
      by destruct l1.
  - simpl in Hread. apply andb_true_iff in Hread as [Hhead Hread]. simpl in Hhead.
    simpl. destruct (parseFileName name) as [m|] eqn:Hparse.
    + destruct (decide (mig_key m ∈ seen)) as [Hin|Hnin].
      * rewrite bool_decide_eq_true_2 by done. eauto.
      * rewrite bool_decide_eq_false_2 by done.
        destruct (ReadFile root name) as [b| |]; try discriminate.
        apply IH; [exact Hread|].
        destruct Hdup as [(l1 & x & l2 & k & H & Hk & Hseen)|
                          (l1 & x & l2 & y & l3 & k & H & Hx & Hy)].
        -- destruct l1 as [|x1 l1]; simpl in H; injection H as <- ->.
           ++ simpl in Hk. rewrite Hparse in Hk. injection Hk as <-. done.
           ++ left. exists l1, x, l2, k. repeat split; [done|].
              apply elem_of_union. by right.
        -- destruct l1 as [|x1 l1]; simpl in H; injection H as <- ->.
           ++ simpl in Hx. rewrite Hparse in Hx. injection Hx as <-.
              left. exists l2, y, l3, (mig_key m). repeat split; [done|].
              apply elem_of_union. left. by apply elem_of_singleton.
           ++ right. exists l1, x, l2, y, l3, k. done.
    + apply IH; [exact Hread|].
      destruct Hdup as [(l1 & x & l2 & k & H & Hk & Hseen)|
                        (l1 & x & l2 & y & l3 & k & H & Hx & Hy)].
      * destruct l1 as [|x1 l1]; simpl in H; injection H as <- ->.
        -- simpl in Hk. by rewrite Hparse in Hk.
        -- left. exists l1, x, l2, k. done.
      * destruct l1 as [|x1 l1]; simpl in H; injection H as <- ->.
        -- simpl in Hx. by rewrite Hparse in Hx.
        -- right. exists l1, x, l2, y, l3, k. done.
Qed.

Lemma Up_load_fails (r r1 : Runner) (w : World) (e : error) :
  loadMigrations_pure checksum r (disk w) = (Some e, r1) ->
  answers 2 (oracle w) = true ->
  exists w' ul,
    Up checksum r w = (Fail e, (r1, w'))
    /\ trace w' = trace w ++ [ev_ok (SLock (key_of r));
                              ev_ok (SCreateTable (table_of r));
                              mkEvent (SUnlock (key_of r)) ul]
    /\ schema w' = schema w
    /\ tables w' = <[table_of r := rows_at (tables w) (table_of r)]> (tables w).
Proof.
  intros Hload Hans.
  pose proof (loadMigrations_pure_Opts r (disk w)) as Hopts.
  rewrite Hload in Hopts. destruct r1 as [db1 o1 ms1 l1]. simpl in Hopts. subst o1.
  destruct w as [o c dk h tb sc tx tr lg]. cbn [oracle disk tables] in *.
  unfold rows_at.
  run. split_run.
  all: eexists _, _; split; [reflexivity|]; reduce.
  all: rewrite <- ?app_assoc; repeat split; try reflexivity.
  all: symmetry; by apply insert_id.
Qed.

(** C3 (as the code has it). When two of the roots [Up] reads hold a
    file for the same version and direction (every root can be listed
    and every matching file read), loading stops with a duplicate
    error, and [Up] returns it.  By then the advisory lock was taken and
    the tracking table ensured, so the table exists afterwards; no row
    was read or written and no script run, and the lock is released. *)
Theorem Up_duplicate_after_lock (r : Runner) (w : World)
    (pre mid post : list FS) (ents1 ents2 : list DirEntry)
    (e1 e2 : DirEntry) (m1 m2 : Migration) (all : list (FS * string)) :
  loaded r = false ->
  load_roots (Opts r) (disk w)
    = Ok (pre ++ Some ents1 :: mid ++ Some ents2 :: post) ->
  aggregate (pre ++ Some ents1 :: mid ++ Some ents2 :: post) = Ok all ->
  readable all = true ->
  e1 ∈ ents1 -> e_IsDir e1 = false -> parseFileName (e_Name e1) = Some m1 ->
  e2 ∈ ents2 -> e_IsDir e2 = false -> parseFileName (e_Name e2) = Some m2 ->
  m_Version m1 = m_Version m2 -> m_Dir m1 = m_Dir m2 ->
  answers 2 (oracle w) = true ->
  exists v d r' w' ul,
    Up checksum r w = (Fail (ErrDuplicate v d), (r', w'))
    /\ trace w' = trace w ++ [ev_ok (SLock (key_of r));
                              ev_ok (SCreateTable (table_of r));
                              mkEvent (SUnlock (key_of r)) ul]
    /\ schema w' = schema w
    /\ tables w' = <[table_of r := rows_at (tables w) (table_of r)]> (tables w).
Proof.
  intros Hl Hroots Hagg Hread He1 Hd1 Hp1 He2 Hd2 Hp2 Hv Hdir Hans.
  assert (Hsplit : exists l1 l2 l3,
             all = l1 ++ (Some ents1, e_Name e1) :: l2
                      ++ (Some ents2, e_Name e2) :: l3).
  { apply aggregate_app in Hagg as (a & b & _ & Hb & ->).
    destruct (aggregate_cons_elem _ _ _ e1 Hb He1 Hd1)
      as (l1 & l2 & more & Hmore & ->).
    apply aggregate_app in Hmore as (a' & b' & _ & Hb' & ->).
    destruct (aggregate_cons_elem _ _ _ e2 Hb' He2 Hd2)
      as (l1' & l2' & more' & _ & ->).
    exists (a ++ l1), (l2 ++ a' ++ l1'), (l2' ++ more').
    by rewrite <- !app_assoc. }
  destruct Hsplit as (l1 & l2 & l3 & Hall).
  destruct (collect_duplicate all ∅ (migrations r) Hread)
    as (v & d & migs' & Hcollect).
  { right.
    exists l1, (Some ents1, e_Name e1), l2, (Some ents2, e_Name e2), l3,
           (mig_key m1).
    split; [exact Hall|]. unfold key_of_file. cbn [snd]. rewrite Hp1, Hp2.
    split; [reflexivity|]. unfold mig_key. cbn. by rewrite Hv, Hdir. }
  assert (Hload : loadMigrations_pure checksum r (disk w)
                  = (Some (ErrDuplicate v d), with_migrations r migs' false)).
  { unfold loadMigrations_pure. rewrite Hl, Hroots.
    destruct (pre ++ Some ents1 :: mid ++ Some ents2 :: post) eqn:E;
      [by destruct pre|].
    by rewrite Hagg, Hcollect. }
  destruct (Up_load_fails r _ w _ Hload Hans) as (w' & ul & ?).
  exists v, d, (with_migrations r migs' false), w', ul. done.
Qed.

(** ** A fresh runner loads a registry without repeated keys *)




End Properties.

(** * The statements at concrete sessions *)

Example parseFileName_up :
  parseFileName "20240101_init.up.sql"
  = Some (mkMigration 20240101 "init" "up" "20240101_init.up.sql" "" "").
Proof. reflexivity. Qed.

Example parseFileName_short_version :
  parseFileName "2024010_init.up.sql" = None.
Proof. reflexivity. Qed.

Example parseFileName_long_version :
  parseFileName "202401011200001_init.up.sql" = None.
Proof. reflexivity. Qed.

Example parseFileName_other_suffix :
  parseFileName "20240101_init.up.sql.bak" = None.
Proof. reflexivity. Qed.

Example TrimSpace_ex :
  TrimSpace (String (byte 10) " SELECT 1;  ") = "SELECT 1;"%string.
Proof. reflexivity. Qed.

Example TrimSpace_nbsp :
  TrimSpace (String (byte 194) (String (byte 160) "x")) = "x"%string.
Proof. reflexivity. Qed.

Example load_ex_dir :
  loadMigrations_pure toy_checksum (ex_runner false) ex_disk
  = (None, ex_loaded false).
Proof. vm_compute. reflexivity. Qed.

(** A load that stops at an unreadable file keeps the scripts it had
    collected and stays unloaded; the next load collects them again, so
    the registry then holds [users] twice.  [registry_ok] excludes such
    a runner. *)
Example failed_load_is_kept :
  migrations ex_after_failed_load = [mig_users]
  /\ loaded ex_after_failed_load = false
  /\ migrations ex_after_second_load = [mig_users; mig_users; mig_posts]
  /\ loaded ex_after_second_load = true
  /\ ~ registry_ok (migrations ex_after_second_load).
Proof.
  repeat split; try (vm_compute; reflexivity).
  unfold registry_ok. intros H. apply NoDup_cons in H as [H _].
  apply H. vm_compute. apply list_elem_of_here.
Qed.

(** The second of three pending scripts fails: the first has a
    [success=true] row, the second a [success=false] row, the third none. *)
Example second_of_three_fails :
  let '(res, (_, w')) :=
    Up toy_checksum (ex_runner false) (ex_world ex_second_fails ∅) in
  res = Fail (ErrMigrationFailed 20240102 (DBError "syntax error"))
  /\ d_Success <$> rows_at (tables w') ex_table_name !! 20240101 = Some true
  /\ d_Success <$> rows_at (tables w') ex_table_name !! 20240102 = Some false
  /\ rows_at (tables w') ex_table_name !! 20240103 = None
  /\ d_ExecMS <$> rows_at (tables w') ex_table_name !! 20240102 = Some 3
  /\ schema w' = [sql_users].
Proof. vm_compute. repeat split. Qed.

Lemma Down_disabled_witness :
  Down toy_checksum (ex_runner false) (ex_world [] ex_tables_out_of_order)
  = (Fail ErrDownDisabled,
     (ex_runner false, ex_world [] ex_tables_out_of_order)).
Proof. apply Down_disabled. reflexivity. Defined.


Lemma Down_nothing_to_revert_witness :
  exists w' ul,
    Down toy_checksum (ex_runner true) (ex_world [] ex_tables_failed)
      = (Ok tt, (ex_loaded true, w'))
    /\ trace w' = trace (ex_world [] ex_tables_failed)
                   ++ [ev_ok (SLock (key_of (ex_runner true)));
                       ev_ok (SCreateTable (table_of (ex_runner true)));
                       ev_ok (SSelect (table_of (ex_runner true)));
                       mkEvent (SUnlock (key_of (ex_runner true))) ul]
    /\ schema w' = schema (ex_world [] ex_tables_failed)
    /\ tables w' = match tables (ex_world [] ex_tables_failed)
                          !! table_of (ex_runner true) with
                  | Some _ => tables (ex_world [] ex_tables_failed)
                  | None => <[table_of (ex_runner true) := ∅]>
                              (tables (ex_world [] ex_tables_failed))
                  end.
Proof.
  apply (Down_nothing_to_revert toy_checksum (ex_runner true) (ex_loaded true)
           (ex_world [] ex_tables_failed)).
  - reflexivity.
  - vm_compute. reflexivity.
  - reflexivity.
  - intros tbl v d Ht Hd.
    change (tables (ex_world [] ex_tables_failed) !! table_of (ex_runner true))
      with (ex_tables_failed !! ex_table_name) in Ht.
    unfold ex_tables_failed in Ht. rewrite lookup_singleton_eq in Ht.
    injection Ht as <-. apply lookup_singleton_Some in Hd as [_ <-].
    reflexivity.
Defined.

Lemma Up_drift_panics_witness :
  exists res r' w',
    Up toy_checksum (ex_runner false) (ex_world [] ex_tables_drift)
      = (res, (r', w'))
    /\ res <> Ok tt
    /\ tables w' = tables (ex_world [] ex_tables_drift)
    /\ schema w' = schema (ex_world [] ex_tables_drift)
    /\ (answers 3 (oracle (ex_world [] ex_tables_drift)) = true ->
        exists m0 d0 ul,
          res = Panic (mismatch_msg m0 (row_of (m_Version m0, d0)))
          /\ r' = ex_loaded false
          /\ m0 ∈ migrations (ex_loaded false) /\ m_Dir m0 = "up"%string
          /\ ({[ 20240101 := row_users_old ]} : Table) !! m_Version m0 = Some d0
          /\ d_Success d0 = true
          /\ d_Checksum d0 <> m_Checksum m0
          /\ trace w' = trace (ex_world [] ex_tables_drift)
                         ++ [ev_ok (SLock (key_of (ex_runner false)));
                             ev_ok (SCreateTable (table_of (ex_runner false)));
                             ev_ok (SSelect (table_of (ex_runner false)));
                             mkEvent (SUnlock (key_of (ex_runner false))) ul]).
Proof.
  apply (Up_drift_panics toy_checksum (ex_runner false) (ex_loaded false)
           (ex_world [] ex_tables_drift) {[ 20240101 := row_users_old ]}
           mig_users row_users_old).
  - vm_compute. reflexivity.
  - simpl. unfold ex_registry. apply list_elem_of_further, list_elem_of_here.
  - reflexivity.
  - vm_compute. reflexivity.
  - vm_compute. reflexivity.
  - reflexivity.
  - vm_compute. discriminate.
Defined.

Lemma Down_reverts_latest_applied_witness :
  exists v d,
    ex_table_out_of_order !! v = Some d /\ d_Success d = true
    /\ (forall v' d', ex_table_out_of_order !! v' = Some d' ->
          d_Success d' = true ->
          applied_le (d_AppliedAt d') v' (d_AppliedAt d) v)
    /\ match find (migrations (ex_loaded true)) v "down" with
       | None =>
           exists w' ul,
             Down toy_checksum (ex_runner true)
                  (ex_world [] ex_tables_out_of_order)
               = (Fail (ErrNoDown v (d_Name d)), (ex_loaded true, w'))
             /\ tables w' = tables (ex_world [] ex_tables_out_of_order)
             /\ schema w' = schema (ex_world [] ex_tables_out_of_order)
             /\ trace w' = trace (ex_world [] ex_tables_out_of_order)
                  ++ [ev_ok (SLock (key_of (ex_runner true)));
                      ev_ok (SCreateTable (table_of (ex_runner true)));
                      ev_ok (SSelect (table_of (ex_runner true)));
                      mkEvent (SUnlock (key_of (ex_runner true))) ul]
       | Some down =>
           m_Version down = v /\ m_Dir down = "down"%string
           /\ Down toy_checksum (ex_runner true)
                   (ex_world [] ex_tables_out_of_order)
              = release (revertOne down
                           (ex_loaded true,
                            after_reads (ex_runner true)
                              (ex_world [] ex_tables_out_of_order)))
       end.
Proof.
  apply (Down_reverts_latest_applied toy_checksum (ex_runner true)
           (ex_loaded true) (ex_world [] ex_tables_out_of_order)
           ex_table_out_of_order).
  - reflexivity.
  - vm_compute. reflexivity.
  - reflexivity.
  - vm_compute. reflexivity.
  - exists 20240101, row_users_later. split; [vm_compute|]; reflexivity.
Defined.

Lemma Up_fails_fast_witness :
  exists w' rb ue ul,
    Up toy_checksum (ex_runner false) (ex_world ex_second_fails ∅)
      = (Fail (ErrMigrationFailed (m_Version mig_posts)
                 (DBError "syntax error")),
         (ex_loaded false, w'))
    /\ trace w' = trace ex_after_users ++
         [ev_ok SBegin;
          ev_fail (SExec (m_SQL mig_posts)) (DBError "syntax error");
          mkEvent SRollback rb;
          mkEvent (record_stmt (ex_loaded false) mig_posts
                     (Milliseconds 3000000) false) ue;
          mkEvent (SUnlock (key_of (ex_loaded false))) ul]
    /\ schema w' = schema ex_after_users
    /\ best_effort (ex_loaded false) mig_posts (Milliseconds 3000000) ue
         (tables ex_after_users) (tables w').
Proof.
  apply (Up_fails_fast toy_checksum (ex_runner false) (ex_loaded false)
           (ex_world ex_second_fails ∅) ex_after_users
           [mig_users] [mig_tags] mig_posts 1000000 3000000 "syntax error" []).
  - vm_compute. reflexivity.
  - reflexivity.
  - vm_compute. reflexivity.
  - vm_compute. reflexivity.
  - vm_compute. reflexivity.
Defined.

Lemma Up_idempotent_witness :
  exists w'' ul,
    pendingUp_pure (migrations (ex_loaded false))
      (select_rows (rows_at (tables ex_after_up) (table_of (ex_loaded false))))
      = Ok []
    /\ Up toy_checksum (ex_loaded false) ex_after_up
       = (Ok tt, (ex_loaded false, w''))
    /\ tables w'' = tables ex_after_up /\ schema w'' = schema ex_after_up
    /\ trace w'' = trace ex_after_up
         ++ [ev_ok (SLock (key_of (ex_loaded false)));
             ev_ok (SCreateTable (table_of (ex_loaded false)));
             ev_ok (SSelect (table_of (ex_loaded false)));
             mkEvent (SUnlock (key_of (ex_loaded false))) ul].
Proof.
  apply (Up_idempotent toy_checksum (ex_runner false) (ex_loaded false)
           (ex_world [] ∅) ex_after_up).
  - vm_compute. reflexivity.
  - unfold registry_ok. apply (bool_decide_unpack _). vm_compute. exact I.
  - vm_compute. reflexivity.
Defined.

Lemma Up_duplicate_after_lock_witness :
  exists v d r' w' ul,
    Up toy_checksum (New 0%nat ex_opts_two_dirs) (ex_world [] ∅)
      = (Fail (ErrDuplicate v d), (r', w'))
    /\ trace w' = trace (ex_world [] ∅)
         ++ [ev_ok (SLock (key_of (New 0%nat ex_opts_two_dirs)));
             ev_ok (SCreateTable (table_of (New 0%nat ex_opts_two_dirs)));
             mkEvent (SUnlock (key_of (New 0%nat ex_opts_two_dirs))) ul]
    /\ schema w' = schema (ex_world [] ∅)
    /\ tables w'
       = <[table_of (New 0%nat ex_opts_two_dirs) :=
             rows_at (tables (ex_world [] ∅))
                     (table_of (New 0%nat ex_opts_two_dirs))]>
           (tables (ex_world [] ∅)).
Proof.
  apply (Up_duplicate_after_lock toy_checksum (New 0%nat ex_opts_two_dirs)
           (ex_world [] ∅) [] [] [] ex_dir ex_dir_b
           (file "20240101_users.up.sql" sql_users)
           (file "20240101_accounts.up.sql" "CREATE TABLE accounts (id int);")
           (mkMigration 20240101 "users" "up" "20240101_users.up.sql" "" "")
           (mkMigration 20240101 "accounts" "up" "20240101_accounts.up.sql"
                        "" "")
           ex_all).
  - reflexivity.
  - vm_compute. reflexivity.
  - vm_compute. reflexivity.
  - vm_compute. reflexivity.
  - unfold ex_dir. apply list_elem_of_further, list_elem_of_here.
  - reflexivity.
  - vm_compute. reflexivity.
  - unfold ex_dir_b. apply list_elem_of_here.
  - reflexivity.
  - vm_compute. reflexivity.
  - reflexivity.
  - reflexivity.
  - reflexivity.
Defined.

(** * Where the code departs from a statement of the specification *)

(** C1. The tracking table holds a [success=true] row for 20240101 whose
    checksum is not that of the loaded Up script, and [Up] does not
    return an error: it panics. *)
Lemma Up_drift_is_not_returned :
  ex_tables_drift !! ex_table_name = Some {[ 20240101 := row_users_old ]}
  /\ d_Success row_users_old = true
  /\ d_Checksum row_users_old <> m_Checksum mig_users
  /\ loadMigrations_pure toy_checksum (ex_runner false) ex_disk
     = (None, ex_loaded false)
  /\ fst (Up toy_checksum (ex_runner false) (ex_world [] ex_tables_drift))
     = Panic ("checksum mismatch at 20240101: have sha:CREATE TABLE users (); "
              +:+ "want sha:CREATE TABLE users (id int);")
  /\ ~ (exists e,
         fst (Up toy_checksum (ex_runner false) (ex_world [] ex_tables_drift))
         = Fail e).
Proof.
  split; [vm_compute; reflexivity|]. split; [reflexivity|].
  split; [vm_compute; discriminate|]. split; [vm_compute; reflexivity|].
  split; [vm_compute; reflexivity|].
  intros [e H]. vm_compute in H. discriminate.
Qed.

(** C2. The greatest version with a [success=true] row is 20240102, for
    which no Down script is loaded; yet [Down] does not return "no down
    migration": it reverts 20240101, the row applied last, runs its Down
    script and deletes its row. *)
Lemma Down_ignores_greatest_version :
  greatest_success_version ex_table_out_of_order = 20240102
  /\ find (migrations (ex_loaded true)) 20240102 "down" = None
  /\ (let '(res, (_, w')) :=
        Down toy_checksum (ex_runner true)
             (ex_world [] ex_tables_out_of_order) in
      res = Ok tt
      /\ res <> Fail (ErrNoDown 20240102 "posts")
      /\ tables w' !! ex_table_name = Some {[ 20240102 := row_posts_first ]}
      /\ schema w' = [sql_users_down]
      /\ nth_error (trace w') 5
         = Some (ev_ok (SDelete ex_table_name 20240101))).
Proof.
  split; [vm_compute; reflexivity|]. split; [vm_compute; reflexivity|].
  vm_compute. repeat split. discriminate.
Qed.

(** C3. Two directories hold an Up script for 20240101.  [Up] returns
    the duplicate error, but only after it took the advisory lock and
    created the tracking table, which did not exist before. *)
Lemma Up_duplicate_found_under_lock :
  tables (ex_world [] ∅) !! ex_table_name = None
  /\ (let '(res, (_, w')) :=
        Up toy_checksum (New 0%nat ex_opts_two_dirs) (ex_world [] ∅) in
      res = Fail (ErrDuplicate 20240101 "up")
      /\ trace w' = [ev_ok (SLock defaultLock);
                     ev_ok (SCreateTable ex_table_name);
                     ev_ok (SUnlock defaultLock)]
      /\ tables w' !! ex_table_name = Some ∅).
Proof.
  split; [vm_compute; reflexivity|]. vm_compute. repeat split.
Qed.

(** C4. The script of 20240102 fails and the upsert of its
    [success=false] row is refused as well: [Up] returns the script's
    error and no row for 20240102 is persisted. *)
Lemma Up_failed_record_can_be_lost :
  let '(res, (_, w')) :=
    Up toy_checksum (ex_runner false) (ex_world ex_second_fails_twice ∅) in
  res = Fail (ErrMigrationFailed 20240102 (DBError "syntax error"))
  /\ d_Success <$> rows_at (tables w') ex_table_name !! 20240101 = Some true
  /\ rows_at (tables w') ex_table_name !! 20240102 = None
  /\ nth_error (trace w') 8
     = Some (ev_fail (SExec sql_posts) (DBError "syntax error")).
Proof. vm_compute. repeat split. Qed.

(** C7. A first [Up] fails while loading: [20240102_posts.up.sql]
    cannot be read, after [20240101_seed.up.sql] was collected.  The
    file is repaired and the seed script, never applied, edited.  A
    second [Up] on the same runner returns nil: it had kept the old
    seed script, collected the new one beside it, and ran both.  A
    third [Up], over the same files and right after the second, does
    not find an empty pending set and return nil: it panics on the row
    the second call wrote. *)
Lemma Up_after_failed_load_not_idempotent :
  fst ex_first_up = Fail (FSError "read 20240102_posts.up.sql")
  /\ m_SQL <$> migrations (fst (snd ex_first_up)) = [sql_seed]
  /\ fst ex_second_up = Ok tt
  /\ m_SQL <$> migrations (fst (snd ex_second_up))
     = [sql_seed; sql_seed_edited; sql_posts]
  /\ schema (snd (snd ex_second_up)) = [sql_seed; sql_seed_edited; sql_posts]
  /\ disk (snd (snd ex_third_up)) = disk (snd (snd ex_second_up))
  /\ fst ex_third_up
     = Panic ("checksum mismatch at 20240101: have "
                +:+ toy_checksum sql_seed_edited +:+ " want "
                +:+ toy_checksum sql_seed).
Proof. vm_compute. repeat split. Qed.

(** C8. In the same run the upsert of the [success=false] row fails with
    "connection lost"; the error [Up] returns is the script's, and the
    upsert's error is neither it nor wrapped in it. *)
Lemma Up_drops_record_error :
  let '(res, (_, w')) :=
    Up toy_checksum (ex_runner false) (ex_world ex_second_fails_twice ∅) in
  let ev :=
    ev_fail (SUpsert ex_table_name 20240102 "posts" (toy_checksum sql_posts)
               3 false)
            (DBError "connection lost") in
  nth_error (trace w') 10 = Some ev
  /\ res = Fail (ErrMigrationFailed 20240102 (DBError "syntax error"))
  /\ ~ returned res ev
  /\ ~ Forall (returned res) (trace w').
Proof.
  vm_compute. split; [reflexivity|]. split; [reflexivity|].
  assert (Hnot : ~ (exists e' : error,
              Fail (A:=unit) (ErrMigrationFailed 20240102 (DBError "syntax error"))
              = Fail e'
              /\ root_cause e' = DBError "connection lost")).
  { intros [e' [H1 H2]]. injection H1 as <-. simpl in H2. discriminate. }
  split; [exact Hnot|].
  intros H. rewrite Forall_forall in H.
  apply Hnot.
  refine (H (ev_fail (SUpsert ex_table_name 20240102 "posts"
                        (toy_checksum sql_posts) 3 false)
                     (DBError "connection lost")) _).
  vm_compute. set_solver.
Qed.

(** * Further properties *)

(** ** File names *)

Lemma take_drop_while {A} (p : A -> bool) (l : list A) :
  take_while p l ++ drop_while p l = l.
Proof.
  induction l as [|x l IH]; simpl; [done|].
  destruct (p x); simpl; congruence.
Qed.

Lemma take_while_Forall {A} (p : A -> bool) (l : list A) :
  Forall (fun x => p x = true) (take_while p l).
Proof.
  induction l as [|x l IH]; simpl; [constructor|].
  destruct (p x) eqn:E; by constructor.
Qed.

Lemma take_while_stop {A} (p : A -> bool) (l1 l2 : list A) (c : A) :
  Forall (fun x => p x = true) l1 -> p c = false ->
  take_while p (l1 ++ c :: l2) = l1.
Proof.
  induction 1 as [|x l1 Hx _ IH]; intros Hc; simpl.
  - by rewrite Hc.
  - rewrite Hx. by rewrite IH.
Qed.

Lemma drop_while_stop {A} (p : A -> bool) (l1 l2 : list A) (c : A) :
  Forall (fun x => p x = true) l1 -> p c = false ->
  drop_while p (l1 ++ c :: l2) = c :: l2.
Proof.
  induction 1 as [|x l1 Hx _ IH]; intros Hc; simpl.
  - by rewrite Hc.
  - rewrite Hx. by apply IH.
Qed.

Lemma take_while_all {A} (p : A -> bool) (l : list A) :
  Forall (fun x => p x = true) l -> take_while p l = l.
Proof. induction 1 as [|x l Hx _ IH]; simpl; [done|]. by rewrite Hx, IH. Qed.

Lemma drop_while_none {A} (p : A -> bool) (l : list A) :
  Forall (fun x => p x = false) l -> drop_while p l = l.
Proof. destruct 1 as [|x l Hx _]; simpl; [done|]. by rewrite Hx. Qed.

Lemma bytes_of_app (a b : string) :
  bytes_of (a +:+ b) = bytes_of a ++ bytes_of b.
Proof. unfold bytes_of. induction a; simpl; [done|]. by rewrite IHa. Qed.

Lemma bytes_of_string_of (l : list ascii) :
  bytes_of (string_of_list_ascii l) = l.
Proof. apply list_ascii_of_string_of_list_ascii. Qed.

Lemma string_of_bytes_of (s : string) : string_of_list_ascii (bytes_of s) = s.
Proof. apply string_of_list_ascii_of_string. Qed.

Lemma is_digit_value (c : ascii) :
  is_digit c = true -> 0 <= Z.of_nat (nat_of_ascii c) - 48 <= 9.
Proof.
  unfold is_digit. cbv zeta. rewrite andb_true_iff, !Nat.leb_le. lia.
Qed.

(** [n] digits parse to a number below [10 ^ n]: with at most 14 of them
    [ParseInt] stays far from the bounds of [int64]. *)
Lemma ParseInt_bound (l : list ascii) :
  Forall (fun c => is_digit c = true) l ->
  0 <= ParseInt (string_of_list_ascii l) < 10 ^ Z.of_nat (length l).
Proof.
  unfold ParseInt. rewrite bytes_of_string_of.
  induction l as [|c l IH] using rev_ind; intros H.
  - simpl. lia.
  - apply Forall_app in H as [Hl Hc]. inversion Hc as [|? ? Hc' _]; subst.
    clear Hc. rename Hc' into Hc.
    apply is_digit_value in Hc. specialize (IH Hl).
    rewrite fold_left_app, length_app. simpl.
    replace (Z.of_nat (length l + 1)) with (Z.succ (Z.of_nat (length l)))
      by lia.
    rewrite Z.pow_succ_r by lia. lia.
Qed.

(** [filepath.Base] of a name without separator is the name. *)
Lemma Base_plain (s : string) :
  s <> ""%string -> Forall (fun c => is_sep c = false) (bytes_of s) ->
  Base s = s.
Proof.
  intros Hne Hall. unfold Base.
  destruct (String.eqb_spec s "") as [|_]; [done|].
  assert (Hrev : Forall (fun c => is_sep c = false) (rev (bytes_of s))).
  { by apply List.Forall_rev. }
  rewrite (drop_while_none _ _ Hrev).
  rewrite take_while_all.
  2:{ eapply List.Forall_impl; [|exact Hrev]. intros c Hc. simpl.
      by rewrite Hc. }
  rewrite rev_involutive.
  destruct (bytes_of s) eqn:E.
  - destruct s; [done|discriminate].
  - by rewrite <- E, string_of_bytes_of.
Qed.

(** What a match of [fileRe] says of the string and of its groups. *)
Lemma fileRe_Some (s ver nm dir : string) :
  fileRe s = Some (ver, nm, dir) ->
  s = file_name ver nm dir
  /\ all_bytes is_digit ver /\ (8 <= length (bytes_of ver) <= 14)%nat
  /\ all_bytes is_name_char nm /\ nm <> ""%string
  /\ (dir = "up"%string \/ dir = "down"%string).
Proof.
  unfold fileRe. cbv zeta. intros H.
  pose proof (take_drop_while is_digit (bytes_of s)) as Hsplit.
  pose proof (take_while_Forall is_digit (bytes_of s)) as Hdig.
  set (vl := take_while is_digit (bytes_of s)) in *.
  destruct (Nat.leb 8 (length vl) && Nat.leb (length vl) 14) eqn:Hlen;
    [|discriminate].
  apply andb_true_iff in Hlen as [H8 H14]. apply Nat.leb_le in H8, H14.
  destruct (drop_while is_digit (bytes_of s)) as [|c rest] eqn:Hdrop;
    [discriminate|].
  destruct (Nat.eqb (nat_of_ascii c) 95) eqn:Hc; [|discriminate].
  apply Nat.eqb_eq in Hc.
  assert (c = "_"%char) as ->.
  { rewrite <- (ascii_nat_embedding c), Hc. reflexivity. }
  pose proof (take_drop_while is_name_char rest) as Hsplit2.
  pose proof (take_while_Forall is_name_char rest) as Hnm.
  set (nml := take_while is_name_char rest) in *.
  set (tl := drop_while is_name_char rest) in *.
  destruct nml as [|n0 nml'] eqn:Hnl; [discriminate|]. rewrite <- Hnl in *.
  assert (Hdir : exists d, (d = "up"%string \/ d = "down"%string)
                   /\ dir = d /\ ver = string_of_list_ascii vl
                   /\ nm = string_of_list_ascii nml
                   /\ tl = bytes_of ("." +:+ d +:+ ".sql")).
  { destruct (String.eqb_spec (string_of_list_ascii tl) ".up.sql") as [E|_].
    - injection H as <- <- <-. exists "up"%string.
      repeat split; [by left|]. by rewrite <- (bytes_of_string_of tl), E.
    - destruct (String.eqb_spec (string_of_list_ascii tl) ".down.sql")
        as [E|_]; [|discriminate].
      injection H as <- <- <-. exists "down"%string.
      repeat split; [by right|]. by rewrite <- (bytes_of_string_of tl), E. }
  destruct Hdir as (d & Hd & -> & -> & -> & Htl).
  split; [|split; [|split; [|split; [|split]]]].
  - rewrite <- (string_of_bytes_of s), <- (string_of_bytes_of (file_name _ _ _)).
    f_equal. unfold file_name.
    rewrite !bytes_of_app, !bytes_of_string_of, <- Hsplit, <- Hsplit2, Htl.
    by rewrite !bytes_of_app.
  - unfold all_bytes. by rewrite bytes_of_string_of.
  - by rewrite bytes_of_string_of.
  - unfold all_bytes. by rewrite bytes_of_string_of.
  - rewrite Hnl. discriminate.
  - exact Hd.
Qed.

Lemma parseFileName_Some (name : string) (m : Migration) :
  parseFileName name = Some m ->
  m_File m = name /\ m_SQL m = ""%string /\ m_Checksum m = ""%string
  /\ has_direction m
  /\ m_Name m <> ""%string /\ all_bytes is_name_char (m_Name m)
  /\ 0 <= m_Version m < 10 ^ 14
  /\ exists ver,
       all_bytes is_digit ver /\ (8 <= length (bytes_of ver) <= 14)%nat
       /\ ParseInt ver = m_Version m
       /\ Base name = file_name ver (m_Name m) (m_Dir m).
Proof.
  unfold parseFileName, has_direction. intros H.
  destruct (fileRe (Base name)) as [[[ver nm] dir]|] eqn:Hre; [|discriminate].
  injection H as <-. simpl.
  apply fileRe_Some in Hre as (Hbase & Hdig & Hlen & Hnm & Hne & Hdir).
  repeat split; try done.
  - pose proof (ParseInt_bound (bytes_of ver) Hdig) as Hb.
    rewrite string_of_bytes_of in Hb. lia.
  - pose proof (ParseInt_bound (bytes_of ver) Hdig) as Hb.
    rewrite string_of_bytes_of in Hb.
    assert (10 ^ Z.of_nat (length (bytes_of ver)) <= 10 ^ 14)
      by (apply Z.pow_le_mono_r; lia).
    lia.
  - exists ver. done.
Qed.

(** X1. Whatever [parseFileName] accepts has the shape of the grammar:
    the base name of the path is [<digits>_<name>.<up|down>.sql] with 8
    to 14 digits and a non-empty name of letters, digits, [_] and [-];
    the version is the number the digits spell (below [10^14], so the
    conversion to [int64] cannot fail), the file is the path as given,
    and SQL and checksum are still empty. *)
Theorem parseFileName_sound (name : string) (m : Migration) :
  parseFileName name = Some m ->
  m_File m = name /\ m_SQL m = ""%string /\ m_Checksum m = ""%string
  /\ (m_Dir m = "up"%string \/ m_Dir m = "down"%string)
  /\ m_Name m <> ""%string /\ all_bytes is_name_char (m_Name m)
  /\ 0 <= m_Version m < 10 ^ 14
  /\ exists ver,
       all_bytes is_digit ver /\ (8 <= length (bytes_of ver) <= 14)%nat
       /\ ParseInt ver = m_Version m
       /\ Base name = file_name ver (m_Name m) (m_Dir m).
Proof. exact (parseFileName_Some name m). Qed.

Lemma is_digit_not_sep c : is_digit c = true -> is_sep c = false.
Proof.
  unfold is_digit, is_sep. cbv zeta.
  rewrite andb_true_iff, !Nat.leb_le, Nat.eqb_neq. lia.
Qed.

Lemma is_name_char_not_sep c : is_name_char c = true -> is_sep c = false.
Proof.
  unfold is_name_char, is_sep. cbv zeta.
  rewrite !orb_true_iff, !andb_true_iff, !Nat.leb_le, !Nat.eqb_eq, Nat.eqb_neq.
  lia.
Qed.

(** X2. Every file name of the grammar is accepted: for 8 to 14 digits,
    a non-empty name of letters, digits, [_] and [-], and the direction
    [up] or [down], [parseFileName] returns the migration with that
    version, name and direction. *)
Theorem parseFileName_complete (ver nm dir : string) :
  all_bytes is_digit ver -> (8 <= length (bytes_of ver) <= 14)%nat ->
  all_bytes is_name_char nm -> nm <> ""%string ->
  dir = "up"%string \/ dir = "down"%string ->
  parseFileName (file_name ver nm dir)
  = Some (mkMigration (ParseInt ver) nm dir (file_name ver nm dir) "" "").
Proof.
  intros Hdig Hlen Hnm Hne Hdir.
  assert (Hbytes : bytes_of (file_name ver nm dir)
                   = bytes_of ver ++ "_"%char
                       :: bytes_of nm ++ "."%char :: bytes_of (dir +:+ ".sql")).
  { unfold file_name. by rewrite !bytes_of_app. }
  assert (Hbase : Base (file_name ver nm dir) = file_name ver nm dir).
  { apply Base_plain.
    - unfold file_name. destruct ver; [|discriminate].
      simpl in Hlen. lia.
    - rewrite Hbytes. apply Forall_app. split.
      { eapply List.Forall_impl; [|exact Hdig]. apply is_digit_not_sep. }
      constructor; [reflexivity|]. apply Forall_app. split.
      { eapply List.Forall_impl; [|exact Hnm]. apply is_name_char_not_sep. }
      constructor; [reflexivity|].
      destruct Hdir as [-> | ->]; repeat constructor. }
  unfold parseFileName. rewrite Hbase. unfold fileRe. cbv zeta. rewrite Hbytes.
  rewrite (take_while_stop is_digit _ _ "_"%char Hdig eq_refl).
  rewrite (drop_while_stop is_digit _ _ "_"%char Hdig eq_refl).
  destruct Hlen as [H8 H14].
  apply Nat.leb_le in H8, H14. rewrite H8, H14. simpl.
  rewrite (take_while_stop is_name_char _ _ "."%char Hnm eq_refl).
  rewrite (drop_while_stop is_name_char _ _ "."%char Hnm eq_refl).
  rewrite !string_of_bytes_of.
  destruct (bytes_of nm) eqn:E.
  { destruct nm; [done|discriminate]. }
  destruct Hdir as [-> | ->]; reflexivity.
Qed.

(** ** Identifiers and directories *)

Lemma double_quotes_inj (s1 s2 : string) :
  double_quotes s1 = double_quotes s2 -> s1 = s2.
Proof.
  revert s2. induction s1 as [|c1 s1 IH]; intros [|c2 s2]; simpl.
  - done.
  - destruct (Nat.eqb _ 34); discriminate.
  - destruct (Nat.eqb _ 34); discriminate.
  - destruct (Nat.eqb (nat_of_ascii c1) 34) eqn:E1;
      destruct (Nat.eqb (nat_of_ascii c2) 34) eqn:E2; intros H.
    all: inversion H; subst; try congruence; f_equal; by apply IH.
Qed.

Lemma append_inj_r (a b c : string) : (a +:+ c = b +:+ c)%string -> a = b.
Proof.
  intros H. apply (f_equal bytes_of) in H.
  rewrite !bytes_of_app in H. apply app_inv_tail in H.
  rewrite <- (string_of_bytes_of a), <- (string_of_bytes_of b).
  by rewrite H.
Qed.

(** X3. [pq] is injective: two table names are quoted to the same
    identifier only when they are the same name, whatever quotes they
    contain. *)
Theorem pq_injective (s1 s2 : string) : pq s1 = pq s2 <-> s1 = s2.
Proof.
  split; [|by intros ->].
  unfold pq. intros H. injection H as H.
  apply append_inj_r in H. by apply double_quotes_inj.
Qed.

(** The loop that removes repeated directories keeps each non-empty
    directory not in [seen] once. *)
Lemma uniq_dirs_spec (dirs : list string) (seen : gset string) :
  NoDup (uniq_dirs dirs seen)
  /\ (forall d, d ∈ uniq_dirs dirs seen <->
               d ∈ dirs /\ d <> ""%string /\ d ∉ seen)
  /\ sublist (uniq_dirs dirs seen) dirs.
Proof.
  revert seen. induction dirs as [|d dirs IH]; intros seen; simpl.
  - split; [constructor|]. split; [|constructor].
    intros d. split; [inversion 1|intros [H _]; inversion H].
  - destruct (String.eqb_spec d "") as [->|Hne].
    { destruct (IH seen) as (Hnd & Hin & Hsub). split; [exact Hnd|].
      split; [|by apply sublist_cons].
      intros d'. rewrite Hin, elem_of_cons. intuition congruence. }
    destruct (decide (d ∈ seen)) as [Hs|Hs].
    { rewrite bool_decide_eq_true_2 by done.
      destruct (IH seen) as (Hnd & Hin & Hsub). split; [exact Hnd|].
      split; [|by apply sublist_cons].
      intros d'. rewrite Hin, elem_of_cons. intuition congruence. }
    rewrite bool_decide_eq_false_2 by done.
    destruct (IH ({[d]} ∪ seen)) as (Hnd & Hin & Hsub).
    split; [|split; [|by apply sublist_skip]].
    + apply NoDup_cons. split; [|exact Hnd]. rewrite Hin.
      intros (_ & _ & Hn). apply Hn, elem_of_union_l, elem_of_singleton.
      reflexivity.
    + intros d'. rewrite !elem_of_cons, Hin, elem_of_union, elem_of_singleton.
      destruct (decide (d' = d)) as [->|Hd]; [|tauto].
      split; [intros _|intros _; by left].
      split; [by left|]. by split.
Qed.

Lemma first_before_here {A} (d1 d2 : A) (l : list A) :
  first_before d1 d2 (d1 :: l).
Proof. exists [], l. repeat split; apply not_elem_of_nil. Qed.

Lemma first_before_skip {A} (d d1 d2 : A) (l : list A) :
  d <> d1 -> d <> d2 ->
  first_before d1 d2 (d :: l) <-> first_before d1 d2 l.
Proof.
  intros H1 H2. split.
  - intros (pre & post & Heq & Hn1 & Hn2). destruct pre as [|x pre].
    + injection Heq as Hd _. congruence.
    + injection Heq as <- ->. exists pre, post.
      rewrite !not_elem_of_cons in Hn1, Hn2. tauto.
  - intros (pre & post & -> & Hn1 & Hn2). exists (d :: pre), post.
    rewrite !not_elem_of_cons. split; [done|]. split; split; congruence.
Qed.

Lemma first_before_head {A} (d1 d2 : A) (l : list A) :
  d1 <> d2 -> ~ first_before d1 d2 (d2 :: l).
Proof.
  intros Hne (pre & post & Heq & Hn1 & Hn2). destruct pre as [|x pre].
  - injection Heq as Hd _. congruence.
  - injection Heq as <- _. apply Hn2. left.
Qed.

Lemma uniq_dirs_order (dirs : list string) (seen : gset string)
    (d1 d2 : string) :
  d1 <> d2 ->
  d1 ∈ uniq_dirs dirs seen -> d2 ∈ uniq_dirs dirs seen ->
  first_before d1 d2 (uniq_dirs dirs seen) <-> first_before d1 d2 dirs.
Proof.
  intros Hne. revert seen. induction dirs as [|d dirs IH]; intros seen H1 H2.
  { simpl in H1. inversion H1. }
  pose proof (uniq_dirs_spec dirs seen) as (_ & Hin & _).
  simpl in *. destruct (String.eqb_spec d "") as [->|Hd].
  { apply Hin in H1 as H1'. apply Hin in H2 as H2'.
    rewrite first_before_skip; [by apply IH| |];
      intros <-; tauto. }
  destruct (decide (d ∈ seen)) as [Hs|Hs].
  { rewrite bool_decide_eq_true_2 in * by done.
    apply Hin in H1 as H1'. apply Hin in H2 as H2'.
    rewrite first_before_skip; [by apply IH| |];
      intros <-; tauto. }
  rewrite bool_decide_eq_false_2 in * by done.
  destruct (decide (d = d1)) as [->|Hd1].
  { split; intros _; apply first_before_here. }
  destruct (decide (d = d2)) as [->|Hd2].
  { split; intros H; exfalso; revert H; by apply first_before_head. }
  rewrite !first_before_skip by done.
  apply elem_of_cons in H1 as [?|H1]; [congruence|].
  apply elem_of_cons in H2 as [?|H2]; [congruence|].
  by apply IH.
Qed.

Lemma embedded_roots_Ok (efss : list FS) : embedded_roots efss = Ok efss.
Proof.
  induction efss as [|efs efss IH]; simpl; [done|]. by rewrite IH.
Qed.

(** X4. The roots [loadMigrations] reads are the configured
    directories and then the embedded filesystems.  The directories are
    [MigrationsDir] followed by [MigrationsDirs] without the empty
    names, each once, in the order of their first mention: one
    directory stands before another among those read exactly when its
    first mention comes before every mention of the other. *)
Theorem load_roots_order (o : Options) (dsk : gmap string (list DirEntry)) :
  let conf := MigrationsDir o :: MigrationsDirs o in
  exists dirs,
    load_roots o dsk = Ok (map (fun d => dsk !! d) dirs ++ EmbeddedFSs o)
    /\ NoDup dirs
    /\ (forall d, d ∈ dirs <-> d ∈ conf /\ d <> ""%string)
    /\ (forall d1 d2, d1 <> d2 -> d1 ∈ dirs -> d2 ∈ dirs ->
          first_before d1 d2 dirs <-> first_before d1 d2 conf).
Proof.
  intros conf. exists (uniq_dirs conf ∅).
  assert (Hconf : uniq_dirs
            ((if negb (String.eqb (MigrationsDir o) "")
              then [MigrationsDir o] else []) ++ MigrationsDirs o) ∅
          = uniq_dirs conf ∅).
  { subst conf. simpl.
    destruct (String.eqb (MigrationsDir o) "") eqn:E; simpl; by rewrite ?E. }
  pose proof (uniq_dirs_spec conf ∅) as (Hnd & Hin & _).
  split; [|split; [exact Hnd|split]].
  - unfold load_roots. cbv zeta. by rewrite embedded_roots_Ok, Hconf.
  - intros d. rewrite Hin. split; [intros (? & ? & _); done|].
    intros [? ?]. repeat split; [done..|]. apply not_elem_of_empty.
  - intros d1 d2 Hne H1 H2. by apply uniq_dirs_order.
Qed.

(** ** The pending set *)

Lemma version_less_asym (a b : Migration) :
  version_less a b = true -> version_less b a = false.
Proof. unfold version_less. rewrite Z.ltb_lt, Z.ltb_ge. lia. Qed.

Lemma version_not_after_trans (a b c : Migration) :
  not_after version_less a b -> not_after version_less b c ->
  not_after version_less a c.
Proof. unfold not_after, version_less. rewrite !Z.ltb_ge. lia. Qed.

Lemma StronglySorted_weaken {A} (R R' : A -> A -> Prop) (l : list A) :
  (forall x y, R x y -> R' x y) -> StronglySorted R l -> StronglySorted R' l.
Proof.
  intros H. induction 1 as [|x l Hs IH Hall]; constructor; [exact IH|].
  eapply List.Forall_impl; [|exact Hall]. intros y. apply H.
Qed.

Lemma appliedSet_select_none (tbl : Table) (v : Z) :
  appliedSet (select_rows tbl) !! v = None <->
  forall d, tbl !! v = Some d -> d_Success d = false.
Proof.
  split.
  - intros Hn d Hd. destruct (d_Success d) eqn:Hs; [|done].
    assert (appliedSet (select_rows tbl) !! v = Some (row_of (v, d))) as H.
    { apply appliedSet_select. eauto. }
    congruence.
  - intros H.
    destruct (appliedSet (select_rows tbl) !! v) as [a|] eqn:E; [|done].
    apply appliedSet_select in E as [d (Hd & Hs & _)].
    apply H in Hd. congruence.
Qed.

Lemma pendingUp_pure_sorts (ms pending : list Migration) (tbl : Table) :
  pendingUp_pure ms (select_rows tbl) = Ok pending ->
  pending = sort_Slice version_less
              (List.filter (waiting (appliedSet (select_rows tbl))) ms).
Proof.
  unfold pendingUp_pure. intros H.
  destruct (pendingUp_loop (appliedSet (select_rows tbl)) ms []) as [p0| |]
    eqn:Hloop; try discriminate.
  injection H as <-. by apply pendingUp_loop_Ok in Hloop as [-> _].
Qed.

(** The scripts [pendingUp] returns: the loaded Up scripts whose version
    has no [success=true] row. *)
Lemma pendingUp_pure_elem (ms pending : list Migration) (tbl : Table)
    (m : Migration) :
  pendingUp_pure ms (select_rows tbl) = Ok pending ->
  m ∈ pending <->
  m ∈ ms /\ m_Dir m = "up"%string
  /\ forall d, tbl !! m_Version m = Some d -> d_Success d = false.
Proof.
  intros ->%pendingUp_pure_sorts.
  rewrite elem_of_sort_Slice, list_elem_of_In, filter_In.
  rewrite <- list_elem_of_In. unfold waiting, is_up.
  rewrite andb_true_iff, String.eqb_eq, <- appliedSet_select_none.
  destruct (appliedSet (select_rows tbl) !! m_Version m).
  - split; [intros (_ & _ & [=])|intros (_ & _ & [=])].
  - split; [intros (? & ? & _)|intros (? & ? & _)]; done.
Qed.

(** X5. When [pendingUp] returns, the result holds exactly the loaded
    Up scripts whose version has no [success=true] row (a version with
    only a [success=false] row is pending again), each as often as it
    is loaded, in ascending order of version. *)
Theorem pendingUp_pending_set (ms pending : list Migration) (tbl : Table) :
  pendingUp_pure ms (select_rows tbl) = Ok pending ->
  (forall m, m ∈ pending <->
     m ∈ ms /\ m_Dir m = "up"%string
     /\ forall d, tbl !! m_Version m = Some d -> d_Success d = false)
  /\ StronglySorted (fun a b => m_Version a <= m_Version b) pending
  /\ pending ≡ₚ List.filter (waiting (appliedSet (select_rows tbl))) ms.
Proof.
  intros H. split; [|split].
  - intros m. by apply pendingUp_pure_elem.
  - apply pendingUp_pure_sorts in H as ->.
    eapply StronglySorted_weaken;
      [|apply (sort_Slice_sorted version_less version_less_asym
                 version_not_after_trans)].
    intros x y. unfold not_after, version_less. rewrite Z.ltb_ge. lia.
  - apply pendingUp_pure_sorts in H as ->. apply sort_Slice_perm.
Qed.

(** X6. [pendingUp] panics exactly when some loaded Up script has a
    [success=true] row whose checksum is not the script's; it has no
    error result, so otherwise it returns the pending scripts. *)
Theorem pendingUp_panics_iff_drift (ms : list Migration) (tbl : Table) :
  ((exists msg, pendingUp_pure ms (select_rows tbl) = Panic msg) <->
   (exists m d, m ∈ ms /\ m_Dir m = "up"%string
      /\ tbl !! m_Version m = Some d /\ d_Success d = true
      /\ d_Checksum d <> m_Checksum m))
  /\ forall e, pendingUp_pure ms (select_rows tbl) <> Fail e.
Proof.
  split; [split|].
  - intros [msg H]. unfold pendingUp_pure in H.
    destruct (pendingUp_loop (appliedSet (select_rows tbl)) ms []) as [p0| |]
      eqn:Hloop; try discriminate.
    apply pendingUp_loop_Panic in Hloop as (m & a & Hin & Hup & Hset & Hne & _).
    apply appliedSet_select in Hset as (d & Hd & Hs & ->).
    exists m, d. unfold is_up in Hup. apply String.eqb_eq in Hup. done.
  - intros (m & d & Hin & Hup & Hd & Hs & Hne).
    destruct (pendingUp_pure_drift ms tbl m d Hin Hup Hd Hs Hne)
      as (m0 & d0 & -> & _). eauto.
  - intros e. unfold pendingUp_pure.
    destruct (pendingUp_loop (appliedSet (select_rows tbl)) ms []) as [p0|e0|]
      eqn:Hloop; try discriminate.
    by apply pendingUp_loop_no_Fail in Hloop.
Qed.

(** ** Loading *)

Section SortedOn.

Context {A : Type} (less : A -> A -> bool) (P : A -> Prop).

Hypothesis less_asym_on :
  forall x y, P x -> P y -> less x y = true -> less y x = false.
Hypothesis not_after_trans_on :
  forall x y z, P x -> P y -> P z ->
    not_after less x y -> not_after less y z -> not_after less x z.



End SortedOn.



Lemma uniq_dirs_empty (dirs : list string) (seen : gset string) :
  Forall (fun d => d = ""%string) dirs -> uniq_dirs dirs seen = [].
Proof. induction 1 as [|d dirs -> _ IH]; simpl; [done|exact IH]. Qed.

Lemma aggregate_unlistable (roots : list FS) :
  None ∈ roots -> exists e, aggregate roots = Fail (ErrReadDir e).
Proof.
  induction roots as [|root roots IH]; intros Hin; [inversion Hin|].
  simpl. destruct root as [ents|]; [|eauto].
  apply elem_of_cons in Hin as [|Hin]; [done|].
  destruct (IH Hin) as [e ->]. eauto.
Qed.

Lemma ReadFile_no_Panic (root : FS) (name p : string) :
  ReadFile root name <> Panic p.
Proof. unfold ReadFile. repeat case_match; discriminate. Qed.


Section LoadFacts.

Variable checksum : string -> string.

(** What the loop over the files leaves: the scripts of the files it
    passed, appended in their order; when it stops, the file it stopped
    at and why. *)
Lemma collect_spec (all : list (FS * string)) (seen : gset string)
    (migs : list Migration) :
  match collect checksum all seen migs with
  | (None, migs') =>
      migs' = migs ++ omap (script_of checksum) all
      /\ Forall (collected checksum) all
  | (Some e, migs') =>
      exists pre fr post m,
        all = pre ++ fr :: post
        /\ migs' = migs ++ omap (script_of checksum) pre
        /\ Forall (collected checksum) pre
        /\ parseFileName (snd fr) = Some m
        /\ ((e = ErrDuplicate (m_Version m) (m_Dir m)
             /\ (mig_key m ∈ seen
                 \/ exists fr' m', fr' ∈ pre
                      /\ parseFileName (snd fr') = Some m'
                      /\ mig_key m' = mig_key m))
            \/ ReadFile (fst fr) (snd fr) = Fail e)
  end.
Proof.
  revert seen migs. induction all as [|[root name] all IH]; intros seen migs.
  { simpl. rewrite app_nil_r. split; [done|constructor]. }
  assert (Hcons : forall pre,
            omap (script_of checksum) ((root, name) :: pre)
            = match script_of checksum (root, name) with
              | Some y => y :: omap (script_of checksum) pre
              | None => omap (script_of checksum) pre
              end) by reflexivity.
  assert (Hso : script_of checksum (root, name)
                = match parseFileName name with
                  | Some m =>
                      match ReadFile root name with
                      | Ok b =>
                          Some (mkMigration (m_Version m) (m_Name m) (m_Dir m)
                                  (m_File m) (TrimSpace b)
                                  (checksum (TrimSpace b)))
                      | _ => None
                      end
                  | None => None
                  end) by reflexivity.
  cbn [collect]. rewrite !Hcons.
  destruct (parseFileName name) as [m|] eqn:Hp.
  2:{ rewrite Hso. specialize (IH seen migs).
      destruct (collect checksum all seen migs) as [[e|] migs'].
      - destruct IH as (pre & fr & post & m & -> & -> & Hall & Hm & Hwhy).
        exists ((root, name) :: pre), fr, post, m.
        rewrite Hcons, Hso.
        split; [done|]. split; [done|].
        split; [constructor; [left; exact Hp|done]|]. split; [done|].
        destruct Hwhy as [(-> & [Hs|(fr' & m' & Hin & ? & ?)])|Hr];
          [left; split; [done|by left]| |by right].
        left. split; [done|]. right. exists fr', m'.
        split; [by apply list_elem_of_further|done].
      - destruct IH as [-> Hall]. split; [done|].
        constructor; [left; exact Hp|done]. }
  destruct (decide (mig_key m ∈ seen)) as [Hs|Hs].
  { rewrite bool_decide_eq_true_2 by done.
    exists [], (root, name), all, m. simpl. rewrite app_nil_r.
    repeat split; [constructor|done|]. left. split; [done|by left]. }
  rewrite bool_decide_eq_false_2 by done.
  destruct (ReadFile root name) as [b|e|p] eqn:Hr.
  - rewrite Hso.
    set (m1 := mkMigration (m_Version m) (m_Name m) (m_Dir m) (m_File m)
                 (TrimSpace b) (checksum (TrimSpace b))).
    specialize (IH ({[mig_key m]} ∪ seen) (migs ++ [m1])).
    assert (Hc : collected checksum (root, name)).
    { right. rewrite Hso. eauto. }
    cbv zeta.
    destruct (collect checksum all _ (migs ++ [m1])) as [[e|] migs'].
    + destruct IH as (pre & fr & post & m' & -> & -> & Hall & Hm & Hwhy).
      exists ((root, name) :: pre), fr, post, m'.
      rewrite Hcons, Hso.
      split; [done|]. split; [by rewrite <- app_assoc|].
      split; [by constructor|]. split; [done|].
      destruct Hwhy as [(-> & [Hk|(fr' & m'' & Hin & ? & ?)])|Hr'];
        [| |by right].
      * left. split; [done|].
        apply elem_of_union in Hk as [Hk|Hk]; [|by left].
        apply elem_of_singleton in Hk. right.
        exists (root, name), m. split; [apply list_elem_of_here|done].
      * left. split; [done|]. right. exists fr', m''.
        split; [by apply list_elem_of_further|done].
    + destruct IH as [-> Hall]. split; [by rewrite <- app_assoc|].
      by constructor.
  - exists [], (root, name), all, m. simpl. rewrite app_nil_r.
    repeat split; [constructor|done|]. by right.
  - by apply ReadFile_no_Panic in Hr.
Qed.



(** X8. A load that fails after the roots were listed stopped at one
    file: a file whose version and direction an earlier file has, or a
    file of the grammar that cannot be read.  The runner stays unloaded
    with its options and database handle as they were, and it keeps
    the scripts it held followed by the scripts of all files before the
    one it stopped at, in their order: they are not dropped. *)
Theorem loadMigrations_failure_keeps (r r1 : Runner)
    (dsk : gmap string (list DirEntry)) (e : error)
    (roots : list FS) (all : list (FS * string)) :
  loadMigrations_pure checksum r dsk = (Some e, r1) ->
  load_roots (Opts r) dsk = Ok roots ->
  aggregate roots = Ok all ->
  roots <> [] ->
  loaded r = false /\ loaded r1 = false
  /\ DB r1 = DB r /\ Opts r1 = Opts r
  /\ exists pre fr post,
       all = pre ++ fr :: post
       /\ migrations r1 = migrations r ++ omap (script_of checksum) pre
       /\ Forall (collected checksum) pre
       /\ stopped_at pre fr e.
Proof.
  unfold loadMigrations_pure. intros H Hroots Hagg Hne.
  destruct (loaded r) eqn:Hl; [discriminate|].
  rewrite Hroots in H. destruct roots as [|root roots]; [done|].
  rewrite Hagg in H.
  pose proof (collect_spec all ∅ (migrations r)) as Hc.
  destruct (collect checksum all ∅ (migrations r)) as [[e'|] migs];
    [|discriminate].
  injection H as <- <-. simpl.
  destruct Hc as (pre & fr & post & m & -> & -> & Hall & Hm & Hwhy).
  repeat split; try done.
  exists pre, fr, post. repeat split; try done.
  exists m. split; [done|].
  destruct Hwhy as [(-> & [Hs|Hdup])|Hr]; [|by left|by right].
  by apply not_elem_of_empty in Hs.
Qed.

(** X9. With no directory configured (none, or only empty names) and no
    embedded filesystem, loading fails with "no migrations source
    provided" and the runner is unchanged. *)
Theorem loadMigrations_no_source (r : Runner)
    (dsk : gmap string (list DirEntry)) :
  loaded r = false ->
  MigrationsDir (Opts r) = ""%string ->
  Forall (fun d => d = ""%string) (MigrationsDirs (Opts r)) ->
  EmbeddedFSs (Opts r) = [] ->
  loadMigrations_pure checksum r dsk = (Some ErrNoSource, r).
Proof.
  intros Hl Hd Hds He. unfold loadMigrations_pure, load_roots.
  rewrite Hl, Hd, He. simpl. by rewrite (uniq_dirs_empty _ _ Hds).
Qed.

(** X10. When one of the roots cannot be listed, loading fails with a
    "readdir" error before any file is parsed or read: the runner is
    unchanged, also when other roots hold valid scripts. *)
Theorem loadMigrations_unlistable_root (r : Runner)
    (dsk : gmap string (list DirEntry)) (roots : list FS) :
  loaded r = false ->
  load_roots (Opts r) dsk = Ok roots ->
  None ∈ roots ->
  exists e, loadMigrations_pure checksum r dsk = (Some (ErrReadDir e), r).
Proof.
  intros Hl Hr Hin. unfold loadMigrations_pure. rewrite Hl, Hr.
  destruct (aggregate_unlistable roots Hin) as [e He].
  destruct roots; [inversion Hin|]. rewrite He. eauto.
Qed.

(** X11. Once a load succeeded, every later load returns at once and
    leaves the runner as it is, whatever the directories then hold:
    files added or changed later are not seen by this runner. *)
Theorem loadMigrations_loads_once (r r1 : Runner)
    (dsk dsk' : gmap string (list DirEntry)) :
  loadMigrations_pure checksum r dsk = (None, r1) ->
  loadMigrations_pure checksum r1 dsk' = (None, r1).
Proof.
  intros H. apply loadMigrations_pure_loaded in H as [Hl _].
  by apply loadMigrations_pure_cached.
Qed.

End LoadFacts.

(** ** The advisory lock *)

Lemma lock_frame_bind {A B} (f : M A) (g : A -> M B) :
  lock_frame f -> (forall a, lock_frame (g a)) -> lock_frame (f ≫= g).
Proof.
  intros Hf Hg s. unfold mbind, M_bind. destruct (Hf s) as [H1 H2].
  destruct (f s) as [[a|e|p] s1]; simpl in *; [|done|done].
  destruct (Hg a s1) as [H3 H4]. split; congruence.
Qed.

Lemma lock_frame_stmt {A} (q : Stmt) (eff : World -> Result A * World) :
  (forall w, held (snd (eff w)) = held w) -> lock_frame (stmt q eff).
Proof.
  intros Heff [r w]. unfold stmt. cbn [fst snd].
  assert (Ht : held (snd (tick w)) = held w).
  { unfold tick. by destruct (oracle w). }
  destruct (tick w) as [resp w1]. cbn [snd] in Ht.
  destruct (r_err resp); [by split|].
  specialize (Heff w1). destruct (eff w1) as [[a|e|p] w2]; cbn in *;
    split; congruence.
Qed.

Lemma lock_frame_get_opts : lock_frame get_opts.
Proof. by intros s. Qed.

Lemma lock_frame_log (msg : string) : lock_frame (log msg).
Proof. intros [r w]. unfold log. simpl. by destruct (Logger (Opts r)). Qed.

Lemma lock_frame_ensureTable : lock_frame ensureTable.
Proof.
  apply lock_frame_bind; [apply lock_frame_get_opts|]. intros o.
  apply lock_frame_stmt. intros w. by destruct (tables w !! _).
Qed.

Lemma lock_frame_loadApplied : lock_frame loadApplied.
Proof.
  apply lock_frame_bind; [apply lock_frame_get_opts|]. intros o.
  apply lock_frame_stmt. intros w. by destruct (tables w !! _).
Qed.

Lemma lock_frame_applyOne (m : Migration) : lock_frame (applyOne m).
Proof.
  intros [r w]. destruct w as [o c dk h tb sc tx tr lg].
  run. split_run. all: by split.
Qed.

Lemma lock_frame_revertOne (m : Migration) : lock_frame (revertOne m).
Proof.
  intros [r w]. destruct w as [o c dk h tb sc tx tr lg].
  run. split_run. all: by split.
Qed.

Lemma lock_frame_applyAll (ms : list Migration) : lock_frame (applyAll ms).
Proof.
  induction ms as [|m ms IH]; [by intros s|].
  apply lock_frame_bind; [apply lock_frame_applyOne|]. intros _. exact IH.
Qed.

Lemma db_lock_cases (k : Z) (r : Runner) (w : World) :
  (exists w1, db_lock k (r, w) = (Ok tt, (r, w1)) /\ held w1 = k :: held w)
  \/ (exists e w1, db_lock k (r, w) = (Fail e, (r, w1)) /\ held w1 = held w).
Proof.
  destruct w as [o c dk h tb sc tx tr lg]. run. split_run.
  all: first [ left; eexists; split; reflexivity
             | right; eexists _, _; split; reflexivity ].
Qed.

Lemma db_unlock_cases (k : Z) (r : Runner) (w : World) :
  (exists w1, db_unlock k (r, w) = (Ok tt, (r, w1))
              /\ held w1 = remove_one k (held w))
  \/ (exists e w1, db_unlock k (r, w) = (Fail e, (r, w1))
                   /\ held w1 = held w
                   /\ last (trace w1) = Some (ev_fail (SUnlock k) e)).
Proof.
  destruct w as [o c dk h tb sc tx tr lg]. run. split_run.
  all: first [ left; eexists; split; reflexivity
             | right; eexists _, _; split; [reflexivity|];
               split; [reflexivity|apply last_snoc] ].
Qed.

(** Whatever [fn] does short of locking, [withLock] gives the lock back
    when the database accepts the unlock. *)
Lemma withLock_restores (fn : M unit) (r : Runner) (w : World) :
  lock_frame fn -> lock_restored r w (withLock fn (r, w)).
Proof.
  intros Hfn. unfold lock_restored, withLock, release, key_of. cbn [fst snd].
  destruct (db_lock_cases (LockKey (Opts r)) r w)
    as [(w1 & -> & Hh)|(e & w1 & -> & Hh)]; [|by left].
  destruct (Hfn (r, w1)) as [Hh2 Ho]. destruct (fn (r, w1)) as [res [r2 w2]].
  cbn [fst snd] in *. rewrite Ho.
  destruct (db_unlock_cases (LockKey (Opts r)) r2 w2)
    as [(w3 & -> & Hh3)|(e & w3 & -> & Hh3 & Hlast)]; cbn [fst snd].
  - left. rewrite Hh3, Hh2, Hh. simpl. by rewrite Z.eqb_refl.
  - right. exists e. split; [exact Hlast|]. by rewrite Hh3, Hh2, Hh.
Qed.

Section Locked.

Variable checksum : string -> string.

Lemma lock_frame_loadMigrations : lock_frame (loadMigrations checksum).
Proof.
  intros [r w]. unfold loadMigrations. cbn [fst snd].
  pose proof (loadMigrations_pure_Opts checksum r (disk w)) as Ho.
  destruct (loadMigrations_pure checksum r (disk w)) as [[e|] r1]; by split.
Qed.

Lemma lock_frame_Up_body : lock_frame (Up_body checksum).
Proof.
  apply lock_frame_bind; [apply lock_frame_ensureTable|]. intros _.
  apply lock_frame_bind; [apply lock_frame_loadMigrations|]. intros _.
  apply lock_frame_bind; [apply lock_frame_loadApplied|]. intros applied.
  apply lock_frame_bind; [by intros s|]. intros [|m pending].
  - apply lock_frame_log.
  - apply lock_frame_applyAll.
Qed.

Lemma lock_frame_Down_body : lock_frame (Down_body checksum).
Proof.
  apply lock_frame_bind; [apply lock_frame_ensureTable|]. intros _.
  apply lock_frame_bind; [apply lock_frame_loadMigrations|]. intros _.
  apply lock_frame_bind.
  { apply lock_frame_bind; [apply lock_frame_loadApplied|]. by intros a s. }
  intros appliedOK. destruct (last appliedOK) as [latest|].
  - apply lock_frame_bind; [by intros s|]. intros r.
    destruct (find _ _ _); [apply lock_frame_revertOne|by intros s].
  - apply lock_frame_log.
Qed.

(** X12. When the database refuses the advisory lock, [withLock] returns
    that error without running the function and without sending an
    unlock: the only statement sent is the refused lock.  So [Up] and
    [Down] then touch neither the table nor the files, and the runner
    has loaded nothing. *)
Theorem withLock_lock_refused (fn : M unit) (r : Runner) (w : World)
    (msg : string) (d : Z) (rest : list Resp) :
  oracle w = mkResp (Some msg) d :: rest ->
  let refused :=
    (Fail (DBError msg) : Result unit,
     (r, add_event (ev_fail (SLock (key_of r)) (DBError msg))
           (snd (tick w)))) in
  withLock fn (r, w) = refused
  /\ Up checksum r w = refused
  /\ (AllowDangerousDown (Opts r) = true -> Down checksum r w = refused).
Proof.
  intros Ho. destruct w as [o c dk h tb sc tx tr lg]. cbn [oracle] in Ho.
  subst o. cbv zeta.
  assert (H : forall f, withLock f (r, mkWorld (mkResp (Some msg) d :: rest)
                                        c dk h tb sc tx tr lg)
              = (Fail (DBError msg),
                 (r, add_event (ev_fail (SLock (key_of r)) (DBError msg))
                       (snd (tick (mkWorld (mkResp (Some msg) d :: rest)
                                     c dk h tb sc tx tr lg)))))).
  { intros f. unfold withLock, db_lock, stmt. reflexivity. }
  split; [|split].
  - apply H.
  - exact (H (Up_body checksum)).
  - intros Hen. unfold Down. rewrite Hen. exact (H (Down_body checksum)).
Qed.

(** X13. However [Up] or [Down] ends (success, error or the panic on a
    checksum mismatch), the advisory locks of the session are afterwards
    as they were before the call, unless the unlock itself was refused:
    then the unlock is the last statement sent and the runner's key is
    still held. *)
Theorem Up_Down_release_lock (r : Runner) (w : World) :
  lock_restored r w (Up checksum r w)
  /\ lock_restored r w (Down checksum r w).
Proof.
  split.
  - apply withLock_restores, lock_frame_Up_body.
  - unfold Down. destruct (AllowDangerousDown (Opts r)); simpl.
    + apply withLock_restores, lock_frame_Down_body.
    + by left.
Qed.

End Locked.

(** ** Runs the database accepts *)

Lemma answers_add (n k : nat) (o : list Resp) :
  answers (n + k) o = true ->
  answers n o = true /\ answers k (drop n o) = true.
Proof.
  revert o. induction n as [|n IH]; intros o H; simpl in *.
  - split; [done|]. by rewrite drop_0.
  - destruct o as [|a o]; [split; [done|]; by destruct k|].
    destruct (r_err a); [done|]. by apply IH.
Qed.

(** [applyOne] when its four statements are accepted. *)
Lemma applyOne_accepted (m : Migration) (r : Runner) (w : World)
    (tbl : Table) :
  answers 4 (oracle w) = true ->
  tables w !! table_of r = Some tbl ->
  exists w' at_ ms,
    applyOne m (r, w) = (Ok tt, (r, w'))
    /\ schema w' = schema w ++ [m_SQL m]
    /\ tables w'
       = <[table_of r :=
             <[m_Version m := mkData (m_Name m) (m_Checksum m) at_ ms true]>
               tbl]> (tables w)
    /\ oracle w' = drop 4 (oracle w)
    /\ trace w' = trace w ++ apply_events r m ms.
Proof.
  destruct w as [o c dk h tb sc tx tr lg]. cbn [oracle tables schema trace].
  unfold apply_events, record_stmt, table_of. intros Hans Htb.
  run. split_run.
  all: eexists _, _, _; split; [reflexivity|]; cbn;
       rewrite <- ?app_assoc; repeat split; reflexivity.
Qed.

Lemma applyAll_accepted (ms : list Migration) (r : Runner) (w : World)
    (tbl : Table) :
  answers (4 * length ms) (oracle w) = true ->
  tables w !! table_of r = Some tbl ->
  exists w' times,
    applyAll ms (r, w) = (Ok tt, (r, w'))
    /\ schema w' = schema w ++ map m_SQL ms
    /\ length times = length ms
    /\ trace w' = trace w ++ concat (zip_with (apply_events r) ms times).
Proof.
  revert w tbl. induction ms as [|m ms IH]; intros w tbl Hans Htb.
  - exists w, []. simpl. by rewrite !app_nil_r.
  - replace (4 * length (m :: ms))%nat with (4 + 4 * length ms)%nat in Hans
      by (simpl; lia).
    apply answers_add in Hans as [H4 Hrest].
    destruct (applyOne_accepted m r w tbl H4 Htb)
      as (w1 & at_ & t & Hone & Hsc & Htb1 & Ho & Htr).
    rewrite <- Ho in Hrest.
    edestruct (IH w1) as (w' & times & Hall & Hsc' & Hlen & Htr');
      [exact Hrest|rewrite Htb1; apply lookup_insert_eq|].
    exists w', (t :: times). simpl. unfold mbind, M_bind. rewrite Hone.
    split; [exact Hall|]. rewrite Hsc', Hsc, Htr', Htr, Hlen.
    rewrite <- !app_assoc. done.
Qed.

(** [applyOne] when the script was committed and the upsert of its row
    is refused. *)
Lemma applyOne_unrecorded (m : Migration) (r : Runner) (w : World)
    (msg : string) (d : Z) (rest : list Resp) :
  answers 3 (oracle w) = true ->
  drop 3 (oracle w) = mkResp (Some msg) d :: rest ->
  exists w' ms,
    applyOne m (r, w) = (Fail (DBError msg), (r, w'))
    /\ schema w' = schema w ++ [m_SQL m]
    /\ tables w' = tables w
    /\ trace w' = trace w ++
         [ev_ok SBegin; ev_ok (SExec (m_SQL m)); ev_ok SCommit;
          ev_fail (record_stmt r m ms true) (DBError msg)].
Proof.
  destruct w as [o c dk h tb sc tx tr lg]. cbn [oracle tables schema trace].
  unfold record_stmt, table_of. intros Hans Hdrop.
  destruct o as [|a1 [|a2 [|a3 o']]]; simpl in Hdrop; try discriminate.
  rewrite drop_0 in Hdrop. subst o'.
  run. split_run.
  all: eexists _, _; split; [reflexivity|]; cbn;
       rewrite <- ?app_assoc; repeat split; reflexivity.
Qed.

(** [revertOne] when its statements are accepted and the row exists. *)
Lemma revertOne_accepted (m : Migration) (r : Runner) (w : World)
    (tbl : Table) :
  answers (3 + length (exec_events m)) (oracle w) = true ->
  tables w !! table_of r = Some tbl ->
  is_Some (tbl !! m_Version m) ->
  exists w',
    revertOne m (r, w) = (Ok tt, (r, w'))
    /\ tables w' = <[table_of r := delete (m_Version m) tbl]> (tables w)
    /\ schema w' = schema w ++ exec_scripts m
    /\ trace w' = trace w ++ ev_ok SBegin :: exec_events m
                    ++ [ev_ok (SDelete (table_of r) (m_Version m));
                        ev_ok SCommit].
Proof.
  destruct w as [o c dk h tb sc tx tr lg]. cbn [oracle tables schema trace].
  unfold exec_events, exec_scripts, table_of. intros Hans Htb [d Hd].
  run.
  destruct (String.eqb (TrimSpace (m_SQL m)) "") eqn:Hempty; reduce;
    cbn [length Nat.add] in Hans.
  all: split_run.
  all: try (eexists; split; [reflexivity|]; cbn;
            rewrite <- ?app_assoc, ?app_nil_r; repeat split; reflexivity).
Qed.

Section Runs.

Variable checksum : string -> string.

(** X14. When the scripts load and the database accepts every statement
    (lock, CREATE TABLE, SELECT, and BEGIN, script, COMMIT and upsert
    for each pending script), [Up] returns nil having applied all
    pending scripts in ascending order of version, each in a transaction
    of its own followed by the upsert of its [success=true] row; the
    committed scripts are exactly the pending ones, and afterwards every
    pending version has a [success=true] row while the rows of other
    versions are as before. *)
Theorem Up_applies_all (r r1 : Runner) (w : World)
    (pending : list Migration) :
  loadMigrations_pure checksum r (disk w) = (None, r1) ->
  pendingUp_pure (migrations r1)
    (select_rows (rows_at (tables w) (table_of r))) = Ok pending ->
  answers (3 + 4 * length pending) (oracle w) = true ->
  exists w' tbl' times ul,
    Up checksum r w = (Ok tt, (r1, w'))
    /\ schema w' = schema w ++ map m_SQL pending
    /\ tables w' = <[table_of r := tbl']> (tables w)
    /\ applied_to pending (rows_at (tables w) (table_of r)) tbl'
    /\ length times = length pending
    /\ trace w' = trace w
         ++ [ev_ok (SLock (key_of r)); ev_ok (SCreateTable (table_of r));
             ev_ok (SSelect (table_of r))]
         ++ concat (zip_with (apply_events r1) pending times)
         ++ [mkEvent (SUnlock (key_of r)) ul].
Proof.
  intros Hload Hpend Hans. apply answers_add in Hans as [H3 Hrest].
  destruct (loadMigrations_pure_loaded checksum r r1 _ Hload) as [_ Hopts].
  assert (Ht : table_of r1 = table_of r)
    by (unfold table_of; by rewrite Hopts).
  assert (Hk : key_of r1 = key_of r) by (unfold key_of; by rewrite Hopts).
  rewrite (Up_run checksum r r1 w Hload H3).
  destruct (after_reads_frame r w H3) as (Htr & Hsc & Htb & Ho & _).
  set (w3 := after_reads r w) in *.
  assert (Hrows : tables w3 !! table_of r1
                  = Some (rows_at (tables w) (table_of r))).
  { rewrite Ht, Htb. apply lookup_insert_eq. }
  rewrite <- Ho in Hrest.
  destruct (applyAll_accepted pending r1 w3 _ Hrest Hrows)
    as (w4 & times & Hall & Hsc4 & Hlen & Htr4).
  destruct (applyAll_Ok pending r1 r1 w3 w4 _ Hall Hrows)
    as (tbl' & Htb4 & Happ).
  assert (Htail : Up_tail (select_rows (rows_at (tables w) (table_of r)))
                    (r1, w3)
                  = (Ok tt,
                     (r1, match pending with
                          | [] =>
                              snd (snd (log "migrations up-to-date" (r1, w3)))
                          | _ => w4
                          end))).
  { unfold Up_tail, pendingUp. cbv beta iota delta [mbind M_bind fst].
    rewrite Hpend. destruct pending as [|m pending]; [|exact Hall].
    destruct (log_run "migrations up-to-date" r1 w3) as (wl & -> & _). done. }
  rewrite Htail.
  match goal with |- context [release (_, (_, ?w5))] =>
    destruct (release_frame (Ok tt) r1 w5)
      as (w' & ul & -> & Htr' & Htb' & Hsc')
  end.
  exists w', tbl', times, ul. split; [done|].
  rewrite Htr', Htb', Hsc', Hk.
  destruct pending as [|m pending].
  - destruct (log_run "migrations up-to-date" r1 w3)
      as (wl & Hl & Htl & Hsl & Htrl).
    rewrite Hl. cbn [snd]. rewrite Htl, Hsl, Htrl.
    simpl in Hall. injection Hall as <-.
    rewrite Hsc, Htr. simpl. rewrite app_nil_r.
    destruct times; [|done].
    rewrite <- Ht, Htb4, Htb, Ht, insert_insert_eq, <- app_assoc. done.
  - rewrite Htb4, Hsc4, Htr4, Hsc, Htr, Htb, Ht, insert_insert_eq.
    rewrite <- !app_assoc. done.
Qed.

(** X15. When the first pending script is executed and committed and
    the upsert of its [success=true] row is then refused, [Up] returns
    that error: the script's effects are committed, no row records it,
    no later script is run, and the script is still pending, so the next
    [Up] will execute it again. *)
Theorem Up_commit_unrecorded (r r1 : Runner) (w : World)
    (m : Migration) (post : list Migration)
    (msg : string) (d : Z) (rest : list Resp) :
  loadMigrations_pure checksum r (disk w) = (None, r1) ->
  pendingUp_pure (migrations r1)
    (select_rows (rows_at (tables w) (table_of r))) = Ok (m :: post) ->
  answers 6 (oracle w) = true ->
  drop 6 (oracle w) = mkResp (Some msg) d :: rest ->
  exists w' ul,
    Up checksum r w = (Fail (DBError msg), (r1, w'))
    /\ schema w' = schema w ++ [m_SQL m]
    /\ tables w' = <[table_of r := rows_at (tables w) (table_of r)]> (tables w)
    /\ pendingUp_pure (migrations r1)
         (select_rows (rows_at (tables w') (table_of r1))) = Ok (m :: post)
    /\ exists ms,
         trace w' = trace w
           ++ [ev_ok (SLock (key_of r)); ev_ok (SCreateTable (table_of r));
               ev_ok (SSelect (table_of r));
               ev_ok SBegin; ev_ok (SExec (m_SQL m)); ev_ok SCommit;
               ev_fail (record_stmt r1 m ms true) (DBError msg);
               mkEvent (SUnlock (key_of r)) ul].
Proof.
  intros Hload Hpend Hans Hdrop.
  apply (answers_add 3 3) in Hans as [H3 Hrest].
  destruct (loadMigrations_pure_loaded checksum r r1 _ Hload) as [_ Hopts].
  assert (Ht : table_of r1 = table_of r)
    by (unfold table_of; by rewrite Hopts).
  assert (Hk : key_of r1 = key_of r) by (unfold key_of; by rewrite Hopts).
  rewrite (Up_run checksum r r1 w Hload H3).
  destruct (after_reads_frame r w H3) as (Htr & Hsc & Htb & Ho & _).
  set (w3 := after_reads r w) in *.
  rewrite <- Ho in Hrest.
  assert (Hdrop3 : drop 3 (oracle w3) = mkResp (Some msg) d :: rest).
  { rewrite Ho, drop_drop. exact Hdrop. }
  destruct (applyOne_unrecorded m r1 w3 msg d rest Hrest Hdrop3)
    as (w4 & ms & Hone & Hsc4 & Htb4 & Htr4).
  assert (Htail : Up_tail (select_rows (rows_at (tables w) (table_of r)))
                    (r1, w3) = (Fail (DBError msg), (r1, w4))).
  { unfold Up_tail, pendingUp. cbv beta iota delta [mbind M_bind fst].
    rewrite Hpend. simpl. unfold mbind, M_bind. by rewrite Hone. }
  rewrite Htail.
  destruct (release_frame (Fail (DBError msg)) r1 w4)
    as (w' & ul & -> & Htr' & Htb' & Hsc').
  exists w', ul. split; [done|].
  rewrite Htr', Htb', Hsc', Hk, Htb4, Hsc4, Htr4, Hsc, Htr, Htb, Ht.
  split; [done|]. split; [done|]. split.
  - unfold rows_at at 1. by rewrite lookup_insert_eq.
  - exists ms. by rewrite <- !app_assoc.
Qed.

(** X16. With reverting enabled, the scripts loaded, the Down script of
    the latest [success=true] row found and every statement accepted,
    [Down] returns nil having removed exactly that row (the others are
    as before) and committed the Down script in the same transaction;
    for a script that is empty when trimmed, nothing is executed and
    only the row is removed. *)
Theorem Down_reverts_one (r r1 : Runner) (w : World) (tbl : Table)
    (latest : appliedRow) (down : Migration) :
  AllowDangerousDown (Opts r) = true ->
  loadMigrations_pure checksum r (disk w) = (None, r1) ->
  tables w !! table_of r = Some tbl ->
  last (List.filter a_Success (select_rows tbl)) = Some latest ->
  find (migrations r1) (a_Version latest) "down" = Some down ->
  answers (6 + length (exec_events down)) (oracle w) = true ->
  exists w' ul,
    Down checksum r w = (Ok tt, (r1, w'))
    /\ is_Some (tbl !! a_Version latest)
    /\ tables w' = <[table_of r := delete (a_Version latest) tbl]> (tables w)
    /\ schema w' = schema w ++ exec_scripts down
    /\ trace w' = trace w
         ++ [ev_ok (SLock (key_of r)); ev_ok (SCreateTable (table_of r));
             ev_ok (SSelect (table_of r)); ev_ok SBegin]
         ++ exec_events down
         ++ [ev_ok (SDelete (table_of r) (a_Version latest)); ev_ok SCommit;
             mkEvent (SUnlock (key_of r)) ul].
Proof.
  intros Hen Hload Htbl Hlast Hfind Hans.
  replace (6 + length (exec_events down))%nat
    with (3 + (3 + length (exec_events down)))%nat in Hans by lia.
  apply answers_add in Hans as [H3 Hrest].
  destruct (loadMigrations_pure_loaded checksum r r1 _ Hload) as [_ Hopts].
  assert (Ht : table_of r1 = table_of r)
    by (unfold table_of; by rewrite Hopts).
  assert (Hk : key_of r1 = key_of r) by (unfold key_of; by rewrite Hopts).
  rewrite (Down_run checksum r r1 w Hen Hload H3).
  rewrite (rows_at_Some _ _ _ Htbl).
  destruct (after_reads_frame r w H3) as (Htr & Hsc & Htb & Ho & _).
  rewrite (rows_at_Some _ _ _ Htbl) in Htb.
  set (w3 := after_reads r w) in *.
  rewrite <- Ho in Hrest.
  apply find_Some in Hfind as Hdown. destruct Hdown as (_ & Hv & _).
  assert (Hrow : is_Some (tbl !! a_Version latest)).
  { assert (Hin : latest ∈ List.filter a_Success (select_rows tbl)).
    { apply last_Some in Hlast as [l' ->]. apply list_elem_of_In, in_app_iff.
      right. by left. }
    apply list_elem_of_In, filter_In in Hin as [Hin _].
    apply list_elem_of_In, elem_of_select_rows in Hin as (d0 & Hd0 & _).
    eauto. }
  destruct (revertOne_accepted down r1 w3 tbl Hrest)
    as (w4 & Hrev & Htb4 & Hsc4 & Htr4).
  { rewrite Ht, Htb. apply lookup_insert_eq. }
  { by rewrite Hv. }
  assert (Htail : Down_tail (List.filter a_Success (select_rows tbl)) (r1, w3)
                  = (Ok tt, (r1, w4))).
  { unfold Down_tail. rewrite Hlast.
    cbv beta iota delta [mbind M_bind get_runner fst]. by rewrite Hfind. }
  rewrite Htail.
  destruct (release_frame (Ok tt) r1 w4)
    as (w' & ul & -> & Htr' & Htb' & Hsc').
  exists w', ul. split; [done|]. split; [exact Hrow|].
  rewrite Htr', Htb', Hsc', Hk, Htb4, Hsc4, Htr4, Hsc, Htr, Htb, Ht, Hv.
  rewrite insert_insert_eq. repeat split.
  rewrite <- !app_assoc. simpl. rewrite <- !app_assoc. done.
Qed.

End Runs.

(** ** What [Up] sends *)

Lemma applyOne_sends (m : Migration) (r : Runner) (w : World) :
  exists tr res w',
    applyOne m (r, w) = (res, (r, w'))
    /\ trace w' = trace w ++ tr
    /\ Forall (apply_sends r m) tr.
Proof.
  destruct (applyOne_shape m r w) as (tr & res & w' & ms & Heq & Htr & Hcases).
  exists tr, res, w'. split; [exact Heq|]. split; [exact Htr|].
  unfold record_stmt in Hcases.
  destruct Hcases as [(e & -> & _)|[(e & rb & ue & -> & _)|
      [(e & ue & -> & _)|[(e & -> & _)|(at_ & -> & _)]]]].
  all: repeat (apply Forall_cons; split; [by cbn|]).
  all: apply List.Forall_nil.
Qed.

Lemma applyAll_sends (ms : list Migration) (r : Runner) (w : World) :
  exists tr,
    trace (snd (snd (applyAll ms (r, w)))) = trace w ++ tr
    /\ Forall (fun ev => exists m, m ∈ ms /\ apply_sends r m ev) tr.
Proof.
  revert w. induction ms as [|m ms IH]; intros w.
  { exists []. simpl. rewrite app_nil_r. split; [done|constructor]. }
  destruct (applyOne_sends m r w) as (tr1 & res & w1 & Heq & Htr1 & Hs1).
  assert (Hhead : Forall (fun ev => exists m0, m0 ∈ m :: ms
                                     /\ apply_sends r m0 ev) tr1).
  { eapply List.Forall_impl; [|exact Hs1]. intros ev Hev.
    exists m. split; [apply list_elem_of_here|done]. }
  simpl. unfold mbind, M_bind. rewrite Heq.
  destruct res as [[]|e|p]; cbn [fst snd].
  - destruct (IH w1) as (tr2 & Htr2 & Hs2).
    exists (tr1 ++ tr2). split; [by rewrite Htr2, Htr1, app_assoc|].
    apply Forall_app. split; [exact Hhead|].
    eapply List.Forall_impl; [|exact Hs2]. intros ev (m0 & Hin & Hev).
    exists m0. split; [by apply list_elem_of_further|done].
  - exists tr1. done.
  - exists tr1. done.
Qed.

Lemma Up_tail_sends (r : Runner) (w : World) (tbl : Table) :
  exists tr,
    trace (snd (snd (Up_tail (select_rows tbl) (r, w)))) = trace w ++ tr
    /\ fst (snd (Up_tail (select_rows tbl) (r, w))) = r
    /\ Forall (fun ev => exists m, pending_in r tbl m /\ apply_sends r m ev) tr.
Proof.
  unfold Up_tail, pendingUp. cbv beta iota delta [mbind M_bind fst].
  destruct (pendingUp_pure (migrations r) (select_rows tbl))
    as [pending|e|p] eqn:Hp.
  2,3: exists []; cbn; rewrite app_nil_r; repeat split; constructor.
  destruct pending as [|m pending].
  - destruct (log_run "migrations up-to-date" r w) as (w1 & -> & _ & _ & Ht).
    exists []. cbn. rewrite app_nil_r. repeat split; [done|constructor].
  - destruct (applyAll_sends (m :: pending) r w) as (tr & Htr & Hs).
    exists tr. split; [exact Htr|]. split; [apply applyAll_runner|].
    eapply List.Forall_impl; [|exact Hs]. intros ev (m0 & Hin & Hev).
    exists m0. split; [|done].
    by apply (pendingUp_pure_elem _ _ _ m0 Hp).
Qed.

Lemma release_sends (x : Result unit * St) :
  exists ul,
    trace (snd (snd (release x)))
      = trace (snd (snd x)) ++ [mkEvent (SUnlock (key_of (fst (snd x)))) ul]
    /\ fst (snd (release x)) = fst (snd x).
Proof.
  destruct x as [res [r w]].
  destruct (release_frame res r w) as (w' & ul & H & Ht & _).
  exists ul. split.
  - exact (eq_trans (f_equal (fun y => trace (snd (snd y))) H) Ht).
  - exact (f_equal (fun y => fst (snd y)) H).
Qed.

Section Sends.

Variable checksum : string -> string.

(** How the part of [Up] before its own work ends, with what was sent
    and read by then. *)
Lemma locked_reads_sends (K : list appliedRow -> M unit) (r : Runner)
    (w : World) :
  let t := table_of r in
  let out := withLock (_ ← ensureTable; _ ← loadMigrations checksum;
                       applied ← loadApplied; K applied) (r, w) in
  (exists e w1,
      out = (Fail e, (r, w1))
      /\ trace w1 = trace w ++ [ev_fail (SLock (key_of r)) e])
  \/ (exists e r1 w1 pre,
      out = release (Fail e, (r1, w1))
      /\ Opts r1 = Opts r
      /\ trace w1 = trace w ++ pre
      /\ Forall (fun ev => ev_stmt ev = SLock (key_of r)
                           \/ ev_stmt ev = SCreateTable t
                           \/ ev_stmt ev = SSelect t) pre)
  \/ (exists r1 w3,
      out = release (K (select_rows (rows_at (tables w) t)) (r1, w3))
      /\ Opts r1 = Opts r
      /\ trace w3 = trace w ++ [ev_ok (SLock (key_of r));
                                ev_ok (SCreateTable t);
                                ev_ok (SSelect t)]).
Proof.
  pose proof (loadMigrations_pure_Opts checksum r (disk w)) as Hopts.
  destruct w as [o c dk h tb sc tx tr lg]. cbn [oracle disk tables] in *.
  unfold rows_at.
  cbv beta iota zeta delta
    [withLock ensureTable loadApplied loadMigrations
     mbind M_bind mret M_ret get_opts stmt tick
     db_lock db_create_table db_select
     set_tables set_held add_event table_of key_of].
  reduce.
  split_run_using ltac:(rewrite lookup_insert_eq).
  all: cbn [snd] in Hopts; rewrite ?Hopts in *.
  all: rewrite ?lookup_insert_eq in *; simplify_eq.
  all: first
    [ left; eexists _, _; split; [reflexivity|]; reduce; reflexivity
    | right; right; eexists _, _; split; [reflexivity|];
      split; [exact Hopts|]; reduce; rewrite <- ?app_assoc; reflexivity
    | right; left; eexists _, _, _, _; split; [reflexivity|];
      split; [first [exact Hopts | reflexivity]|];
      reduce; rewrite <- ?app_assoc;
      split; [reflexivity|];
      repeat (apply Forall_cons; split;
              [first [left; reflexivity | right; left; reflexivity
                     | right; right; reflexivity]|]);
      apply List.Forall_nil ].
Qed.

(** X17. Whatever the database answers and however [Up] ends, the
    statements it sends are only these: the lock and the unlock of its
    key; CREATE TABLE IF NOT EXISTS and SELECT on its tracking table;
    and, for loaded Up scripts whose version had no [success=true] row
    when the call began, BEGIN, the script's SQL, COMMIT or ROLLBACK,
    and an upsert into its tracking table of the row of that version
    with the script's name and checksum.  It never sends a DELETE, and
    never an upsert for a version that had a [success=true] row.  (What
    the scripts themselves do to the database is not the runner's.) *)
Theorem Up_sends_only (r : Runner) (w : World) :
  let out := Up checksum r w in
  exists tr,
    trace (snd (snd out)) = trace w ++ tr
    /\ Forall (up_sends r (fst (snd out))
                 (rows_at (tables w) (table_of r))) tr.
Proof.
  cbv zeta.
  pose proof (locked_reads_sends Up_tail r w) as H. cbv zeta in H.
  change (withLock _ (r, w)) with (Up checksum r w) in H.
  destruct H as [(e & w1 & -> & Htr)|[(e & r1 & w1 & pre & -> & Hopts & Htr & Hs)|
                 (r1 & w3 & -> & Hopts & Htr)]].
  - exists [ev_fail (SLock (key_of r)) e]. split; [exact Htr|].
    repeat constructor.
  - match goal with |- context [release ?x] =>
      destruct (release_sends x) as (ul & Htr' & Hr')
    end.
    rewrite Htr', Hr'. cbn [fst snd].
    exists (pre ++ [mkEvent (SUnlock (key_of r1)) ul]).
    split; [by rewrite Htr, <- app_assoc|].
    apply Forall_app. split.
    + eapply List.Forall_impl; [|exact Hs]. intros ev Hev.
      unfold up_sends. destruct Hev as [->|[->| ->]]; reflexivity.
    + repeat constructor. unfold up_sends, key_of. cbn. by rewrite Hopts.
  - destruct (Up_tail_sends r1 w3 (rows_at (tables w) (table_of r)))
      as (tr2 & Htr2 & Hr & Hs).
    match goal with |- context [release ?x] =>
      destruct (release_sends x) as (ul & Htr' & Hr')
    end.
    rewrite Htr', Hr', Htr2, Hr, Htr.
    exists ([ev_ok (SLock (key_of r)); ev_ok (SCreateTable (table_of r));
             ev_ok (SSelect (table_of r))] ++ tr2
            ++ [mkEvent (SUnlock (key_of r1)) ul]).
    split; [by rewrite <- !app_assoc|].
    assert (Ht : table_of r1 = table_of r)
      by (unfold table_of; by rewrite Hopts).
    apply Forall_app. split; [repeat constructor|].
    apply Forall_app. split.
    + eapply List.Forall_impl; [|exact Hs]. intros ev (m & Hm & Hev).
      unfold up_sends. unfold apply_sends in *. rewrite Ht in Hev.
      destruct (ev_stmt ev); try done; exists m; done.
    + repeat constructor. unfold up_sends, key_of. cbn. by rewrite Hopts.
Qed.

End Sends.

(** ** [Status] *)


Section ReportFacts.

Variable checksum : string -> string.
Variable RFC3339 : Z -> string.

(** X18. [Status] only reads: whatever the database answers, it sends
    at most two statements, a CREATE TABLE IF NOT EXISTS and a SELECT on
    the tracking table; it takes no lock, opens no transaction, runs no
    script and changes no existing table (it may create the tracking
    table, empty). *)
Theorem Status_reads_only (r : Runner) (w : World) :
  exists res r' w' tr,
    Status checksum RFC3339 (r, w) = (res, (r', w'))
    /\ held w' = held w /\ schema w' = schema w /\ txn w' = txn w
    /\ (forall t tbl, tables w !! t = Some tbl -> tables w' !! t = Some tbl)
    /\ trace w' = trace w ++ tr
    /\ Forall (is_read (table_of r)) tr /\ (length tr <= 2)%nat.
Proof.
  pose proof (loadMigrations_pure_Opts checksum r (disk w)) as Hopts.
  destruct w as [o c dk h tb sc tx tr lg]. cbn [oracle disk tables] in *.
  unfold Status, is_read. run.
  split_run.
  all: cbn [snd] in Hopts; rewrite ?Hopts.
  all: eexists _, _, _, _; split; [reflexivity|]; cbn.
  all: repeat (split; [reflexivity|]).
  all: split; [intros t0 tbl0 Ht0;
               first [ exact Ht0
                     | rewrite lookup_insert_ne; [exact Ht0|congruence] ]|].
  all: split; [rewrite <- ?app_assoc; try reflexivity;
               symmetry; apply app_nil_r|].
  all: split; [|simpl; lia].
  all: repeat (apply Forall_cons; split;
               [first [left; reflexivity | right; reflexivity]|]).
  all: apply List.Forall_nil.
Qed.


(** X20. [Status] panics on drift as [Up] does: when a loaded Up script
    has a [success=true] row with another checksum (scripts loaded,
    both statements accepted), [Status] ends in the "checksum mismatch"
    panic instead of returning a report or an error; the tables are
    unchanged. *)
Theorem Status_drift_panics (r r1 : Runner) (w : World) (tbl : Table)
    (m : Migration) (d : RowData) :
  loadMigrations_pure checksum r (disk w) = (None, r1) ->
  answers 2 (oracle w) = true ->
  tables w !! table_of r = Some tbl ->
  m ∈ migrations r1 -> m_Dir m = "up"%string ->
  tbl !! m_Version m = Some d -> d_Success d = true ->
  d_Checksum d <> m_Checksum m ->
  exists m0 d0 w',
    Status checksum RFC3339 (r, w)
      = (Panic (mismatch_msg m0 (row_of (m_Version m0, d0))), (r1, w'))
    /\ m0 ∈ migrations r1 /\ tbl !! m_Version m0 = Some d0
    /\ d_Checksum d0 <> m_Checksum m0
    /\ tables w' = tables w /\ schema w' = schema w
    /\ trace w' = trace w ++ [ev_ok (SCreateTable (table_of r));
                              ev_ok (SSelect (table_of r))].
Proof.
  intros Hload Hans Htb Hm Hup Hd Hs Hc.
  destruct (pendingUp_pure_drift (migrations r1) tbl m d Hm Hup Hd Hs Hc)
    as (m0 & d0 & Hp & Hm0 & _ & Hd0 & _ & Hc0).
  pose proof (loadMigrations_pure_Opts checksum r (disk w)) as Hopts.
  rewrite Hload in Hopts. cbn [snd] in Hopts.
  unfold table_of in *.
  destruct w as [o c dk h tb sc tx tr lg]. cbn [oracle disk tables] in *.
  unfold Status. run.
  split_run_using ltac:(rewrite ?Hopts, ?lookup_insert_eq).
  all: try (rewrite ?Hopts, ?lookup_insert_eq in *; simplify_eq).
  all: eexists m0, d0, _; split; [reflexivity|]; cbn; rewrite <- ?app_assoc;
       repeat split; first [reflexivity | assumption].
Qed.

End ReportFacts.

(** ** The further properties on the concrete sessions *)

Lemma parseFileName_sound_witness :
  m_File ex_parsed = ex_path /\ m_SQL ex_parsed = ""%string
  /\ m_Checksum ex_parsed = ""%string
  /\ (m_Dir ex_parsed = "up"%string \/ m_Dir ex_parsed = "down"%string)
  /\ m_Name ex_parsed <> ""%string
  /\ all_bytes is_name_char (m_Name ex_parsed)
  /\ 0 <= m_Version ex_parsed < 10 ^ 14
  /\ exists ver,
       all_bytes is_digit ver /\ (8 <= length (bytes_of ver) <= 14)%nat
       /\ ParseInt ver = m_Version ex_parsed
       /\ Base ex_path = file_name ver (m_Name ex_parsed) (m_Dir ex_parsed).
Proof.
  apply (parseFileName_sound ex_path ex_parsed). vm_compute. reflexivity.
Defined.

Lemma parseFileName_complete_witness :
  parseFileName (file_name "20240101" "users" "up")
  = Some (mkMigration (ParseInt "20240101") "users" "up"
            (file_name "20240101" "users" "up") "" "").
Proof.
  apply (parseFileName_complete "20240101" "users" "up").
  - unfold all_bytes. simpl. repeat constructor.
  - simpl. lia.
  - unfold all_bytes. simpl. repeat constructor.
  - discriminate.
  - left. reflexivity.
Defined.

Lemma pendingUp_pending_set_witness :
  (forall m, m ∈ [mig_tags] <->
     m ∈ ex_registry /\ m_Dir m = "up"%string
     /\ forall d, ex_table_out_of_order !! m_Version m = Some d ->
                  d_Success d = false)
  /\ StronglySorted (fun a b => m_Version a <= m_Version b) [mig_tags]
  /\ [mig_tags]
       ≡ₚ List.filter (waiting (appliedSet (select_rows ex_table_out_of_order)))
            ex_registry.
Proof.
  apply (pendingUp_pending_set ex_registry [mig_tags] ex_table_out_of_order).
  vm_compute. reflexivity.
Defined.


Lemma loadMigrations_failure_keeps_witness :
  let all := [ (Some ex_dir_unreadable, "20240101_users.up.sql"%string);
               (Some ex_dir_unreadable, "20240102_posts.up.sql"%string) ] in
  loaded (ex_runner false) = false /\ loaded ex_after_failed_load = false
  /\ DB ex_after_failed_load = DB (ex_runner false)
  /\ Opts ex_after_failed_load = Opts (ex_runner false)
  /\ exists pre fr post,
       all = pre ++ fr :: post
       /\ migrations ex_after_failed_load
          = migrations (ex_runner false) ++ omap (script_of toy_checksum) pre
       /\ Forall (collected toy_checksum) pre
       /\ stopped_at pre fr (FSError "read 20240102_posts.up.sql").
Proof.
  apply (loadMigrations_failure_keeps toy_checksum (ex_runner false)
           ex_after_failed_load {[ "migrations"%string := ex_dir_unreadable ]}
           (FSError "read 20240102_posts.up.sql")
           [Some ex_dir_unreadable]).
  - vm_compute. reflexivity.
  - vm_compute. reflexivity.
  - vm_compute. reflexivity.
  - discriminate.
Defined.

Lemma loadMigrations_no_source_witness :
  loadMigrations_pure toy_checksum ex_runner_no_source ex_disk
  = (Some ErrNoSource, ex_runner_no_source).
Proof.
  apply (loadMigrations_no_source toy_checksum ex_runner_no_source ex_disk).
  - reflexivity.
  - reflexivity.
  - simpl. repeat constructor.
  - reflexivity.
Defined.

Lemma loadMigrations_unlistable_root_witness :
  exists e,
    loadMigrations_pure toy_checksum ex_runner_missing_dir ex_disk
    = (Some (ErrReadDir e), ex_runner_missing_dir).
Proof.
  apply (loadMigrations_unlistable_root toy_checksum ex_runner_missing_dir
           ex_disk [None]).
  - reflexivity.
  - vm_compute. reflexivity.
  - apply list_elem_of_here.
Defined.

Lemma loadMigrations_loads_once_witness :
  loadMigrations_pure toy_checksum (ex_loaded false) ∅
  = (None, ex_loaded false).
Proof.
  apply (loadMigrations_loads_once toy_checksum (ex_runner false)
           (ex_loaded false) ex_disk ∅).
  vm_compute. reflexivity.
Defined.

Lemma withLock_lock_refused_witness :
  let r := ex_runner true in
  let w := ex_world ex_lock_refused ∅ in
  let refused :=
    (Fail (DBError "lock timeout") : Result unit,
     (r, add_event (ev_fail (SLock (key_of r)) (DBError "lock timeout"))
           (snd (tick w)))) in
  withLock (mret tt) (r, w) = refused
  /\ Up toy_checksum r w = refused
  /\ (AllowDangerousDown (Opts r) = true -> Down toy_checksum r w = refused).
Proof.
  apply (withLock_lock_refused toy_checksum (mret tt) (ex_runner true)
           (ex_world ex_lock_refused ∅) "lock timeout" 1000000 []).
  reflexivity.
Defined.

Lemma Up_applies_all_witness :
  let r := ex_runner false in
  let w := ex_world [] ∅ in
  let pending := [mig_users; mig_posts; mig_tags] in
  exists w' tbl' times ul,
    Up toy_checksum r w = (Ok tt, (ex_loaded false, w'))
    /\ schema w' = schema w ++ map m_SQL pending
    /\ tables w' = <[table_of r := tbl']> (tables w)
    /\ applied_to pending (rows_at (tables w) (table_of r)) tbl'
    /\ length times = length pending
    /\ trace w' = trace w
         ++ [ev_ok (SLock (key_of r)); ev_ok (SCreateTable (table_of r));
             ev_ok (SSelect (table_of r))]
         ++ concat (zip_with (apply_events (ex_loaded false)) pending times)
         ++ [mkEvent (SUnlock (key_of r)) ul].
Proof.
  apply (Up_applies_all toy_checksum (ex_runner false) (ex_loaded false)
           (ex_world [] ∅) [mig_users; mig_posts; mig_tags]).
  - vm_compute. reflexivity.
  - vm_compute. reflexivity.
  - reflexivity.
Defined.

Lemma Up_commit_unrecorded_witness :
  let r := ex_runner false in
  let r1 := ex_loaded false in
  let w := ex_world ex_record_fails ∅ in
  exists w' ul,
    Up toy_checksum r w = (Fail (DBError "connection lost"), (r1, w'))
    /\ schema w' = schema w ++ [m_SQL mig_users]
    /\ tables w' = <[table_of r := rows_at (tables w) (table_of r)]> (tables w)
    /\ pendingUp_pure (migrations r1)
         (select_rows (rows_at (tables w') (table_of r1)))
       = Ok [mig_users; mig_posts; mig_tags]
    /\ exists ms,
         trace w' = trace w
           ++ [ev_ok (SLock (key_of r)); ev_ok (SCreateTable (table_of r));
               ev_ok (SSelect (table_of r));
               ev_ok SBegin; ev_ok (SExec (m_SQL mig_users)); ev_ok SCommit;
               ev_fail (record_stmt r1 mig_users ms true)
                       (DBError "connection lost");
               mkEvent (SUnlock (key_of r)) ul].
Proof.
  apply (Up_commit_unrecorded toy_checksum (ex_runner false) (ex_loaded false)
           (ex_world ex_record_fails ∅) mig_users [mig_posts; mig_tags]
           "connection lost" 1000000 []).
  - vm_compute. reflexivity.
  - vm_compute. reflexivity.
  - reflexivity.
  - reflexivity.
Defined.

Lemma Down_reverts_one_witness :
  let r := ex_runner true in
  let w := ex_world_applied in
  exists w' ul,
    Down toy_checksum r w = (Ok tt, (ex_loaded true, w'))
    /\ is_Some (ex_table_out_of_order !! 20240101)
    /\ tables w'
       = <[table_of r := delete 20240101 ex_table_out_of_order]> (tables w)
    /\ schema w' = schema w ++ exec_scripts mig_users_down
    /\ trace w' = trace w
         ++ [ev_ok (SLock (key_of r)); ev_ok (SCreateTable (table_of r));
             ev_ok (SSelect (table_of r)); ev_ok SBegin]
         ++ exec_events mig_users_down
         ++ [ev_ok (SDelete (table_of r) 20240101); ev_ok SCommit;
             mkEvent (SUnlock (key_of r)) ul].
Proof.
  apply (Down_reverts_one toy_checksum (ex_runner true) (ex_loaded true)
           ex_world_applied ex_table_out_of_order
           (row_of (20240101, row_users_later)) mig_users_down).
  - reflexivity.
  - vm_compute. reflexivity.
  - vm_compute. reflexivity.
  - vm_compute. reflexivity.
  - vm_compute. reflexivity.
  - reflexivity.
Defined.


Lemma Status_drift_panics_witness :
  let r := ex_runner false in
  let r1 := ex_loaded false in
  let tbl : Table := {[ 20240101 := row_users_old ]} in
  exists m0 d0 w',
    Status toy_checksum toy_time (r, ex_world_drift)
      = (Panic (mismatch_msg m0 (row_of (m_Version m0, d0))), (r1, w'))
    /\ m0 ∈ migrations r1 /\ tbl !! m_Version m0 = Some d0
    /\ d_Checksum d0 <> m_Checksum m0
    /\ tables w' = tables ex_world_drift /\ schema w' = schema ex_world_drift
    /\ trace w' = trace ex_world_drift
         ++ [ev_ok (SCreateTable (table_of r)); ev_ok (SSelect (table_of r))].
Proof.
  apply (Status_drift_panics toy_checksum toy_time (ex_runner false)
           (ex_loaded false) ex_world_drift {[ 20240101 := row_users_old ]}
           mig_users row_users_old).
  - vm_compute. reflexivity.
  - reflexivity.
  - vm_compute. reflexivity.
  - apply list_elem_of_further, list_elem_of_here.
  - reflexivity.
  - vm_compute. reflexivity.
  - reflexivity.
  - discriminate.
Defined.
